(** * The sorting and search engine of [iters/slices]

    A shallow embedding of [slices/sort.go] and [slices/keys.go] together
    with the properties their specification states about them, and of
    the functions of [slices/slices.go] with the properties their code
    shows.

    Go's [int] and [uint] are the 64-bit machine integers; they are
    embedded as [Z] with the wrap-around written out.  A slice is embedded
    as the list of its elements where only its contents matter, and as a
    view into a store of backing arrays where aliasing matters. *)

From Stdlib Require Import ZArith Lia List Bool Permutation Sorted Floats.
From stdpp Require Import base option list gmap strings.

Local Open Scope Z_scope.

(** ** Machine integers *)

(** [int(x)]: the value of [x] in the signed 64-bit range, which is also
    what an [int] addition leaves after overflow. *)
Definition to_int (z : Z) : Z := (z + 2 ^ 63) mod 2 ^ 64 - 2 ^ 63.

(** [uint(x)]: the value of [x] in the unsigned 64-bit range. *)
Definition to_uint (z : Z) : Z := z mod 2 ^ 64.

(** The values an [int] can hold. *)
Definition is_int (z : Z) : Prop := - 2 ^ 63 <= z < 2 ^ 63.

(** ** Outcome of a call

    A Go call returns, or panics (an index out of range inside a
    callback), or, in the embedding only, uses up the fuel that bounds its
    loop. *)
Inductive outcome (A : Type) : Type :=
| Returned (a : A)
| Panicked
| OutOfFuel.
Arguments Returned {A} a.
Arguments Panicked {A}.
Arguments OutOfFuel {A}.

(** ** [search]  (sort.go, lines 137-152) *)

(** [h := int(uint(i+j) >> 1)] *)
Definition midpoint (i j : Z) : Z :=
  to_int (Z.shiftr (to_uint (to_int (i + j))) 1).

(** The loop [for i < j { ... }] of [search].  The callback [f] returns
    [None] when it panics.  The first component of the result lists the
    indices at which [f] was called, in call order. *)
Fixpoint search_loop (fuel : nat) (f : Z -> option bool) (i j : Z)
  : list Z * outcome Z :=
  if i <? j then
    match fuel with
    | O => ([], OutOfFuel)
    | S fuel' =>
        let h := midpoint i j in
        match f h with
        | None => ([h], Panicked)
        | Some false =>
            let '(tr, r) := search_loop fuel' f (to_int (h + 1)) j in
            (h :: tr, r)
        | Some true =>
            let '(tr, r) := search_loop fuel' f i h in
            (h :: tr, r)
        end
    end
  else ([], Returned i).

(** Every iteration at least halves [j - i], and [j - i] is below [2^64]:
    64 iterations are all the loop can make. *)
Definition search_fuel : nat := 64.

Definition search_run (n : Z) (f : Z -> option bool) : list Z * outcome Z :=
  search_loop search_fuel f 0 n.

(** The value [search] returns. *)
Definition search (n : Z) (f : Z -> option bool) : outcome Z :=
  snd (search_run n f).

(** The indices at which [search] calls [f]. *)
Definition search_probes (n : Z) (f : Z -> option bool) : list Z :=
  fst (search_run n f).

(** A callback that never panics. *)
Definition always {A} (f : Z -> A) : Z -> option A := fun i => Some (f i).
Arguments always : simpl never.

(** [r] is the least index of [0..n-1] at which [f] is true, and is [n]
    when there is none. *)
Definition least_true (n : Z) (f : Z -> bool) (r : Z) : Prop :=
  0 <= r <= n /\
  (forall i, 0 <= i < r -> f i = false) /\
  (r < n -> f r = true).

(** [f] is false below the threshold [k] and true from it on. *)
Definition monotonic (n : Z) (f : Z -> bool) (k : Z) : Prop :=
  0 <= k <= n /\
  (forall i, 0 <= i < k -> f i = false) /\
  (forall i, k <= i < n -> f i = true).

(** ** Ordered element types

    [rules.Ordered] is declared outside the repository; it is the
    constraint of the types that support Go's comparison operators:
    the integer types, the floating-point types and strings.  The class
    below carries the six operators. *)
Class Ordered (E : Type) : Type := {
  lss : E -> E -> bool;   (* a <  b *)
  leq : E -> E -> bool;   (* a <= b *)
  gtr : E -> E -> bool;   (* a >  b *)
  geq : E -> E -> bool;   (* a >= b *)
  eql : E -> E -> bool;   (* a == b *)
  neq : E -> E -> bool    (* a != b *)
}.

(** Go's [int]. *)
#[export] Instance int_Ordered : Ordered Z := {|
  lss := Z.ltb; leq := Z.leb; gtr := Z.gtb; geq := Z.geb;
  eql := Z.eqb; neq := fun a b => negb (Z.eqb a b)
|}.

(** Go's [string]: the operators compare byte by byte. *)
#[export] Instance string_Ordered : Ordered string := {|
  lss := String.ltb;
  leq := String.leb;
  gtr := fun a b => String.ltb b a;
  geq := fun a b => String.leb b a;
  eql := String.eqb;
  neq := fun a b => negb (String.eqb a b)
|}.

(** Go's [float64]: IEEE 754 binary64, whose comparisons are all false
    on a NaN, except [!=], which is the negation of [==]. *)
#[export] Instance float64_Ordered : Ordered float := {|
  lss := PrimFloat.ltb;
  leq := PrimFloat.leb;
  gtr := fun a b => PrimFloat.ltb b a;
  geq := fun a b => PrimFloat.leb b a;
  eql := PrimFloat.eqb;
  neq := fun a b => negb (PrimFloat.eqb a b)
|}.

(** A less function is a strict weak ordering: irreflexive, transitive,
    and with a transitive incomparability relation. *)
Record StrictWeakOrder {E : Type} (less : E -> E -> bool) : Prop := {
  swo_irrefl : forall a, less a a = false;
  swo_trans : forall a b c, less a b = true -> less b c = true -> less a c = true;
  swo_incomp : forall a b c,
    less a b = false -> less b a = false ->
    less b c = false -> less c b = false ->
    less a c = false /\ less c a = false
}.

(** [a] and [b] are equivalent under [less]: neither is less than the
    other. *)
Definition equiv {E : Type} (less : E -> E -> bool) (a b : E) : bool :=
  negb (less a b) && negb (less b a).

(** The operators of an ordered type agree with one another the way they
    do on integers, on strings and on floating-point numbers other than
    NaN: [<] is a strict weak ordering and the other five are what [<]
    makes them. *)
Class OrderedLaws (E : Type) `{Ordered E} : Prop := {
  lss_swo : StrictWeakOrder lss;
  leq_lss : forall a b, leq a b = negb (lss b a);
  gtr_lss : forall a b, gtr a b = lss b a;
  geq_lss : forall a b, geq a b = negb (lss a b);
  eql_lss : forall a b, eql a b = equiv lss a b;
  neq_lss : forall a b, neq a b = negb (equiv lss a b)
}.

(** A three-way comparison [cmp] ("0 if a == b, a negative number if
    a < b and a positive number if a > b") is that of the strict weak
    ordering [less]. *)
Record ThreeWay {E : Type} (cmp : E -> E -> Z) (less : E -> E -> bool) : Prop := {
  cmp_swo : StrictWeakOrder less;
  cmp_neg : forall a b, cmp a b < 0 <-> less a b = true;
  cmp_pos : forall a b, 0 < cmp a b <-> less b a = true
}.

(** ** Slices as sequences *)

(** [len(s)] *)
Definition len {E : Type} (s : list E) : Z := Z.of_nat (length s).

(** [s[i]]: [None] is the run-time panic "index out of range". *)
Definition index {E : Type} (s : list E) (i : Z) : option E :=
  if (0 <=? i) && (i <? len s) then s !! Z.to_nat i else None.

(** No inversion: for all indices [i < j], [!less(s[j], s[i])]. *)
Definition ascending {E : Type} (less : E -> E -> bool) (s : list E) : Prop :=
  forall (i j : nat) (a b : E),
    (i < j)%nat -> s !! i = Some a -> s !! j = Some b -> less b a = false.

(** No adjacent pair has [less(s[i], s[i-1])]. *)
Definition adjacent_ascending {E : Type} (less : E -> E -> bool) (s : list E) : Prop :=
  forall (i : nat) (a b : E),
    s !! i = Some a -> s !! S i = Some b -> less b a = false.

(** ** [IsSorted], [IsSortedFunc]  (sort.go, lines 75-93) *)

(** The loop [for i := len(x) - 1; i > 0; i--] with the current [i]. *)
Fixpoint IsSortedFunc_loop {E : Type} (less : E -> E -> bool) (x : list E)
  (fuel : nat) (i : Z) : outcome bool :=
  if 0 <? i then
    match fuel with
    | O => OutOfFuel
    | S fuel' =>
        match index x i, index x (i - 1) with
        | Some a, Some b =>
            if less a b then Returned false
            else IsSortedFunc_loop less x fuel' (i - 1)
        | _, _ => Panicked
        end
    end
  else Returned true.

Definition IsSortedFunc {E : Type} (less : E -> E -> bool) (x : list E) : outcome bool :=
  IsSortedFunc_loop less x (length x) (len x - 1).

(** [IsSorted] is the same loop with [x[i] < x[i-1]]. *)
Definition IsSorted {E : Type} `{Ordered E} (x : list E) : outcome bool :=
  IsSortedFunc_loop lss x (length x) (len x - 1).

(** ** [BinarySearch], [BinarySearchFunc]  (sort.go, lines 105-129) *)

Definition BinarySearch {E : Type} `{Ordered E} (target : E) (space : list E)
  : outcome (Z * bool) :=
  match search (len space) (fun i => x ← index space i; Some (geq x target)) with
  | Returned pos =>
      if len space <=? pos then Returned (pos, false)
      else
        match index space pos with
        | None => Panicked
        | Some x => if neq x target then Returned (pos, false) else Returned (pos, true)
        end
  | Panicked => Panicked
  | OutOfFuel => OutOfFuel
  end.

Definition BinarySearchFunc {E : Type} (cmp : E -> E -> Z) (target : E) (space : list E)
  : outcome (Z * bool) :=
  match search (len space) (fun i => x ← index space i; Some (0 <=? cmp x target)) with
  | Returned pos =>
      if len space <=? pos then Returned (pos, false)
      else
        match index space pos with
        | None => Panicked
        | Some x =>
            if negb (cmp x target =? 0) then Returned (pos, false) else Returned (pos, true)
        end
  | Panicked => Panicked
  | OutOfFuel => OutOfFuel
  end.

(** ** The [Key] adapter  (keys.go) *)

Module Key.

Section Methods.
Context {I O : Type} `{Ordered O} (k : I -> O).

Definition Lt (left right : I) : bool := lss (k left) (k right).
Definition Le (left right : I) : bool := leq (k left) (k right).
Definition Gt (left right : I) : bool := gtr (k left) (k right).
Definition Ge (left right : I) : bool := geq (k left) (k right).
Definition Eq (left right : I) : bool := eql (k left) (k right).
Definition Ne (left right : I) : bool := neq (k left) (k right).

Definition Cmp (left right : I) : Z :=
  let l := k left in
  let r := k right in
  if eql l r then 0
  else if lss l r then -1
  else 1.

End Methods.

End Key.

(** [BinarySearchKey]  (sort.go, lines 132-135) *)
Definition BinarySearchKey {E O : Type} `{Ordered O} (key : E -> O) (target : E)
  (space : list E) : outcome (Z * bool) :=
  BinarySearchFunc (Key.Cmp key) target space.

(** [IsSortedKey]  (sort.go, lines 96-99) *)
Definition IsSortedKey {E O : Type} `{Ordered O} (key : E -> O) (data : list E)
  : outcome bool :=
  IsSortedFunc (Key.Lt key) data.

(** ** Vocabulary of the properties *)

(** [f], where it does not panic, is upward closed on [0..n-1]. *)
Definition upward_closed (n : Z) (f : Z -> bool) : Prop :=
  forall i j, 0 <= i -> i <= j -> j < n -> f i = true -> f j = true.

(** [BinarySearch] and [BinarySearchFunc] differ in the predicate of the
    search ([ge]) and in the final test ([ne]) only; this is the body they
    share, which the proofs go through once. *)
Definition binary_search_with {E : Type} (ge ne : E -> bool) (space : list E)
  : outcome (Z * bool) :=
  match search (len space) (fun i => x ← index space i; Some (ge x)) with
  | Returned pos =>
      if len space <=? pos then Returned (pos, false)
      else
        match index space pos with
        | None => Panicked
        | Some x => if ne x then Returned (pos, false) else Returned (pos, true)
        end
  | Panicked => Panicked
  | OutOfFuel => OutOfFuel
  end.

(** The predicate of that search as a function that never panics. *)
Definition ge_at {E : Type} (ge : E -> bool) (space : list E) (i : Z) : bool :=
  match index space i with Some x => ge x | None => false end.

(** [a] is not after [b]: [!less(b, a)]. *)
Definition not_after {E : Type} (less : E -> E -> bool) (a b : E) : Prop :=
  less b a = false.

(** A check of adjacent pairs from the front, for concrete sequences. *)
Fixpoint adjacent_check {E : Type} (less : E -> E -> bool) (s : list E) : bool :=
  match s with
  | a :: (b :: _) as s' => negb (less b a) && adjacent_check less s'
  | _ => true
  end.

(** [pos] is the least index whose element is not less than [target],
    and is [len(space)] when every element is less. *)
Definition lower_bound {E : Type} (less : E -> E -> bool) (target : E)
  (space : list E) (pos : Z) : Prop :=
  0 <= pos <= len space /\
  (forall i x, 0 <= i < pos -> index space i = Some x -> less x target = true) /\
  (forall x, index space pos = Some x -> less x target = false).

(** [found] says whether [pos] is inside the slice and holds an element
    equivalent to [target]. *)
Definition found_at {E : Type} (less : E -> E -> bool) (target : E)
  (space : list E) (pos : Z) (found : bool) : Prop :=
  found = true <-> exists x, index space pos = Some x /\ equiv less x target = true.

(** ** Counting comparisons

    A computation that calls the comparator returns its value together
    with the number of calls it made. *)
Record counted (A : Type) : Type := Counted { value : A; cost : nat }.
Arguments Counted {A} value cost.
Arguments value {A} c.
Arguments cost {A} c.

#[export] Instance counted_ret : MRet counted := fun A a => Counted a 0%nat.

#[export] Instance counted_bind : MBind counted := fun A B k m =>
  let r := k (value m) in
  Counted (value r) (cost m + cost r)%nat.

(** One call [less(a, b)]. *)
Definition call {E : Type} (less : E -> E -> bool) (a b : E) : counted bool :=
  Counted (less a b) 1%nat.

(** ** The store of backing arrays

    A slice is [nil] or a window of [n] elements at offset [off] of the
    backing array at [base]; the store maps every allocated array to its
    contents. *)
Definition loc : Type := positive.

Inductive slice : Type :=
| Nil
| Slice (base : loc) (off n : nat).
Arguments Slice base%_positive off%_nat n%_nat.

(** The window lies inside an allocated array. *)
Definition valid {E : Type} (st : gmap loc (list E)) (s : slice) : Prop :=
  match s with
  | Nil => True
  | Slice base off n =>
      exists arr, st !! base = Some arr /\ (off + n <= length arr)%nat
  end.

(** The elements [s[0], ..., s[len(s)-1]]. *)
Definition contents {E : Type} (st : gmap loc (list E)) (s : slice) : list E :=
  match s with
  | Nil => []
  | Slice base off n =>
      match st !! base with
      | Some arr => take n (drop off arr)
      | None => []
      end
  end.

(** Overwriting the window of [s] with the elements of [data]. *)
Definition assign {E : Type} (st : gmap loc (list E)) (s : slice) (data : list E)
  : gmap loc (list E) :=
  match s with
  | Nil => st
  | Slice base off n =>
      match st !! base with
      | Some arr => <[base := take off arr ++ take n data ++ drop (off + n) arr]> st
      | None => st
      end
  end.

(** [Clone]  (slices.go): [nil] stays [nil]; otherwise [make] allocates
    a new array and [copy] fills it with the elements of [s]. *)
Definition Clone {E : Type} (s : slice) (st : gmap loc (list E))
  : slice * gmap loc (list E) :=
  match s with
  | Nil => (Nil, st)
  | Slice _ _ n =>
      let base := fresh (dom st) in
      (Slice base 0 n, <[base := contents st s]> st)
  end.

(** [bits.Len(x)] of the standard library: the number of bits needed to
    represent [x], and 0 for [x = 0]. *)
Definition bits_Len (x : Z) : Z := if x <=? 0 then 0 else Z.log2 x + 1.

(** ** [Sort], [Sorted], [SortFunc], [SortedFunc], [SortStableFunc]
    (sort.go, lines 18-66)

    The three routines these functions call, [pdqsortOrdered],
    [pdqsortLessFunc] and [stableLessFunc], are not in the repository's
    files; the functions are embedded over any such routines, which take
    the elements of the slice and return them rearranged. *)
Section SortOrdered.
Context {E : Type}.
Variable pdqsortOrdered : list E -> Z -> Z -> Z -> counted (list E).

Definition Sort (x : slice) (st : gmap loc (list E)) : counted (gmap loc (list E)) :=
  let n := len (contents st x) in
  data ← pdqsortOrdered (contents st x) 0 n (bits_Len (to_uint n));
  mret (assign st x data).

Definition Sorted (x : slice) (st : gmap loc (list E))
  : counted (slice * gmap loc (list E)) :=
  let '(y, st1) := Clone x st in
  st2 ← Sort y st1;
  mret (y, st2).

End SortOrdered.

Section SortLess.
Context {E : Type}.
Variable pdqsortLessFunc : list E -> Z -> Z -> Z -> (E -> E -> bool) -> counted (list E).
Variable stableLessFunc : list E -> Z -> (E -> E -> bool) -> list E.

Definition SortFunc (less : E -> E -> bool) (x : slice) (st : gmap loc (list E))
  : counted (gmap loc (list E)) :=
  let n := len (contents st x) in
  data ← pdqsortLessFunc (contents st x) 0 n (bits_Len (to_uint n)) less;
  mret (assign st x data).

Definition SortedFunc (less : E -> E -> bool) (x : slice) (st : gmap loc (list E))
  : counted (slice * gmap loc (list E)) :=
  let '(y, st1) := Clone x st in
  st2 ← SortFunc less y st1;
  mret (y, st2).

Definition SortStableFunc (less : E -> E -> bool) (x : slice) (st : gmap loc (list E))
  : gmap loc (list E) :=
  assign st x (stableLessFunc (contents st x) (len (contents st x)) less).

End SortLess.

(** [sortedHint]  (sort.go, lines 154-160) *)
Inductive sortedHint : Type :=
| unknownHint
| increasingHint
| decreasingHint.

(** ** The sorting routines, from the specification

    [pdqsortOrdered], [pdqsortLessFunc] and [stableLessFunc] are modelled
    on sequences: a sub-range is the list of its elements, and an
    in-place rearrangement is the rearranged list. *)
Module Model.

Local Open Scope nat_scope.

Section Routines.
Context {E : Type} (less : E -> E -> bool).

(** Modelled from the spec: the bisection of section 4.2 ("start i=0,
    j=n; while i<j: h=(i+j)/2; if !predicate(h): i=h+1 else j=h; return
    i"), which the insertion sort and the merge of the missing routines
    use to find a position.  [fuel] bounds the iterations. *)
Fixpoint bisect (fuel : nat) (f : nat -> counted bool) (i j : nat) : counted nat :=
  match fuel with
  | O => mret i
  | S fuel' =>
      if i <? j then
        let h := (i + j) / 2 in
        b ← f h;
        if (b : bool) then bisect fuel' f i h else bisect fuel' f (S h) j
      else mret i
  end.

(** The predicate "[x] is less than the element at [i]". *)
Definition less_than_at (x : E) (s : list E) (i : nat) : counted bool :=
  match s !! i with
  | Some y => call less x y
  | None => mret true
  end.

(** The predicate "the element at [i] is not less than [x]". *)
Definition not_less_at (x : E) (s : list E) (i : nat) : counted bool :=
  match s !! i with
  | Some y => b ← call less y x; mret (negb b)
  | None => mret true
  end.

(** Modelled from the spec: the small-range fallback of section 4.4,
    binary insertion sort ("insert each element into the already-sorted
    prefix using binary search for position, then shift").  The position
    is behind the elements that are not greater, which keeps equivalent
    elements in their order. *)
Definition insert_at (i : nat) (x : E) (s : list E) : list E :=
  take i s ++ x :: drop i s.

Fixpoint insertionSort_from (prefix rest : list E) : counted (list E) :=
  match rest with
  | [] => mret prefix
  | x :: rest' =>
      i ← bisect (length prefix) (less_than_at x prefix) 0 (length prefix);
      insertionSort_from (insert_at i x prefix) rest'
  end.

Definition insertionSort (s : list E) : counted (list E) :=
  insertionSort_from [] s.

(** Modelled from the spec: the heapsort fallback of section 4.4
    ("heapify the sub-range and repeatedly extract-max").  The
    specification fixes no layout for the heap; it is kept as a leftist
    tree, whose right spine is logarithmic. *)
Inductive heap : Type :=
| Leaf
| Node (rk : nat) (l : heap) (x : E) (r : heap).

Definition rank (h : heap) : nat :=
  match h with Leaf => 0 | Node rk _ _ _ => rk end.

Definition make (l : heap) (x : E) (r : heap) : heap :=
  if rank r <=? rank l then Node (S (rank r)) l x r else Node (S (rank l)) r x l.

(** Merging two max-heaps: the greater root stays on top. *)
Fixpoint merge (a : heap) : heap -> counted heap :=
  fix merge_a (b : heap) : counted heap :=
    match a, b with
    | Leaf, _ => mret b
    | _, Leaf => mret a
    | Node _ l1 x1 r1, Node _ l2 x2 r2 =>
        c ← call less x1 x2;
        if (c : bool) then m ← merge_a r2; mret (make l2 x2 m)
        else m ← merge r1 b; mret (make l1 x1 m)
    end.

Fixpoint heapify (s : list E) : counted heap :=
  match s with
  | [] => mret Leaf
  | x :: s' => h ← heapify s'; merge (Node 1 Leaf x Leaf) h
  end.

(** Extracting the maximum [fuel] times, each in front of the ones
    extracted before. *)
Fixpoint drain (fuel : nat) (h : heap) (acc : list E) : counted (list E) :=
  match fuel, h with
  | S fuel', Node _ l x r => h' ← merge l r; drain fuel' h' (x :: acc)
  | _, _ => mret acc
  end.

Definition heapSort (s : list E) : counted (list E) :=
  h ← heapify s;
  drain (length s) h [].

(** Modelled from the spec: the scan of sections 4.3 and 4.5 (rule 3)
    that detects a range that is already in order or in reverse order.
    The hint is [increasingHint] when no element is less than its
    predecessor anywhere in the range, [decreasingHint] when every
    element is less than its predecessor, [unknownHint] otherwise. *)
Fixpoint run_increasing (x : E) (s : list E) : counted bool :=
  match s with
  | [] => mret true
  | y :: s' => c ← call less y x; if (c : bool) then mret false else run_increasing y s'
  end.

Fixpoint run_decreasing (x : E) (s : list E) : counted bool :=
  match s with
  | [] => mret true
  | y :: s' => c ← call less y x; if (c : bool) then run_decreasing y s' else mret false
  end.

Definition scanHint (s : list E) : counted sortedHint :=
  match s with
  | x :: y :: s' =>
      c ← call less y x;
      if (c : bool) then
        d ← run_decreasing y s';
        mret (if (d : bool) then decreasingHint else unknownHint)
      else
        i ← run_increasing y s';
        mret (if (i : bool) then increasingHint else unknownHint)
  | _ => mret increasingHint
  end.

(** Modelled from the spec: the pivot selection of section 4.3.  The
    median of three positions costs at most three comparisons; the pivot
    is the median of the medians of (start, middle, end) and of the
    triples around the two quarter points (the "ninther"). *)
Definition less_at (s : list E) (i j : nat) : counted bool :=
  match s !! i, s !! j with
  | Some x, Some y => call less x y
  | _, _ => mret false
  end.

Definition median3 (s : list E) (a b c : nat) : counted nat :=
  ba ← less_at s b a;
  let '(a, b) := if (ba : bool) then (b, a) else (a, b) in
  cb ← less_at s c b;
  if (cb : bool) then
    ca ← less_at s c a;
    mret (if (ca : bool) then a else c)
  else mret b.

Definition choosePivot (s : list E) : counted nat :=
  let n := length s in
  m1 ← median3 s 0 (n / 2) (n - 1);
  m2 ← median3 s (n / 4 - 1) (n / 4) (n / 4 + 1);
  m3 ← median3 s (3 * n / 4 - 1) (3 * n / 4) (3 * n / 4 + 1);
  median3 s m2 m1 m3.

(** Modelled from the spec: the two-way partition of section 4.4 ("a
    boundary such that everything left of it is <= pivot and everything
    right is > pivot; tracks whether any swap occurred").  The scan keeps
    the elements of either side in their order; an element has to be
    swapped when a greater one came before it ([seen]). *)
Fixpoint partition (p : E) (s : list E) (seen : bool)
  : counted (list E * list E * bool) :=
  match s with
  | [] => mret ([], [], false)
  | x :: s' =>
      c ← call less p x;
      '(le, gt, swapped) ← partition p s' (seen || c);
      mret (if (c : bool) then (le, x :: gt, swapped)
            else (x :: le, gt, swapped || seen))
  end.

(** Modelled from the spec: the three-way partition of section 4.4
    ("produces <pivot | =pivot | >pivot in one pass"). *)
Fixpoint partition3 (p : E) (s : list E) : counted (list E * list E * list E) :=
  match s with
  | [] => mret ([], [], [])
  | x :: s' =>
      '(lt, eq, gt) ← partition3 p s';
      c1 ← call less x p;
      if (c1 : bool) then mret (x :: lt, eq, gt)
      else
        c2 ← call less p x;
        mret (if (c2 : bool) then (lt, eq, x :: gt) else (lt, x :: eq, gt))
  end.

(** The small-range threshold ("e.g. 12") and the fraction of the range
    below which the smaller side makes a partition unbalanced ("e.g.
    1/8"). *)
Definition small_range : nat := 12.
Definition unbalanced_fraction : nat := 8.

(** Modelled from the spec: the state machine of section 4.5, on the
    elements [s] of the current sub-range with the badness budget
    [limit].
    1. a range of at most [small_range] elements is insertion-sorted;
    2. with no budget left the range is heap-sorted;
    3. a range found in order is returned, one found in reverse order is
       reversed;
    4. otherwise the pivot is chosen and the range partitioned; a
       partition whose smaller side is below the fraction costs one unit
       of budget and is redone three-way, and one that is balanced and
       needed no swap returns early when the range is then found in
       order;
    5. both sides are sorted in turn (smaller side first in the source's
       discipline, which changes neither the result nor the count).
    Each recursive call is on a range without the pivot, so [fuel], the
    length of the range, is never used up. *)
Fixpoint pdqsort (fuel : nat) (s : list E) (limit : nat) : counted (list E) :=
  match fuel with
  | O => mret s
  | S fuel' =>
      if length s <=? small_range then insertionSort s
      else if limit =? 0 then heapSort s
      else
        hint ← scanHint s;
        match hint with
        | increasingHint => mret s
        | decreasingHint => mret (rev s)
        | unknownHint =>
            i ← choosePivot s;
            match s !! i with
            | None => heapSort s
            | Some p =>
                let rest := take i s ++ drop (S i) s in
                '(le, gt, swapped) ← partition p rest false;
                if length s / unbalanced_fraction <=? Nat.min (length le) (length gt)
                then
                  again ← (if (swapped : bool) then mret unknownHint
                           else scanHint (le ++ p :: gt));
                  match again with
                  | increasingHint => mret (le ++ p :: gt)
                  | _ =>
                      a ← pdqsort fuel' le limit;
                      b ← pdqsort fuel' gt limit;
                      mret (a ++ p :: b)
                  end
                else
                  '(lt, eq, gt3) ← partition3 p rest;
                  a ← pdqsort fuel' lt (limit - 1);
                  b ← pdqsort fuel' gt3 (limit - 1);
                  mret (a ++ eq ++ p :: b)
            end
        end
  end.

(** Modelled from the spec: the stable sorter of section 4.6
    ("binary-insertion-sort for small runs, merged bottom-up using a
    rotation merge so that equal elements from the left run are emitted
    before equal elements from the right run").  [symMerge a b] takes the
    middle element of [a], finds by bisection how many elements of [b]
    are less than it, and merges what lies before and what lies after
    it; in place this is a rotation of the block between the two
    positions. *)
Fixpoint symMerge (fuel : nat) (a b : list E) : list E :=
  match fuel with
  | O => a ++ b
  | S fuel' =>
      let h := length a / 2 in
      match a !! h with
      | None => a ++ b
      | Some p =>
          let j := value (bisect (length b) (not_less_at p b) 0 (length b)) in
          symMerge fuel' (take h a) (take j b)
            ++ p :: symMerge fuel' (drop (S h) a) (drop j b)
      end
  end.

(** The length of the runs that are insertion-sorted. *)
Definition block_size : nat := 12.

Fixpoint sorted_blocks (fuel : nat) (s : list E) : list (list E) :=
  match fuel, s with
  | S fuel', _ :: _ =>
      value (insertionSort (take block_size s))
        :: sorted_blocks fuel' (drop block_size s)
  | _, _ => []
  end.

(** One bottom-up pass: adjacent runs are merged pairwise. *)
Fixpoint merge_pairs (runs : list (list E)) : list (list E) :=
  match runs with
  | a :: b :: runs' => symMerge (length a) a b :: merge_pairs runs'
  | _ => runs
  end.

Fixpoint merge_passes (fuel : nat) (runs : list (list E)) : list E :=
  match fuel, runs with
  | _, [] => []
  | _, [a] => a
  | O, _ => concat runs
  | S fuel', _ => merge_passes fuel' (merge_pairs runs)
  end.

Definition stable (s : list E) : list E :=
  let runs := sorted_blocks (length s) s in
  merge_passes (length runs) runs.

End Routines.

(** The calls of sort.go: [pdqsortLessFunc(x, a, b, limit, less)] sorts
    [x[a:b]], [stableLessFunc(x, n, less)] sorts [x[0:n]], and
    [pdqsortOrdered] is [pdqsortLessFunc] with [<]. *)
Definition pdqsortLessFunc {E : Type} (data : list E) (a b limit : Z)
  (less : E -> E -> bool) : counted (list E) :=
  let lo := Z.to_nat a in
  let hi := Z.to_nat b in
  let range := take (hi - lo) (drop lo data) in
  sorted ← pdqsort less (length range) range (Z.to_nat limit);
  mret (take lo data ++ sorted ++ drop hi data).

Definition pdqsortOrdered {E : Type} `{Ordered E} (data : list E) (a b limit : Z)
  : counted (list E) :=
  pdqsortLessFunc data a b limit lss.

Definition stableLessFunc {E : Type} (data : list E) (n : Z) (less : E -> E -> bool)
  : list E :=
  stable less (take (Z.to_nat n) data) ++ drop (Z.to_nat n) data.

End Model.

(** ** Vocabulary of the model's properties *)

(** The elements of a heap. *)
Fixpoint heap_elems {E : Type} (h : @Model.heap E) : list E :=
  match h with
  | Model.Leaf => []
  | Model.Node _ l x r => x :: heap_elems l ++ heap_elems r
  end.

(** No element of a heap is greater than the one above it. *)
Fixpoint is_heap {E : Type} (less : E -> E -> bool) (h : @Model.heap E) : Prop :=
  match h with
  | Model.Leaf => True
  | Model.Node _ l x r =>
      Forall (fun y => less x y = false) (heap_elems l ++ heap_elems r) /\
      is_heap less l /\ is_heap less r
  end.

(** The ranks are those of a leftist tree: the right spine is the
    shortest path to a leaf. *)
Fixpoint leftist {E : Type} (h : @Model.heap E) : Prop :=
  match h with
  | Model.Leaf => True
  | Model.Node rk l _ r =>
      rk = S (Model.rank r) /\ (Model.rank r <= Model.rank l)%nat /\
      leftist l /\ leftist r
  end.

(** Every element is less than its predecessor, checked from the
    front. *)
Fixpoint descending_check {E : Type} (less : E -> E -> bool) (s : list E) : bool :=
  match s with
  | a :: (b :: _) as s' => less b a && descending_check less s'
  | _ => true
  end.

(** The elements of [s] that are equivalent to [e], in their order. *)
Definition class_of {E : Type} (less : E -> E -> bool) (e : E) (s : list E) : list E :=
  List.filter (equiv less e) s.


(** * The rest of sort.go *)

(** ** [nextPowerOfTwo]  (sort.go, lines 172-174)

    [1 << bits.Len(uint(length))] in [uint]: the shift drops the bits
    from the 64th on. *)
Definition nextPowerOfTwo (length : Z) : Z :=
  to_uint (Z.shiftl 1 (bits_Len (to_uint length))).

(** ** [xorshift.Next]  (sort.go, lines 163-170)

    The three updates of the [uint64] state [*r]; the result is the new
    state, returned together with it. *)
Definition xorshift_Next (r : Z) : Z * Z :=
  let r1 := Z.lxor r (to_uint (Z.shiftl r 13)) in
  let r2 := Z.lxor r1 (Z.shiftr r1 17) in
  let r3 := Z.lxor r2 (to_uint (Z.shiftl r2 5)) in
  (r3, r3).

(** The state after [n] calls of [Next]. *)
Fixpoint xorshift_iter (n : nat) (r : Z) : Z :=
  match n with
  | O => r
  | S n' => xorshift_iter n' (fst (xorshift_Next r))
  end.

(** * slices.go

    The text of slices.go is the part of slices/README.md from its line
    886 on, and the line numbers below are those of that file.  The
    functions of this part return new slices or plain values; a slice
    argument is the sequence of its elements.  [Panicked] is a run-time
    panic (an index or a slice bound out of range, a division by zero, a
    negative length given to [make]). *)

(** The constraint [comparable]: types with [==], and [!=] its
    negation. *)
Class Comparable (E : Type) : Type := { same : E -> E -> bool }.

#[export] Instance Ordered_Comparable {E : Type} `{Ordered E} : Comparable E :=
  {| same := eql |}.

(** [==] decides equality, as it does on integers and strings, and as
    it does not on floating-point numbers. *)
Class ComparableLaws (E : Type) `{Comparable E} : Prop := {
  same_eq : forall a b : E, same a b = true <-> a = b
}.

(** ** [Equal], [EqualFunc]  (lines 907-935) *)

(** The loop [for i := range s1] from index [i], with [todo] indices
    to go. *)
Fixpoint EqualFunc_loop {E1 E2 : Type} (eq : E1 -> E2 -> bool)
  (s1 : list E1) (s2 : list E2) (i : Z) (todo : nat) : outcome bool :=
  match todo with
  | O => Returned true
  | S todo' =>
      match index s1 i, index s2 i with
      | Some v1, Some v2 =>
          if negb (eq v1 v2) then Returned false
          else EqualFunc_loop eq s1 s2 (i + 1) todo'
      | _, _ => Panicked
      end
  end.

Definition EqualFunc {E1 E2 : Type} (eq : E1 -> E2 -> bool)
  (s1 : list E1) (s2 : list E2) : outcome bool :=
  if negb (len s1 =? len s2) then Returned false
  else EqualFunc_loop eq s1 s2 0 (length s1).

(** [Equal] is the same loop with [s1[i] != s2[i]]. *)
Definition Equal {E : Type} `{Comparable E} (s1 s2 : list E) : outcome bool :=
  if negb (len s1 =? len s2) then Returned false
  else EqualFunc_loop same s1 s2 0 (length s1).

(** ** [Compare], [CompareFunc]  (lines 945-987) *)

(** The loop [for i, v1 := range s1]: [rest] holds the elements of [s1]
    from index [i] on. *)
Fixpoint CompareFunc_loop {E1 E2 : Type} (cmp : E1 -> E2 -> Z)
  (rest : list E1) (i : Z) (s2 : list E2) (n1 : Z) : outcome Z :=
  match rest with
  | [] => Returned (if n1 <? len s2 then -1 else 0)
  | v1 :: rest' =>
      if len s2 <=? i then Returned 1
      else
        match index s2 i with
        | None => Panicked
        | Some v2 =>
            let c := cmp v1 v2 in
            if negb (c =? 0) then Returned c
            else CompareFunc_loop cmp rest' (i + 1) s2 n1
        end
  end.

Definition CompareFunc {E1 E2 : Type} (cmp : E1 -> E2 -> Z)
  (s1 : list E1) (s2 : list E2) : outcome Z :=
  CompareFunc_loop cmp s1 0 s2 (len s1).

Fixpoint Compare_loop {E : Type} `{Ordered E}
  (rest : list E) (i : Z) (s2 : list E) (n1 : Z) : outcome Z :=
  match rest with
  | [] => Returned (if n1 <? len s2 then -1 else 0)
  | v1 :: rest' =>
      if len s2 <=? i then Returned 1
      else
        match index s2 i with
        | None => Panicked
        | Some v2 =>
            if lss v1 v2 then Returned (-1)
            else if gtr v1 v2 then Returned 1
            else Compare_loop rest' (i + 1) s2 n1
        end
  end.

Definition Compare {E : Type} `{Ordered E} (s1 s2 : list E) : outcome Z :=
  Compare_loop s1 0 s2 (len s1).

(** ** [IndexPred], [ContainsPred]  (lines 1003-1025) *)

Fixpoint IndexPred_loop {E : Type} (eq : E -> bool) (rest : list E) (i : Z) : Z :=
  match rest with
  | [] => -1
  | v :: rest' => if eq v then i else IndexPred_loop eq rest' (i + 1)
  end.

Definition IndexPred {E : Type} (eq : E -> bool) (s : list E) : Z :=
  IndexPred_loop eq s 0.

Definition ContainsPred {E : Type} (pred : E -> bool) (s : list E) : bool :=
  0 <=? IndexPred pred s.

(** ** [Cast], [Filter], [FilterFunc], [Chain]  (lines 1177-1201, 1345-1350) *)

(** [make] and the assignment of every index build the slice element
    by element. *)
Definition Cast {E V : Type} (f : E -> V) (s : list E) : list V :=
  map f s.

(** [for _, e := range args { out = append(out, e) }] *)
Definition Filter (args : list bool) : list bool :=
  fold_left (fun out e => out ++ [e]) args [].

Definition FilterFunc {E : Type} (f : E -> bool) (args : list E) : list E :=
  fold_left (fun out e => if f e then out ++ [e] else out) args [].

Definition Chain {E : Type} (args : list (list E)) : list E :=
  fold_left (fun out arg => out ++ arg) args [].

(** ** [All], [AllFunc], [AnyFunc]  (lines 1464-1496) *)

Fixpoint All (args : list bool) : bool :=
  match args with
  | [] => false
  | [a] => a
  | a :: rest => a && All rest
  end.

Definition AllFunc {E : Type} (pred : E -> bool) (slice : list E) : bool :=
  All (Cast pred slice).

Fixpoint AnyFunc {E : Type} (pred : E -> bool) (slice : list E) : bool :=
  match slice with
  | [] => false
  | e :: rest => if pred e then true else AnyFunc pred rest
  end.

(** ** [Max], [Min], [Extremal], [Shortest], [Longest]
    (lines 1142-1172, 1499-1529) *)

(** The loop the five functions share,
    [for i, arg := range args { if operator(arg, args[out]) { out = i } }],
    with [rest] the elements from index [i] on. *)
Fixpoint extremal_loop {E : Type} (operator : E -> E -> bool)
  (args rest : list E) (i out : Z) : outcome Z :=
  match rest with
  | [] => Returned out
  | arg :: rest' =>
      match index args out with
      | None => Panicked
      | Some best =>
          extremal_loop operator args rest' (i + 1) (if operator arg best then i else out)
      end
  end.

Definition Extremal {E : Type} (operator : E -> E -> bool) (args : list E) : outcome Z :=
  extremal_loop operator args args 0 0.

(** [arg > args[out]] *)
Definition Max {E : Type} `{Ordered E} (args : list E) : outcome Z :=
  extremal_loop gtr args args 0 0.

(** [arg < args[out]] *)
Definition Min {E : Type} `{Ordered E} (args : list E) : outcome Z :=
  extremal_loop lss args args 0 0.

(** [len(arg) < len(args[out])], after the [switch] on [len(args)]. *)
Definition Shortest {E : Type} (args : list (list E)) : outcome Z :=
  match args with
  | [] => Returned (-1)
  | [_] => Returned 0
  | _ => extremal_loop (fun arg best => len arg <? len best) args args 0 0
  end.

Definition Longest {E : Type} (args : list (list E)) : outcome Z :=
  match args with
  | [] => Returned (-1)
  | [_] => Returned 0
  | _ => extremal_loop (fun arg best => len best <? len arg) args args 0 0
  end.

(** ** [Zip]  (lines 1241-1258) *)

(** The row [i]: [out[i][j] = arg[i]] for every [arg] of [args]. *)
Fixpoint Zip_row {K : Type} (args : list (list K)) (i : Z) : outcome (list K) :=
  match args with
  | [] => Returned []
  | arg :: args' =>
      match index arg i with
      | None => Panicked
      | Some x =>
          match Zip_row args' i with
          | Returned row => Returned (x :: row)
          | o => o
          end
      end
  end.

(** The rows [i, i+1, ...], [todo] of them. *)
Fixpoint Zip_rows {K : Type} (args : list (list K)) (i : Z) (todo : nat)
  : outcome (list (list K)) :=
  match todo with
  | O => Returned []
  | S todo' =>
      match Zip_row args i with
      | Returned row =>
          match Zip_rows args (i + 1) todo' with
          | Returned rows => Returned (row :: rows)
          | o => o
          end
      | Panicked => Panicked
      | OutOfFuel => OutOfFuel
      end
  end.

Definition Zip {K : Type} (args : list (list K)) : outcome (list (list K)) :=
  match Shortest args with
  | Returned min =>
      match index args min with
      | None => Panicked
      | Some shortest =>
          let l := length shortest in
          if -1 <? min then Zip_rows args 0 l
          else Returned (replicate l [])
      end
  | Panicked => Panicked
  | OutOfFuel => OutOfFuel
  end.

(** ** [SplitPred], [SplitAfterPred], [Snap]  (lines 1547-1610) *)

(** [out[len(out)-1] = append(out[len(out)-1], e)] *)
Definition append_to_last {E : Type} (out : list (list E)) (e : E) : outcome (list (list E)) :=
  match out !! (length out - 1)%nat with
  | None => Panicked
  | Some piece => Returned (<[(length out - 1)%nat := piece ++ [e]]> out)
  end.

Fixpoint SplitPred_loop {E : Type} (pred : E -> bool) (rest : list E)
  (out : list (list E)) : outcome (list (list E)) :=
  match rest with
  | [] => Returned out
  | e :: rest' =>
      if pred e then SplitPred_loop pred rest' (out ++ [[]])
      else
        match append_to_last out e with
        | Returned out' => SplitPred_loop pred rest' out'
        | o => o
        end
  end.

(** [out := make([][]E, 1)] is one empty piece. *)
Definition SplitPred {E : Type} (pred : E -> bool) (slice : list E)
  : outcome (list (list E)) :=
  SplitPred_loop pred slice [[]].

Fixpoint SplitAfterPred_loop {E : Type} (function : E -> bool) (rest : list E)
  (out : list (list E)) : outcome (list (list E)) :=
  match rest with
  | [] => Returned out
  | e :: rest' =>
      match append_to_last out e with
      | Returned out' =>
          SplitAfterPred_loop function rest' (if function e then out' ++ [[]] else out')
      | o => o
      end
  end.

Definition SplitAfterPred {E : Type} (function : E -> bool) (slice : list E)
  : outcome (list (list E)) :=
  SplitAfterPred_loop function slice [[]].

(** [Snap] at the type [int]; [%] is Go's remainder, which truncates. *)
Fixpoint Snap_loop {E : Type} (width : Z) (rest : list E) (i : Z)
  (out : list (list E)) : outcome (list (list E)) :=
  match rest with
  | [] => Returned out
  | e :: rest' =>
      let out1 := if Z.rem i width =? 0 then out ++ [[]] else out in
      match append_to_last out1 e with
      | Returned out' => Snap_loop width rest' (i + 1) out'
      | o => o
      end
  end.

Definition Snap {E : Type} (width : Z) (arg : list E) : outcome (list (list E)) :=
  if width =? 0 then Returned [take 0 arg; drop 0 arg]
  else Snap_loop width arg 0 [].

(** ** [Upto], [Upton], [Uptonm]  (lines 1387-1416)

    At the type [int] for [O] and [I], where the conversions [O(start)],
    [O(stop)] and [O(step)] change nothing.  The loops have no bound of
    their own; [fuel] bounds the iterations of the model. *)

(** [for i := start; i < stop; i += step { out = append(out, i) }] *)
Fixpoint Upto_up (fuel : nat) (i stop step : Z) (out : list Z) : outcome (list Z) :=
  if i <? stop then
    match fuel with
    | O => OutOfFuel
    | S fuel' => Upto_up fuel' (to_int (i + step)) stop step (out ++ [i])
    end
  else Returned out.

(** [for i := start; i > stop; i += step { out = append(out, i) }] *)
Fixpoint Upto_down (fuel : nat) (i stop step : Z) (out : list Z) : outcome (list Z) :=
  if stop <? i then
    match fuel with
    | O => OutOfFuel
    | S fuel' => Upto_down fuel' (to_int (i + step)) stop step (out ++ [i])
    end
  else Returned out.

Definition Upto (fuel : nat) (start stop step : Z) : outcome (list Z) :=
  if (stop <? start) && (0 <=? step) then Panicked
  else if start <=? stop then Upto_up fuel start stop step []
  else Upto_down fuel start stop step [].

Definition Upton (fuel : nat) (stop : Z) : outcome (list Z) := Upto fuel 0 stop 1.

Definition Uptonm (fuel : nat) (start stop : Z) : outcome (list Z) :=
  Upto fuel start stop 1.

(** ** [Select], [SelectStrict]  (lines 1704-1721) *)

(** [out[i] = slice[e%len(slice)]] for every index [e]; [%] panics on a
    zero divisor and truncates. *)
Fixpoint Select {E : Type} (slice : list E) (indices : list Z) : outcome (list E) :=
  match indices with
  | [] => Returned []
  | e :: rest =>
      if len slice =? 0 then Panicked
      else
        match index slice (Z.rem e (len slice)) with
        | None => Panicked
        | Some x =>
            match Select slice rest with
            | Returned out => Returned (x :: out)
            | o => o
            end
        end
  end.

(** [for _, e := range indices { out = append(out, slice[e]) }] *)
Fixpoint SelectStrict_loop {E : Type} (slice : list E) (indices : list Z)
  (out : list E) : outcome (list E) :=
  match indices with
  | [] => Returned out
  | e :: rest =>
      match index slice e with
      | None => Panicked
      | Some x => SelectStrict_loop slice rest (out ++ [x])
      end
  end.

(** [out := make([]E, len(indices))] holds [len(indices)] times the zero
    value of [E] before the appends. *)
Definition SelectStrict {E : Type} (zero : E) (slice : list E) (indices : list Z)
  : outcome (list E) :=
  SelectStrict_loop slice indices (replicate (length indices) zero).

(** ** [Skip]  (lines 2079-2092), at the type [int] *)

Fixpoint Skip_loop {T : Type} (index : Z) (rest : list T) (i : Z) (out : list T)
  : list T :=
  match rest with
  | [] => out
  | e :: rest' =>
      Skip_loop index rest' (i + 1) (if negb (i =? index) then out ++ [e] else out)
  end.

(** [uint64(index) > uint64(len(arg)-1)] returns the named result [out],
    which is still [nil]: [copy(arg, out)] copies nothing. *)
Definition Skip {T : Type} (index : Z) (arg : list T) : list T :=
  if to_uint (len arg - 1) <? to_uint index then []
  else Skip_loop index arg 0 [].

(** ** [Rotated]  (lines 1844-1853), at the type [int]

    The elements of the slice [append] returns. *)
Definition Rotated {T : Type} (slice : list T) (steps : Z) : list T :=
  if len slice =? 0 then []
  else
    let steps1 := Z.rem steps (len slice) in
    let steps2 := if steps1 <? 0 then to_int (steps1 + len slice) else steps1 in
    drop (Z.to_nat steps2) slice ++ take (Z.to_nat steps2) slice.

(** ** [Remove]  (lines 2332-2337), at the type [int]

    With [t] the slice that [s] points to, [t[:i]] needs
    [0 <= i <= cap(t)] and [t[i+1:]] needs [i+1 <= len(t)]; the second
    bound implies the upper half of the first.  The loop ends when
    [len(indices) > 0] fails, and nothing in it changes [indices]. *)
Fixpoint Remove_loop {T : Type} (fuel : nat) (s : list T) (indices : list Z) (ctr : Z)
  : outcome (list T) :=
  if 0 <? len indices then
    match fuel with
    | O => OutOfFuel
    | S fuel' =>
        match index indices 0 with
        | None => Panicked
        | Some first =>
            let i := to_int (first + ctr) in
            if (0 <=? i) && (i + 1 <=? len s)
            then Remove_loop fuel' (take (Z.to_nat i) s ++ drop (Z.to_nat (i + 1)) s)
                             indices (to_int (ctr - 1))
            else Panicked
        end
    end
  else Returned s.

(** The elements of the slice that [s] points to when [Remove] returns. *)
Definition Remove {T : Type} (fuel : nat) (s : list T) (indices : list Z)
  : outcome (list T) :=
  Remove_loop fuel s indices 0.

(** ** [Movers], [MoversFunc], [Standers], [StandersFunc]  (lines 1642-1679) *)

(** [s[1:]] *)
Definition from_1 {E : Type} (s : list E) : option (list E) :=
  if 1 <=? len s then Some (drop 1 s) else None.

(** [for i, e := range s[1:] { if test(e, s[i-1]) { out = append(out, i) } }] *)
Fixpoint Movers_loop {E : Type} (test : E -> E -> bool) (s rest : list E) (i : Z)
  (out : list Z) : outcome (list Z) :=
  match rest with
  | [] => Returned out
  | e :: rest' =>
      match index s (i - 1) with
      | None => Panicked
      | Some prev => Movers_loop test s rest' (i + 1) (if test e prev then out ++ [i] else out)
      end
  end.

(** The same loop with [out = append(out, e)]. *)
Fixpoint Standers_loop {E : Type} (test : E -> E -> bool) (s rest : list E) (i : Z)
  (out : list E) : outcome (list E) :=
  match rest with
  | [] => Returned out
  | e :: rest' =>
      match index s (i - 1) with
      | None => Panicked
      | Some prev => Standers_loop test s rest' (i + 1) (if test e prev then out ++ [e] else out)
      end
  end.

Definition Movers {E : Type} `{Comparable E} (s : list E) : outcome (list Z) :=
  match from_1 s with
  | None => Panicked
  | Some rest => Movers_loop (fun e prev => negb (same e prev)) s rest 0 []
  end.

Definition MoversFunc {E : Type} (eq : E -> E -> bool) (s : list E) : outcome (list Z) :=
  match from_1 s with
  | None => Panicked
  | Some rest => Movers_loop eq s rest 0 []
  end.

Definition Standers {E : Type} `{Comparable E} (s : list E) : outcome (list E) :=
  match from_1 s with
  | None => Panicked
  | Some rest => Standers_loop same s rest 0 []
  end.

Definition StandersFunc {E : Type} (eq : E -> E -> bool) (s : list E) : outcome (list E) :=
  match from_1 s with
  | None => Panicked
  | Some rest => Standers_loop eq s rest 0 []
  end.

(** * slices.go: functions that write to their argument

    These work on the window of the slice in its backing array: the
    loops below run on the elements of the window, and [assign] writes
    the result back to the store. *)

(** ** [Reverse], [Reversed]  (lines 1419-1443) *)

(** [for i, j := 0, len(slice)-1; j > 0; i, j = i+1, j-1 {
       slice[i], slice[j] = slice[j], slice[i] }] *)
Fixpoint Reverse_loop {E : Type} (fuel : nat) (w : list E) (i j : Z) : outcome (list E) :=
  if 0 <? j then
    match fuel with
    | O => OutOfFuel
    | S fuel' =>
        match index w j, index w i with
        | Some b, Some a =>
            Reverse_loop fuel' (<[Z.to_nat j := a]> (<[Z.to_nat i := b]> w)) (i + 1) (j - 1)
        | _, _ => Panicked
        end
    end
  else Returned w.

(** The elements of the slice after [Reverse]. *)
Definition Reverse_elements {E : Type} (w : list E) : outcome (list E) :=
  if 1 <? len w then Reverse_loop (length w) w 0 (len w - 1) else Returned w.

Definition Reverse {E : Type} (s : slice) (st : gmap loc (list E))
  : outcome (gmap loc (list E)) :=
  match Reverse_elements (contents st s) with
  | Returned w => Returned (assign st s w)
  | Panicked => Panicked
  | OutOfFuel => OutOfFuel
  end.

(** [out := Clone(slice); Reverse(out); return out] *)
Definition Reversed {E : Type} (s : slice) (st : gmap loc (list E))
  : outcome (slice * gmap loc (list E)) :=
  let '(out, st1) := Clone s st in
  match Reverse out st1 with
  | Returned st2 => Returned (out, st2)
  | Panicked => Panicked
  | OutOfFuel => OutOfFuel
  end.

(** ** [Swap], [Swapped]  (lines 1446-1456) *)

(** [w[i], w[j] = v[j], v[i]]: both elements are read before either is
    written. *)
Definition exchange {E : Type} (w v : list E) (i j : Z) : outcome (list E) :=
  match index v j, index v i with
  | Some b, Some a =>
      if (0 <=? i) && (i <? len w) && (0 <=? j) && (j <? len w)
      then Returned (<[Z.to_nat j := a]> (<[Z.to_nat i := b]> w))
      else Panicked
  | _, _ => Panicked
  end.

Definition Swap {E : Type} (s : slice) (i j : Z) (st : gmap loc (list E))
  : outcome (slice * gmap loc (list E)) :=
  match exchange (contents st s) (contents st s) i j with
  | Returned w => Returned (s, assign st s w)
  | Panicked => Panicked
  | OutOfFuel => OutOfFuel
  end.

(** [out := append([]E{}, slice...)] is a new array with the elements
    of [slice]; the elements written to it are read from [slice]. *)
Definition Swapped {E : Type} (s : slice) (i j : Z) (st : gmap loc (list E))
  : outcome (slice * gmap loc (list E)) :=
  let base := fresh (dom st) in
  let out := Slice base 0 (length (contents st s)) in
  let st1 := <[base := contents st s]> st in
  match exchange (contents st1 out) (contents st1 s) i j with
  | Returned w => Returned (out, assign st1 out w)
  | Panicked => Panicked
  | OutOfFuel => OutOfFuel
  end.

(** ** [Compact], [CompactFunc], [Compacted]  (lines 1087-1124) *)

(** [for _, v := range s[1:] { if !eq(v, last) { s[i] = v; i++; last = v } }]:
    the iteration reads the element [k] of the window as the writes so
    far have left it. *)
Fixpoint CompactFunc_loop {E : Type} (eq : E -> E -> bool) (w : list E)
  (k todo i : nat) (last : E) : outcome (list E * nat) :=
  match todo with
  | O => Returned (w, i)
  | S todo' =>
      match w !! k with
      | None => Panicked
      | Some v =>
          if negb (eq v last) then
            if (i <? length w)%nat
            then CompactFunc_loop eq (<[i := v]> w) (S k) todo' (S i) v
            else Panicked
          else CompactFunc_loop eq w (S k) todo' i last
      end
  end.

(** The elements of the window after the loop, and [i]. *)
Definition CompactFunc_elements {E : Type} (eq : E -> E -> bool) (w : list E)
  : outcome (list E * nat) :=
  match w with
  | [] => Returned ([], 0%nat)
  | first :: _ => CompactFunc_loop eq w 1 (length w - 1) 1 first
  end.

(** [if len(s) == 0 { return s }], and [return s[:i]] after the loop. *)
Definition CompactFunc {E : Type} (eq : E -> E -> bool) (s : slice)
  (st : gmap loc (list E)) : outcome (slice * gmap loc (list E)) :=
  if len (contents st s) =? 0 then Returned (s, st)
  else
    match s, CompactFunc_elements eq (contents st s) with
    | Slice base off _, Returned (w, i) => Returned (Slice base off i, assign st s w)
    | Nil, Returned _ => Returned (Nil, st)
    | _, Panicked => Panicked
    | _, OutOfFuel => OutOfFuel
    end.

(** [Compact] is the same with [v != last]. *)
Definition Compact {E : Type} `{Comparable E} (s : slice) (st : gmap loc (list E))
  : outcome (slice * gmap loc (list E)) :=
  CompactFunc same s st.

(** [c := Clone(s); return Compact(c)] *)
Definition Compacted {E : Type} `{Comparable E} (s : slice) (st : gmap loc (list E))
  : outcome (slice * gmap loc (list E)) :=
  let '(c, st1) := Clone s st in Compact c st1.

(** ** [Delete], [Insert]  (lines 1047-1069)

    These two reslice up to the capacity and let [append] and [copy]
    write to the backing array, so they are embedded on the array. *)

(** [cap(s)] *)
Definition cap {E : Type} (st : gmap loc (list E)) (s : slice) : nat :=
  match s with
  | Nil => 0
  | Slice base off _ =>
      match st !! base with
      | Some arr => length arr - off
      | None => 0
      end
  end.

(** The [n] elements of the array from [off] on. *)
Definition window {E : Type} (arr : list E) (off n : nat) : list E :=
  take n (drop off arr).

(** [copy] of the elements [src] to the array from [off] on, where there
    is room for them; [copy] reads all of them before it writes, so the
    source may lie in the same array. *)
Definition write {E : Type} (arr : list E) (off : nat) (src : list E) : list E :=
  take off arr ++ src ++ drop (off + length src) arr.

(** [append(s[:i], s[j:]...)]: [s[:i]] needs [0 <= i <= cap(s)] and
    [s[j:]] needs [0 <= j <= len(s)].  [append] writes behind [s[:i]]
    when the capacity allows and allocates otherwise; the new array is
    modelled without spare capacity. *)
Definition Delete {E : Type} (s : slice) (i j : Z) (st : gmap loc (list E))
  : outcome (slice * gmap loc (list E)) :=
  match s with
  | Nil => if (i =? 0) && (j =? 0) then Returned (Nil, st) else Panicked
  | Slice base off n =>
      match st !! base with
      | None => Panicked
      | Some arr =>
          if (0 <=? i) && (i <=? Z.of_nat (cap st s)) && (0 <=? j) && (j <=? Z.of_nat n)
          then
            let tail := window arr (off + Z.to_nat j) (n - Z.to_nat j) in
            let total := (Z.to_nat i + length tail)%nat in
            if (total <=? cap st s)%nat
            then Returned (Slice base off total,
                           <[base := write arr (off + Z.to_nat i) tail]> st)
            else
              let base' := fresh (dom st) in
              Returned (Slice base' 0 total,
                        <[base' := window arr off (Z.to_nat i) ++ tail]> st)
          else Panicked
      end
  end.

(** [Insert], with the elements [args] taken by value.  When the
    capacity allows: [s2 := s[:tot]], [copy(s2[i+len(args):], s[i:])],
    [copy(s2[i:], args)]; [s2[i+len(args):]] needs [i <= len(s)] and
    [s[i:]] needs [0 <= i].  Otherwise [make] gives a new array that the
    three [copy]s fill; [s[:i]] needs [0 <= i] and [s2[i+len(args):]]
    needs [i <= len(s)]. *)
Definition Insert {E : Type} (s : slice) (i : Z) (args : list E)
  (st : gmap loc (list E)) : outcome (slice * gmap loc (list E)) :=
  let n := length (contents st s) in
  let tot := (n + length args)%nat in
  if (tot <=? cap st s)%nat then
    if (0 <=? i) && (i <=? Z.of_nat n) then
      match s with
      | Nil => Returned (Nil, st)
      | Slice base off _ =>
          match st !! base with
          | None => Panicked
          | Some arr =>
              let moved := window arr (off + Z.to_nat i) (n - Z.to_nat i) in
              let arr1 := write arr (off + Z.to_nat i + length args) moved in
              let arr2 := write arr1 (off + Z.to_nat i) args in
              Returned (Slice base off tot, <[base := arr2]> st)
          end
      end
    else Panicked
  else
    if (0 <=? i) && (i <=? Z.of_nat n) then
      let base' := fresh (dom st) in
      let c := contents st s in
      Returned (Slice base' 0 tot,
                <[base' := take (Z.to_nat i) c ++ args ++ drop (Z.to_nat i) c]> st)
    else Panicked.


(** ** Vocabulary of the properties of slices.go *)

(** The comparison of two sequences element by element. *)
Fixpoint lexicographic {E} `{Ordered E} (r1 r2 : list E) : Z :=
  match r1, r2 with
  | [], [] => 0
  | [], _ :: _ => -1
  | _ :: _, [] => 1
  | a :: r1', b :: r2' =>
      if lss a b then -1 else if gtr a b then 1 else lexicographic r1' r2'
  end.

(** [m] is the first index of [s] whose element no other element
    precedes under [operator]: no element is before [s[m]], and [s[m]]
    is before every element at a smaller index. *)
Definition first_extreme {E : Type} (operator : E -> E -> bool) (s : list E) (m : Z) : Prop :=
  exists x, index s m = Some x /\
            (forall j y, index s j = Some y -> operator y x = false) /\
            (forall j y, 0 <= j < m -> index s j = Some y -> operator x y = true).

(** [out] is [pre] cut into pieces of [w] elements, the last of which
    may be shorter. *)
Definition snapped {E : Type} (w : Z) (pre : list E) (out : list (list E)) : Prop :=
  Chain out = pre /\
  (pre = [] -> out = []) /\
  (pre <> [] ->
   exists init last, out = init ++ [last] /\
                     Forall (fun piece => len piece = w) init /\
                     len last = (len pre - 1) mod w + 1).

(** The index that the element at [p] came from after [k] iterations of
    the loop of [Reverse] on [n] elements: the pair [p], [n-1-p] has
    been exchanged once for each of its members below [k]. *)
Definition flipped (n k p : nat) : nat :=
  if xorb (p <? k)%nat (n - 1 - p <? k)%nat then (n - 1 - p)%nat else p.

(** The elements of [rest] that differ from the one kept before them,
    [last] being the one kept before the first. *)
Fixpoint uniq {E : Type} (eq : E -> E -> bool) (last : E) (rest : list E) : list E :=
  match rest with
  | [] => []
  | v :: rest' =>
      if negb (eq v last) then v :: uniq eq v rest' else uniq eq last rest'
  end.

(** A sequence with every run of elements equal to the first of the run
    replaced by that first element. *)
Definition compacted {E : Type} (eq : E -> E -> bool) (w : list E) : list E :=
  match w with
  | [] => []
  | a :: rest => a :: uniq eq a rest
  end.

(** * Properties *)

(** *** Arithmetic of the midpoint *)

Lemma to_int_id z : is_int z -> to_int z = z.
Proof.
  unfold is_int, to_int. intros Hz.
  rewrite Z.mod_small by lia. lia.
Qed.

Lemma to_uint_to_int z : to_uint (to_int z) = to_uint z.
Proof.
  unfold to_uint, to_int.
  rewrite Zminus_mod_idemp_l.
  replace (z + 2 ^ 63 - 2 ^ 63) with z by lia. reflexivity.
Qed.

Lemma midpoint_spec i j :
  0 <= i -> i <= j -> j < 2 ^ 63 -> midpoint i j = (i + j) / 2.
Proof.
  intros Hi Hij Hj. unfold midpoint.
  rewrite to_uint_to_int. unfold to_uint.
  rewrite Z.mod_small by lia.
  rewrite Z.shiftr_div_pow2 by lia.
  change (2 ^ 1) with 2.
  apply to_int_id. unfold is_int.
  assert (0 <= (i + j) / 2) by (apply Z.div_pos; lia).
  assert ((i + j) / 2 < 2 ^ 63) by (apply Z.div_lt_upper_bound; lia).
  lia.
Qed.

Lemma midpoint_bounds i j :
  0 <= i -> i < j -> j < 2 ^ 63 -> i <= midpoint i j < j.
Proof.
  intros Hi Hij Hj. rewrite midpoint_spec by lia.
  split.
  - apply Z.div_le_lower_bound; lia.
  - apply Z.div_lt_upper_bound; lia.
Qed.

Lemma midpoint_halves i j :
  0 <= i -> i < j -> j < 2 ^ 63 ->
  2 * (j - (midpoint i j + 1)) <= j - i /\ 2 * (midpoint i j - i) <= j - i.
Proof.
  intros Hi Hij Hj. rewrite midpoint_spec by lia.
  pose proof (Z.div_mod (i + j) 2 ltac:(lia)) as Hd.
  pose proof (Z.mod_pos_bound (i + j) 2 ltac:(lia)) as Hm.
  lia.
Qed.

(** *** The loop of [search] *)


Lemma monotonic_upward_closed n f k : monotonic n f k -> upward_closed n f.
Proof.
  intros (Hk & Hlo & Hhi) i j Hi Hij Hj Hfi.
  apply Hhi. split; [|lia].
  destruct (Z_lt_le_dec i k) as [Hlt|Hge]; [|lia].
  rewrite Hlo in Hfi by lia. discriminate.
Qed.

Lemma least_true_unique n f r1 r2 :
  least_true n f r1 -> least_true n f r2 -> upward_closed n f -> r1 = r2.
Proof.
  intros (H1 & L1 & T1) (H2 & L2 & T2) _.
  destruct (Z.lt_trichotomy r1 r2) as [Hlt | [Heq | Hgt]]; [|assumption|].
  - rewrite L2 in T1 by lia. specialize (T1 ltac:(lia)). discriminate.
  - rewrite L1 in T2 by lia. specialize (T2 ltac:(lia)). discriminate.
Qed.

Lemma monotonic_least_true n f k : monotonic n f k -> least_true n f k.
Proof.
  intros (Hk & Hlo & Hhi). repeat split; try lia; auto.
  intros Hlt. apply Hhi. lia.
Qed.

Lemma pow2_succ (fuel : nat) : 2 ^ Z.of_nat (S fuel) = 2 * 2 ^ Z.of_nat fuel.
Proof. rewrite Nat2Z.inj_succ, Z.pow_succ_r by lia. reflexivity. Qed.

(** With a callback that answers on the whole of [i..j-1], the loop
    returns before its fuel is used up, and what it returns lies in
    [i..j]. *)
Lemma search_loop_returns fuel : forall f i j,
  0 <= i -> j < 2 ^ 63 -> j - i < 2 ^ Z.of_nat fuel ->
  (forall h, i <= h < j -> is_Some (f h)) ->
  exists r, snd (search_loop fuel f i j) = Returned r /\ (i <= j -> i <= r <= j).
Proof.
  induction fuel as [|fuel IH]; intros f i j Hi Hj Hfuel Hf; simpl.
  - destruct (Z.ltb_spec i j) as [Hlt|Hge].
    + change (2 ^ Z.of_nat 0) with 1 in Hfuel. lia.
    + exists i. split; [reflexivity | lia].
  - destruct (Z.ltb_spec i j) as [Hlt|Hge].
    2:{ exists i. split; [reflexivity | lia]. }
    pose proof (midpoint_bounds i j Hi Hlt Hj) as Hh.
    pose proof (midpoint_halves i j Hi Hlt Hj) as [Hup Hdown].
    rewrite pow2_succ in Hfuel.
    destruct (Hf (midpoint i j) Hh) as [b Hb]. rewrite Hb.
    destruct b.
    + destruct (IH f i (midpoint i j)) as (r & Hr & Hrange); try lia.
      { intros h Hh'. apply Hf. lia. }
      destruct (search_loop fuel f i (midpoint i j)) as [tr o]. simpl in *.
      exists r. split; [assumption | lia].
    + rewrite (to_int_id (midpoint i j + 1)) by (unfold is_int; lia).
      destruct (IH f (midpoint i j + 1) j) as (r & Hr & Hrange); try lia.
      { intros h Hh'. apply Hf. lia. }
      destruct (search_loop fuel f (midpoint i j + 1) j) as [tr o]. simpl in *.
      exists r. split; [assumption | lia].
Qed.

(** Whatever the callback does, it is only ever called inside [i..j-1]. *)
Lemma search_loop_probes fuel : forall f i j,
  0 <= i -> j < 2 ^ 63 ->
  Forall (fun h => i <= h < j) (fst (search_loop fuel f i j)).
Proof.
  induction fuel as [|fuel IH]; intros f i j Hi Hj; simpl.
  - destruct (i <? j); constructor.
  - destruct (Z.ltb_spec i j) as [Hlt|Hge]; [|constructor].
    pose proof (midpoint_bounds i j Hi Hlt Hj) as Hh.
    destruct (f (midpoint i j)) as [[|]|].
    + specialize (IH f i (midpoint i j) Hi ltac:(lia)).
      destruct (search_loop fuel f i (midpoint i j)) as [tr o]. simpl in *.
      constructor; [assumption|].
      eapply Forall_impl; [exact IH|]. simpl. intros; lia.
    + rewrite (to_int_id (midpoint i j + 1)) by (unfold is_int; lia).
      specialize (IH f (midpoint i j + 1) j ltac:(lia) Hj).
      destruct (search_loop fuel f (midpoint i j + 1) j) as [tr o]. simpl in *.
      constructor; [assumption|].
      eapply Forall_impl; [exact IH|]. simpl. intros; lia.
    + simpl. constructor; [assumption | constructor].
Qed.

(** The invariant of the source's comments: [f] is false below [i] and
    true from [j] on. *)
Lemma search_loop_least fuel : forall n f i j r,
  upward_closed n f ->
  0 <= i -> i <= j -> j <= n -> n < 2 ^ 63 ->
  (forall x, 0 <= x < i -> f x = false) ->
  (forall x, j <= x < n -> f x = true) ->
  snd (search_loop fuel (always f) i j) = Returned r ->
  least_true n f r.
Proof.
  induction fuel as [|fuel IH]; intros n f i j r Hup Hi Hij Hjn Hn Hlo Hhi; simpl.
  - destruct (Z.ltb_spec i j) as [Hlt|Hge]; simpl; [discriminate|].
    intros [= <-]. assert (i = j) as -> by lia.
    repeat split; try lia; auto; intros Hlt; apply Hhi; lia.
  - destruct (Z.ltb_spec i j) as [Hlt|Hge]; simpl.
    2:{ intros [= <-]. assert (i = j) as -> by lia.
        repeat split; try lia; auto; intros Hlt; apply Hhi; lia. }
    pose proof (midpoint_bounds i j Hi Hlt ltac:(lia)) as Hh.
    change (always f (midpoint i j)) with (Some (f (midpoint i j))).
    destruct (f (midpoint i j)) eqn:Hfh.
    + specialize (IH n f i (midpoint i j) r Hup Hi ltac:(lia) ltac:(lia) Hn Hlo).
      destruct (search_loop fuel (always f) i (midpoint i j)) as [tr o]. simpl in *.
      apply IH. intros x Hx. apply (Hup (midpoint i j)); try lia. assumption.
    + rewrite (to_int_id (midpoint i j + 1)) by (unfold is_int; lia).
      specialize (IH n f (midpoint i j + 1) j r Hup ltac:(lia) ltac:(lia) Hjn Hn).
      destruct (search_loop fuel (always f) (midpoint i j + 1) j) as [tr o]. simpl in *.
      intros Hr. apply IH; auto.
      intros x Hx. destruct (f x) eqn:Hfx; [|reflexivity].
      assert (f (midpoint i j) = true) by (apply (Hup x); try lia; assumption).
      congruence.
Qed.

Lemma search_fuel_pow : 2 ^ Z.of_nat search_fuel = 2 ^ 64.
Proof. reflexivity. Qed.

Lemma search_unfold n f : search n f = snd (search_loop search_fuel f 0 n).
Proof. reflexivity. Qed.

Lemma search_probes_unfold n f :
  search_probes n f = fst (search_loop search_fuel f 0 n).
Proof. reflexivity. Qed.

Lemma search_returns n f :
  is_int n ->
  (forall h, 0 <= h < n -> is_Some (f h)) ->
  exists r, search n f = Returned r /\ (0 <= n -> 0 <= r <= n).
Proof.
  intros [Hlo Hhi] Hf. rewrite search_unfold.
  apply search_loop_returns.
  - lia.
  - lia.
  - rewrite search_fuel_pow. lia.
  - assumption.
Qed.

Lemma search_least n f :
  0 <= n < 2 ^ 63 -> upward_closed n f ->
  exists r, search n (always f) = Returned r /\ least_true n f r.
Proof.
  intros Hn Hup.
  destruct (search_returns n (always f)) as (r & Hr & _).
  { unfold is_int; lia. }
  { intros h _. unfold always. eauto. }
  exists r. split; [assumption|].
  rewrite search_unfold in Hr.
  apply (search_loop_least search_fuel n f 0 n r).
  - assumption.
  - lia.
  - lia.
  - lia.
  - lia.
  - intros x Hx. lia.
  - intros x Hx. lia.
  - exact Hr.
Qed.

(** C4.  For every length [n] that an [int] holds and every predicate
    that is false below a threshold [k] and true from it on, [search]
    returns [k], which is the least index at which the predicate is
    true, and is [n] when the predicate is false on every index. *)
Theorem search_monotonic (n : Z) (f : Z -> bool) (k : Z) :
  0 <= n < 2 ^ 63 ->
  monotonic n f k ->
  search n (always f) = Returned k /\
  least_true n f k /\
  ((forall i, 0 <= i < n -> f i = false) -> k = n).
Proof.
  intros Hn Hmono.
  pose proof (monotonic_upward_closed _ _ _ Hmono) as Hup.
  pose proof (monotonic_least_true _ _ _ Hmono) as Hleast.
  destruct (search_least n f Hn Hup) as (r & Hr & Hrl).
  rewrite (least_true_unique _ _ _ _ Hleast Hrl Hup).
  repeat split; try assumption; try apply Hrl.
  intros Hall. destruct Hrl as (Hr0 & _ & Htrue).
  destruct (Z_lt_le_dec r n) as [Hlt|Hge]; [|lia].
  rewrite Hall in Htrue by lia. specialize (Htrue Hlt). discriminate.
Qed.

(** The threshold predicate "at least 3" on seven indices. *)
Lemma search_monotonic_witness :
  search 7 (always (fun i => 3 <=? i)) = Returned 3 /\
  least_true 7 (fun i => 3 <=? i) 3 /\
  ((forall i, 0 <= i < 7 -> (3 <=? i) = false) -> 3 = 7).
Proof.
  apply (search_monotonic 7 (fun i => 3 <=? i) 3).
  - lia.
  - unfold monotonic. repeat split; try lia; intros i Hi; lia.
Defined.

(** *** Strict weak orderings *)

Section SWO.
Context {E : Type} (less : E -> E -> bool) (Hswo : StrictWeakOrder less).

Lemma swo_asym a b : less a b = true -> less b a = false.
Proof.
  intros Hab. destruct (less b a) eqn:Hba; [|reflexivity].
  pose proof (swo_trans less Hswo a b a Hab Hba) as Haa.
  rewrite (swo_irrefl less Hswo) in Haa. discriminate.
Qed.

(** Negative transitivity: whatever lies below [c] and not below [b]
    has [b] below [c]. *)
Lemma swo_neg_trans a b c :
  less a c = true -> less a b = true \/ less b c = true.
Proof.
  intros Hac.
  destruct (less a b) eqn:Hab; [left; reflexivity|].
  destruct (less b c) eqn:Hbc; [right; reflexivity|].
  exfalso.
  destruct (less b a) eqn:Hba.
  { rewrite (swo_trans less Hswo b a c Hba Hac) in Hbc. discriminate. }
  destruct (less c b) eqn:Hcb.
  { rewrite (swo_trans less Hswo a c b Hac Hcb) in Hab. discriminate. }
  destruct (swo_incomp less Hswo a b c Hab Hba Hbc Hcb) as [Hac' _].
  congruence.
Qed.

(** "Not less" is transitive. *)
Lemma not_less_trans a b c :
  less b a = false -> less c b = false -> less c a = false.
Proof.
  intros Hba Hcb. destruct (less c a) eqn:Hca; [|reflexivity].
  destruct (swo_neg_trans c b a Hca); congruence.
Qed.

Lemma less_not_less_trans a b c :
  less a b = true -> less c b = false -> less a c = true.
Proof.
  intros Hab Hcb. destruct (swo_neg_trans a c b Hab); congruence.
Qed.

Lemma not_less_less_trans a b c :
  less b a = false -> less b c = true -> less a c = true.
Proof.
  intros Hba Hbc. destruct (swo_neg_trans b a c Hbc); congruence.
Qed.

Lemma equiv_refl a : equiv less a a = true.
Proof. unfold equiv. rewrite (swo_irrefl less Hswo). reflexivity. Qed.

End SWO.

(** *** Indexing *)

Lemma len_nonneg {E} (s : list E) : 0 <= len s.
Proof. unfold len. lia. Qed.

Lemma index_Some {E} (s : list E) i x :
  index s i = Some x <-> 0 <= i < len s /\ s !! Z.to_nat i = Some x.
Proof.
  unfold index.
  destruct (Z.leb_spec 0 i), (Z.ltb_spec i (len s)); simpl;
    split; try (intros [? ?]); try intros ?; try lia; try discriminate; auto.
Qed.

Lemma index_is_Some {E} (s : list E) i : 0 <= i < len s -> is_Some (index s i).
Proof.
  intros Hi. destruct (lookup_lt_is_Some_2 s (Z.to_nat i)) as [x Hx].
  { unfold len in Hi. lia. }
  exists x. apply index_Some. auto.
Qed.

Lemma index_of_nat {E} (s : list E) (i : nat) : index s (Z.of_nat i) = s !! i.
Proof.
  unfold index, len.
  destruct (Z.leb_spec 0 (Z.of_nat i)); [|lia].
  destruct (Z.ltb_spec (Z.of_nat i) (Z.of_nat (length s))); simpl.
  - rewrite Nat2Z.id. reflexivity.
  - symmetry. apply lookup_ge_None. lia.
Qed.

Lemma index_to_nat {E} (s : list E) i x :
  index s i = Some x -> s !! Z.to_nat i = Some x /\ 0 <= i.
Proof. intros H. apply index_Some in H. tauto. Qed.

(** *** [search] reads its callback inside the range only *)

Lemma search_loop_ext fuel : forall f g i j,
  0 <= i -> j < 2 ^ 63 ->
  (forall h, i <= h < j -> f h = g h) ->
  search_loop fuel f i j = search_loop fuel g i j.
Proof.
  induction fuel as [|fuel IH]; intros f g i j Hi Hj Hfg; simpl; [reflexivity|].
  destruct (Z.ltb_spec i j) as [Hlt|Hge]; [|reflexivity].
  pose proof (midpoint_bounds i j Hi Hlt Hj) as Hh.
  rewrite <- (Hfg (midpoint i j) Hh).
  destruct (f (midpoint i j)) as [[|]|]; [| |reflexivity].
  - rewrite (IH f g i (midpoint i j)); auto; [lia|]. intros h Hh'. apply Hfg. lia.
  - rewrite (to_int_id (midpoint i j + 1)) by (unfold is_int; lia).
    rewrite (IH f g (midpoint i j + 1) j); auto; [lia|]. intros h Hh'. apply Hfg. lia.
Qed.

Lemma search_ext n f g :
  n < 2 ^ 63 -> (forall h, 0 <= h < n -> f h = g h) -> search n f = search n g.
Proof.
  intros Hn Hfg. rewrite !search_unfold.
  rewrite (search_loop_ext search_fuel f g 0 n); auto. lia.
Qed.

Lemma search_probes_bounds n f :
  is_int n -> Forall (fun h => 0 <= h < n) (search_probes n f).
Proof.
  intros [Hlo Hhi]. rewrite search_probes_unfold.
  apply search_loop_probes; lia.
Qed.

Lemma search_loop_empty fuel f i j : j <= i -> search_loop fuel f i j = ([], Returned i).
Proof.
  intros Hji. destruct fuel; simpl; destruct (Z.ltb_spec i j); try lia; reflexivity.
Qed.

Lemma search_probes_zero f : search_probes 0 f = [].
Proof.
  rewrite search_probes_unfold, search_loop_empty by lia. reflexivity.
Qed.

(** *** The body shared by [BinarySearch] and [BinarySearchFunc] *)

Section BinarySearchWith.
Context {E : Type} (ge ne : E -> bool).

Lemma closure_ge_at space h :
  0 <= h < len space ->
  (x ← index space h; Some (ge x)) = always (ge_at ge space) h.
Proof.
  intros Hh. unfold always, ge_at.
  destruct (index_is_Some space h Hh) as [x Hx]. rewrite Hx. reflexivity.
Qed.

Lemma binary_search_with_returns space :
  len space < 2 ^ 63 ->
  exists pos found,
    binary_search_with ge ne space = Returned (pos, found) /\
    search (len space) (always (ge_at ge space)) = Returned pos /\
    0 <= pos <= len space /\
    (found = true <-> exists x, index space pos = Some x /\ ne x = false).
Proof.
  intros Hlen. unfold binary_search_with.
  pose proof (len_nonneg space) as Hnn.
  rewrite (search_ext _ _ (always (ge_at ge space)) Hlen (closure_ge_at space)).
  destruct (search_returns (len space) (always (ge_at ge space))) as (r & Hr & Hrange).
  { unfold is_int. lia. }
  { intros h _. unfold always. eauto. }
  specialize (Hrange Hnn). rewrite Hr.
  destruct (Z.leb_spec (len space) r) as [Hge|Hlt].
  - exists r, false. repeat split; try lia; try discriminate.
    intros (x & Hx & _). apply index_Some in Hx. lia.
  - destruct (index_is_Some space r ltac:(lia)) as [x Hx]. rewrite Hx.
    destruct (ne x) eqn:Hne.
    + exists r, false. repeat split; try lia; try discriminate.
      intros (y & Hy & Hney). congruence.
    + exists r, true. repeat split; try lia; eauto.
Qed.

(** On a slice along which [ge] only ever turns from false to true, the
    position is the least index whose element satisfies [ge]. *)
Lemma binary_search_with_least space pos found :
  len space < 2 ^ 63 ->
  (forall (i j : nat) x y, (i < j)%nat -> space !! i = Some x -> space !! j = Some y ->
     ge x = true -> ge y = true) ->
  binary_search_with ge ne space = Returned (pos, found) ->
  (forall i x, 0 <= i < pos -> index space i = Some x -> ge x = false) /\
  (forall x, index space pos = Some x -> ge x = true).
Proof.
  intros Hlen Hmono Hbs.
  destruct (binary_search_with_returns space Hlen) as (pos' & found' & Hbs' & Hs & Hrange & _).
  rewrite Hbs in Hbs'. injection Hbs' as <- <-.
  assert (upward_closed (len space) (ge_at ge space)) as Hup.
  { intros i j Hi Hij Hj. unfold ge_at.
    destruct (index_is_Some space i ltac:(lia)) as [x Hx].
    destruct (index_is_Some space j ltac:(lia)) as [y Hy].
    rewrite Hx, Hy. intros Hgx.
    destruct (Z.eq_dec i j) as [->|Hne]; [congruence|].
    apply index_to_nat in Hx as [Hx _]. apply index_to_nat in Hy as [Hy _].
    apply (Hmono (Z.to_nat i) (Z.to_nat j) x y); auto. lia. }
  destruct (search_least (len space) (ge_at ge space)) as (r & Hr & (_ & Hlow & Hhigh)); auto.
  { pose proof (len_nonneg space). lia. }
  rewrite Hs in Hr. injection Hr as <-.
  split.
  - intros i x Hi Hx. specialize (Hlow i Hi). unfold ge_at in Hlow.
    rewrite Hx in Hlow. exact Hlow.
  - intros x Hx. pose proof Hx as Hx'. apply index_Some in Hx' as [Hpos _].
    specialize (Hhigh ltac:(lia)). unfold ge_at in Hhigh.
    rewrite Hx in Hhigh. exact Hhigh.
Qed.

End BinarySearchWith.

Lemma BinarySearch_with {E} `{Ordered E} (target : E) (space : list E) :
  BinarySearch target space =
  binary_search_with (fun x => geq x target) (fun x => neq x target) space.
Proof. unfold BinarySearch, binary_search_with. reflexivity. Qed.

Lemma BinarySearchFunc_with {E} (cmp : E -> E -> Z) (target : E) (space : list E) :
  BinarySearchFunc cmp target space =
  binary_search_with (fun x => 0 <=? cmp x target)
                     (fun x => negb (cmp x target =? 0)) space.
Proof. unfold BinarySearchFunc, binary_search_with. reflexivity. Qed.

(** *** Ascending sequences *)


Lemma ascending_nil {E} (less : E -> E -> bool) : ascending less [].
Proof. intros i j a b _ Hi. rewrite lookup_nil in Hi. discriminate. Qed.

Lemma ascending_cons {E} (less : E -> E -> bool) a s :
  ascending less (a :: s) <-> Forall (not_after less a) s /\ ascending less s.
Proof.
  split.
  - intros Hasc. split.
    + apply Forall_lookup_2. intros i b Hb.
      apply (Hasc 0%nat (S i) a b); auto. lia.
    + intros i j x y Hij Hx Hy. apply (Hasc (S i) (S j) x y); auto. lia.
  - intros [Hall Hasc] i j x y Hij Hx Hy.
    destruct j as [|j]; [lia|]. simpl in Hy.
    destruct i as [|i]; simpl in Hx.
    + injection Hx as <-. rewrite Forall_lookup in Hall. apply (Hall j y Hy).
    + apply (Hasc i j x y); auto. lia.
Qed.

Lemma ascending_StronglySorted {E} (less : E -> E -> bool) s :
  ascending less s <-> StronglySorted (not_after less) s.
Proof.
  induction s as [|a s IH].
  - split; [constructor | intros; apply ascending_nil].
  - rewrite ascending_cons, IH. split.
    + intros [Hall Hs]. constructor; assumption.
    + intros Hs. apply StronglySorted_inv in Hs. tauto.
Qed.

Lemma adjacent_ascending_cons2 {E} (less : E -> E -> bool) a b s :
  adjacent_ascending less (a :: b :: s) <->
  less b a = false /\ adjacent_ascending less (b :: s).
Proof.
  split.
  - intros Hadj. split.
    + apply (Hadj 0%nat a b); reflexivity.
    + intros i x y Hx Hy. apply (Hadj (S i) x y); assumption.
  - intros [Hba Hadj] i x y Hx Hy. destruct i as [|i]; simpl in *.
    + congruence.
    + apply (Hadj i x y); assumption.
Qed.

Lemma adjacent_ascending_short {E} (less : E -> E -> bool) s :
  (length s <= 1)%nat -> adjacent_ascending less s.
Proof.
  intros Hlen i a b Ha Hb. apply lookup_lt_Some in Hb. lia.
Qed.

Lemma ascending_adjacent {E} (less : E -> E -> bool) s :
  ascending less s -> adjacent_ascending less s.
Proof. intros Hasc i a b Ha Hb. apply (Hasc i (S i) a b); auto. Qed.

(** Under a strict weak ordering, looking at adjacent pairs is enough. *)
Lemma adjacent_ascending_ascending {E} (less : E -> E -> bool) s :
  StrictWeakOrder less -> adjacent_ascending less s -> ascending less s.
Proof.
  intros Hswo. induction s as [|a s IH]; intros Hadj.
  - apply ascending_nil.
  - destruct s as [|b s].
    + apply ascending_cons. split; [constructor | apply ascending_nil].
    + apply adjacent_ascending_cons2 in Hadj as [Hba Hadj].
      specialize (IH Hadj). apply ascending_cons. split; [|assumption].
      apply ascending_cons in IH as [Hall _].
      constructor; [exact Hba|].
      eapply Forall_impl; [exact Hall|]. unfold not_after. simpl.
      intros c Hcb. exact (not_less_trans less Hswo a b c Hba Hcb).
Qed.


Lemma adjacent_check_spec {E} (less : E -> E -> bool) s :
  adjacent_check less s = true <-> adjacent_ascending less s.
Proof.
  induction s as [|a [|b s] IH].
  - split; [intros _; apply adjacent_ascending_short; simpl; lia | reflexivity].
  - split; [intros _; apply adjacent_ascending_short; simpl; lia | reflexivity].
  - rewrite adjacent_ascending_cons2, <- IH.
    change (adjacent_check less (a :: b :: s))
      with (negb (less b a) && adjacent_check less (b :: s)).
    rewrite andb_true_iff, negb_true_iff. reflexivity.
Qed.

Lemma adjacent_check_ascending {E} (less : E -> E -> bool) s :
  StrictWeakOrder less -> adjacent_check less s = true -> ascending less s.
Proof.
  intros Hswo Hc. apply adjacent_ascending_ascending; [assumption|].
  apply adjacent_check_spec. assumption.
Qed.

(** *** The ordered types [int] and [string] *)

Lemma Z_ltb_swo : StrictWeakOrder Z.ltb.
Proof.
  split.
  - intros a. apply Z.ltb_irrefl.
  - intros a b c. rewrite !Z.ltb_lt. lia.
  - intros a b c. rewrite !Z.ltb_ge. lia.
Qed.

#[export] Instance int_OrderedLaws : OrderedLaws Z.
Proof.
  split; simpl.
  - exact Z_ltb_swo.
  - intros a b. destruct (Z.leb_spec a b), (Z.ltb_spec b a); simpl; lia.
  - intros a b. rewrite Z.gtb_ltb. reflexivity.
  - intros a b. rewrite Z.geb_leb. destruct (Z.leb_spec b a), (Z.ltb_spec a b); simpl; lia.
  - intros a b. unfold equiv.
    destruct (Z.eqb_spec a b), (Z.ltb_spec a b), (Z.ltb_spec b a); simpl; lia.
  - intros a b. unfold equiv.
    destruct (Z.eqb_spec a b), (Z.ltb_spec a b), (Z.ltb_spec b a); simpl; lia.
Qed.

Lemma ascii_compare_refl c : Ascii.compare c c = Eq.
Proof. unfold Ascii.compare. apply N.compare_refl. Qed.

Lemma ascii_compare_lt_trans a b c :
  Ascii.compare a b = Lt -> Ascii.compare b c = Lt -> Ascii.compare a c = Lt.
Proof. unfold Ascii.compare. rewrite !N.compare_lt_iff. lia. Qed.

Lemma string_compare_refl s : String.compare s s = Eq.
Proof.
  induction s as [|c s IH]; simpl; [reflexivity|].
  rewrite ascii_compare_refl. exact IH.
Qed.

Lemma string_compare_lt_trans s1 : forall s2 s3,
  String.compare s1 s2 = Lt -> String.compare s2 s3 = Lt -> String.compare s1 s3 = Lt.
Proof.
  induction s1 as [|c1 s1 IH]; intros [|c2 s2] [|c3 s3]; simpl; try congruence.
  destruct (Ascii.compare c1 c2) eqn:H12; try discriminate.
  - apply Ascii.compare_eq_iff in H12 as ->.
    destruct (Ascii.compare c2 c3); try discriminate; auto. apply IH.
  - intros _. destruct (Ascii.compare c2 c3) eqn:H23; try discriminate.
    + apply Ascii.compare_eq_iff in H23 as <-. rewrite H12. reflexivity.
    + rewrite (ascii_compare_lt_trans _ _ _ H12 H23). reflexivity.
Qed.

Lemma string_ltb_lt s1 s2 : String.ltb s1 s2 = true <-> String.compare s1 s2 = Lt.
Proof. unfold String.ltb. destruct (String.compare s1 s2); split; congruence. Qed.

Lemma string_not_ltb_eq s1 s2 :
  String.ltb s1 s2 = false -> String.ltb s2 s1 = false -> s1 = s2.
Proof.
  unfold String.ltb. rewrite (String.compare_antisym s1 s2).
  destruct (String.compare s2 s1) eqn:Hc; simpl; try discriminate.
  intros _ _. apply String.compare_eq_iff in Hc. congruence.
Qed.

Lemma string_ltb_swo : StrictWeakOrder String.ltb.
Proof.
  split.
  - intros a. unfold String.ltb. rewrite string_compare_refl. reflexivity.
  - intros a b c. rewrite !string_ltb_lt. apply string_compare_lt_trans.
  - intros a b c Hab Hba Hbc Hcb.
    rewrite (string_not_ltb_eq a b Hab Hba). auto.
Qed.

Lemma string_eqb_equiv a b : String.eqb a b = equiv String.ltb a b.
Proof.
  unfold equiv, String.ltb. rewrite (String.compare_antisym a b).
  destruct (String.eqb_spec a b) as [->|Hne].
  - rewrite string_compare_refl. reflexivity.
  - destruct (String.compare b a) eqn:Hc; try reflexivity.
    apply String.compare_eq_iff in Hc. congruence.
Qed.

#[export] Instance string_OrderedLaws : OrderedLaws string.
Proof.
  split; simpl.
  - exact string_ltb_swo.
  - intros a b. unfold String.leb, String.ltb. rewrite (String.compare_antisym a b).
    destruct (String.compare b a); reflexivity.
  - reflexivity.
  - intros a b. unfold String.leb, String.ltb. rewrite (String.compare_antisym a b).
    destruct (String.compare b a); reflexivity.
  - exact string_eqb_equiv.
  - intros a b. rewrite string_eqb_equiv. reflexivity.
Qed.

(** *** [BinarySearch] and [BinarySearchFunc] on ascending slices *)

Lemma binary_search_with_lower_bound {E} (less : E -> E -> bool) (ge ne : E -> bool)
  (target : E) (space : list E) :
  StrictWeakOrder less ->
  (forall x, ge x = negb (less x target)) ->
  (forall x, ne x = negb (equiv less x target)) ->
  len space < 2 ^ 63 ->
  ascending less space ->
  exists pos found,
    binary_search_with ge ne space = Returned (pos, found) /\
    lower_bound less target space pos /\
    found_at less target space pos found.
Proof.
  intros Hswo Hge Hne Hlen Hasc.
  destruct (binary_search_with_returns ge ne space Hlen)
    as (pos & found & Hbs & _ & Hrange & Hfound).
  exists pos, found. split; [assumption|].
  destruct (binary_search_with_least ge ne space pos found Hlen) as [Hlow Hhigh];
    [|assumption|].
  { intros i j x y Hij Hx Hy. rewrite !Hge, !negb_true_iff. intros Hxt.
    apply (not_less_trans less Hswo target x y); [assumption|].
    apply (Hasc i j x y); assumption. }
  split.
  - split; [assumption|]. split.
    + intros i x Hi Hx. specialize (Hlow i x Hi Hx).
      rewrite Hge, negb_false_iff in Hlow. exact Hlow.
    + intros x Hx. specialize (Hhigh x Hx).
      rewrite Hge, negb_true_iff in Hhigh. exact Hhigh.
  - unfold found_at. rewrite Hfound. split.
    + intros (x & Hx & Hnx). exists x. split; [assumption|].
      rewrite Hne, negb_false_iff in Hnx. exact Hnx.
    + intros (x & Hx & Heq). exists x. split; [assumption|].
      rewrite Hne, Heq. reflexivity.
Qed.

Lemma ThreeWay_ge {E} (cmp : E -> E -> Z) less a b :
  ThreeWay cmp less -> (0 <=? cmp a b) = negb (less a b).
Proof.
  intros Hc. pose proof (cmp_neg cmp less Hc a b) as Hneg.
  destruct (Z.leb_spec 0 (cmp a b)) as [Hle|Hlt], (less a b) eqn:Hl; simpl; auto.
  - destruct Hneg as [_ Hneg]. specialize (Hneg eq_refl). lia.
  - destruct Hneg as [Hneg _]. specialize (Hneg Hlt). discriminate.
Qed.

Lemma ThreeWay_ne {E} (cmp : E -> E -> Z) less a b :
  ThreeWay cmp less -> negb (cmp a b =? 0) = negb (equiv less a b).
Proof.
  intros Hc. f_equal. unfold equiv.
  pose proof (cmp_neg cmp less Hc a b) as Hneg.
  pose proof (cmp_pos cmp less Hc a b) as Hpos.
  destruct (Z.eqb_spec (cmp a b) 0) as [Heq|Hne], (less a b) eqn:Hl, (less b a) eqn:Hr;
    simpl; auto.
  - destruct Hneg as [_ Hneg]. specialize (Hneg eq_refl). lia.
  - destruct Hneg as [_ Hneg]. specialize (Hneg eq_refl). lia.
  - destruct Hpos as [_ Hpos]. specialize (Hpos eq_refl). lia.
  - destruct (Z.lt_trichotomy (cmp a b) 0) as [Hlt|[Heq|Hgt]]; [|lia|].
    + destruct Hneg as [Hneg _]. specialize (Hneg Hlt). discriminate.
    + destruct Hpos as [Hpos _]. specialize (Hpos Hgt). discriminate.
Qed.

(** C3.  On a slice that is ascending under the comparator in use,
    [BinarySearch] and [BinarySearchFunc] return [(pos, found)] where
    [pos] is the least index whose element is not less than the target
    ([len(space)] when there is none) and [found] tells whether [pos] is
    inside the slice and holds an element equivalent to the target; on a
    run of duplicates [pos] is therefore the leftmost index of the run,
    as in [BinarySearch(2, [1,2,2,3]) = (1, true)].  The comparator is
    the [<] of an ordered element type, or the strict weak ordering that
    a three-way [cmp] decides. *)
Theorem BinarySearch_leftmost {E E' : Type} `{OrderedLaws E}
  (target : E) (space : list E)
  (cmp : E' -> E' -> Z) (less : E' -> E' -> bool) (target' : E') (space' : list E') :
  len space < 2 ^ 63 -> ascending lss space ->
  len space' < 2 ^ 63 -> ThreeWay cmp less -> ascending less space' ->
  (exists pos found,
     BinarySearch target space = Returned (pos, found) /\
     lower_bound lss target space pos /\
     found_at lss target space pos found) /\
  (exists pos found,
     BinarySearchFunc cmp target' space' = Returned (pos, found) /\
     lower_bound less target' space' pos /\
     found_at less target' space' pos found) /\
  BinarySearch 2 [1; 2; 2; 3] = Returned (1, true).
Proof.
  intros Hlen Hasc Hlen' Hcmp Hasc'. split; [|split].
  - rewrite BinarySearch_with.
    apply binary_search_with_lower_bound; auto.
    + apply lss_swo.
    + intros x. apply geq_lss.
    + intros x. apply neq_lss.
  - rewrite BinarySearchFunc_with.
    apply binary_search_with_lower_bound; auto.
    + apply (cmp_swo cmp less Hcmp).
    + intros x. apply ThreeWay_ge. assumption.
    + intros x. apply ThreeWay_ne. assumption.
  - vm_compute. reflexivity.
Qed.

Lemma Z_sub_ThreeWay : ThreeWay Z.sub Z.ltb.
Proof.
  split.
  - exact Z_ltb_swo.
  - intros a b. rewrite Z.ltb_lt. lia.
  - intros a b. rewrite Z.ltb_lt. lia.
Qed.

Lemma len_small_cons {E} (a : E) (s : list E) : len s < 2 ^ 63 - 1 -> len (a :: s) < 2 ^ 63.
Proof. unfold len. simpl length. lia. Qed.

(** The duplicate run of the specification's scenario, searched for 2
    with [<] and for 7 with [cmp(a, b) = a - b]. *)
Lemma BinarySearch_leftmost_witness :
  (exists pos found,
     BinarySearch 2 [1; 2; 2; 3] = Returned (pos, found) /\
     lower_bound lss 2 [1; 2; 2; 3] pos /\
     found_at lss 2 [1; 2; 2; 3] pos found) /\
  (exists pos found,
     BinarySearchFunc Z.sub 7 [20; 30; 30; 40] = Returned (pos, found) /\
     lower_bound Z.ltb 7 [20; 30; 30; 40] pos /\
     found_at Z.ltb 7 [20; 30; 30; 40] pos found) /\
  BinarySearch 2 [1; 2; 2; 3] = Returned (1, true).
Proof.
  apply (BinarySearch_leftmost 2 [1; 2; 2; 3] Z.sub Z.ltb 7 [20; 30; 30; 40]).
  - reflexivity.
  - apply adjacent_check_ascending; [exact Z_ltb_swo | reflexivity].
  - reflexivity.
  - exact Z_sub_ThreeWay.
  - apply adjacent_check_ascending; [exact Z_ltb_swo | reflexivity].
Defined.

(** *** No access outside the slice *)

Lemma binary_search_with_no_panic {E} (ge ne : E -> bool) (space : list E) :
  len space < 2 ^ 63 ->
  exists pos found, binary_search_with ge ne space = Returned (pos, found).
Proof.
  intros Hlen.
  destruct (binary_search_with_returns ge ne space Hlen) as (pos & found & Hbs & _).
  eauto.
Qed.

Lemma probes_are_indices {E} (space : list E) (f : Z -> option bool) :
  len space < 2 ^ 63 ->
  Forall (fun h => is_Some (index space h)) (search_probes (len space) f).
Proof.
  intros Hlen. pose proof (len_nonneg space) as Hnn.
  eapply Forall_impl; [apply search_probes_bounds; unfold is_int; lia|].
  simpl. intros h Hh. apply index_is_Some. exact Hh.
Qed.

(** C10.  [search(n, f)] calls [f] at indices of [0..n-1] only, and not
    at all when [n = 0], whatever [f] answers; so [BinarySearch] and
    [BinarySearchFunc] index the slice inside [0..len(space)-1] only and
    return without a panic, on every slice, ascending or not. *)
Theorem search_stays_in_range {E E' : Type} `{Ordered E}
  (n : Z) (f : Z -> option bool)
  (target : E) (space : list E)
  (cmp : E' -> E' -> Z) (target' : E') (space' : list E') :
  is_int n -> len space < 2 ^ 63 -> len space' < 2 ^ 63 ->
  Forall (fun h => 0 <= h < n) (search_probes n f) /\
  (n = 0 -> search_probes n f = []) /\
  Forall (fun h => is_Some (index space h))
    (search_probes (len space) (fun i => x ← index space i; Some (geq x target))) /\
  (exists pos found, BinarySearch target space = Returned (pos, found)) /\
  Forall (fun h => is_Some (index space' h))
    (search_probes (len space') (fun i => x ← index space' i; Some (0 <=? cmp x target'))) /\
  (exists pos found, BinarySearchFunc cmp target' space' = Returned (pos, found)).
Proof.
  intros Hn Hlen Hlen'. repeat split.
  - apply search_probes_bounds. assumption.
  - intros ->. apply search_probes_zero.
  - apply probes_are_indices. assumption.
  - rewrite BinarySearch_with. apply binary_search_with_no_panic. assumption.
  - apply probes_are_indices. assumption.
  - rewrite BinarySearchFunc_with. apply binary_search_with_no_panic. assumption.
Qed.

(** A callback that panics away from index 1, a slice of floats that is
    not ascending and holds a NaN, and a comparison that is no ordering. *)
Lemma search_stays_in_range_witness :
  Forall (fun h => 0 <= h < 5)
    (search_probes 5 (fun i => if i =? 1 then Some false else None)) /\
  (5 = 0 -> search_probes 5 (fun i => if i =? 1 then Some false else None) = []) /\
  Forall (fun h => is_Some (index [PrimFloat.two; PrimFloat.nan; PrimFloat.one] h))
    (search_probes (len [PrimFloat.two; PrimFloat.nan; PrimFloat.one])
       (fun i => x ← index [PrimFloat.two; PrimFloat.nan; PrimFloat.one] i;
                 Some (geq x PrimFloat.one))) /\
  (exists pos found,
     BinarySearch PrimFloat.one [PrimFloat.two; PrimFloat.nan; PrimFloat.one]
     = Returned (pos, found)) /\
  Forall (fun h => is_Some (index [3; 1; 2] h))
    (search_probes (len [3; 1; 2])
       (fun i => x ← index [3; 1; 2] i; Some (0 <=? (fun _ _ : Z => 1) x 0))) /\
  (exists pos found,
     BinarySearchFunc (fun _ _ : Z => 1) 0 [3; 1; 2] = Returned (pos, found)).
Proof.
  apply (search_stays_in_range 5 (fun i => if i =? 1 then Some false else None)
           PrimFloat.one [PrimFloat.two; PrimFloat.nan; PrimFloat.one]
           (fun _ _ : Z => 1) 0 [3; 1; 2]).
  - unfold is_int. lia.
  - reflexivity.
  - reflexivity.
Defined.

(** *** [IsSorted] and [IsSortedFunc] *)

Lemma IsSortedFunc_loop_spec {E} (less : E -> E -> bool) (x : list E) (k : nat) :
  forall fuel : nat, (k <= fuel)%nat -> (k < length x)%nat ->
  exists b, IsSortedFunc_loop less x fuel (Z.of_nat k) = Returned b /\
    (b = true <->
     forall (m : nat) a c, (m < k)%nat -> x !! m = Some a -> x !! S m = Some c ->
       less c a = false).
Proof.
  induction k as [|k IH]; intros fuel Hfuel Hk.
  - exists true. split.
    + destruct fuel; reflexivity.
    + split; [intros _ m a c Hm; lia | reflexivity].
  - destruct fuel as [|fuel]; [lia|].
    cbn [IsSortedFunc_loop].
    destruct (Z.ltb_spec 0 (Z.of_nat (S k))) as [_|Hle]; [|lia].
    replace (Z.of_nat (S k) - 1) with (Z.of_nat k) by lia.
    rewrite !index_of_nat.
    destruct (lookup_lt_is_Some_2 x (S k) Hk) as [a Ha].
    destruct (lookup_lt_is_Some_2 x k ltac:(lia)) as [c Hc].
    rewrite Ha, Hc.
    destruct (less a c) eqn:Hlac.
    + exists false. split; [reflexivity|]. split; [discriminate|].
      intros Hall. rewrite (Hall k c a) in Hlac; auto.
    + destruct (IH fuel ltac:(lia) ltac:(lia)) as (b & Hb & Hiff).
      exists b. split; [assumption|]. rewrite Hiff. split.
      * intros Hall m a' c' Hm Ha' Hc'.
        destruct (Nat.eq_dec m k) as [->|Hne].
        -- congruence.
        -- apply (Hall m a' c'); auto. lia.
      * intros Hall m a' c' Hm. apply Hall. lia.
Qed.

Lemma IsSortedFunc_adjacent {E} (less : E -> E -> bool) (x : list E) :
  exists b, IsSortedFunc less x = Returned b /\ (b = true <-> adjacent_ascending less x).
Proof.
  unfold IsSortedFunc. destruct x as [|a x].
  - exists true. split; [reflexivity|].
    split; [intros _; apply adjacent_ascending_short; simpl; lia | reflexivity].
  - replace (len (a :: x) - 1) with (Z.of_nat (length x))
      by (unfold len; simpl length; lia).
    destruct (IsSortedFunc_loop_spec less (a :: x) (length x) (length (a :: x)))
      as (b & Hb & Hiff); [simpl; lia | simpl; lia |].
    exists b. split; [assumption|]. rewrite Hiff. split.
    + intros Hall m u v Hu Hv. apply (Hall m u v); auto.
      apply lookup_lt_Some in Hv. simpl in Hv. lia.
    + intros Hadj m u v _. apply Hadj.
Qed.

Lemma IsSorted_IsSortedFunc {E} `{Ordered E} (x : list E) :
  IsSorted x = IsSortedFunc lss x.
Proof. reflexivity. Qed.

Lemma IsSortedFunc_ascending {E} (less : E -> E -> bool) (x : list E) :
  StrictWeakOrder less ->
  exists b, IsSortedFunc less x = Returned b /\ (b = true <-> ascending less x).
Proof.
  intros Hswo. destruct (IsSortedFunc_adjacent less x) as (b & Hb & Hiff).
  exists b. split; [assumption|]. rewrite Hiff. split.
  - apply adjacent_ascending_ascending. assumption.
  - apply ascending_adjacent.
Qed.

(** C6.  [IsSorted(x)] returns true exactly when [x] has no inversion,
    which is also when no adjacent pair has [x[i] < x[i-1]]; so does
    [IsSortedFunc(less, x)] for a strict weak ordering [less].  The
    element type of [IsSorted] is one whose [<] is a strict weak ordering
    (the integers, the strings, the floating-point numbers other than
    NaN).  [IsSorted([1,1,2,3])] is true and [IsSorted([2,1])] is
    false. *)
Theorem IsSorted_ascending {E E' : Type} `{Ordered E}
  (x : list E) (less : E' -> E' -> bool) (x' : list E') :
  StrictWeakOrder (lss : E -> E -> bool) ->
  StrictWeakOrder less ->
  (exists b, IsSorted x = Returned b /\ (b = true <-> ascending lss x)) /\
  (ascending lss x <-> adjacent_ascending lss x) /\
  (exists b, IsSortedFunc less x' = Returned b /\ (b = true <-> ascending less x')) /\
  (ascending less x' <-> adjacent_ascending less x') /\
  IsSorted [1; 1; 2; 3] = Returned true /\
  IsSorted [2; 1] = Returned false.
Proof.
  intros Hlss Hless. repeat split.
  - rewrite IsSorted_IsSortedFunc. apply IsSortedFunc_ascending. assumption.
  - apply ascending_adjacent.
  - apply adjacent_ascending_ascending. assumption.
  - apply IsSortedFunc_ascending. assumption.
  - apply ascending_adjacent.
  - apply adjacent_ascending_ascending. assumption.
Qed.

Lemma pair_fst_swo : StrictWeakOrder (fun a b : Z * Z => a.1 <? b.1).
Proof.
  split.
  - intros a. apply Z.ltb_irrefl.
  - intros a b c. rewrite !Z.ltb_lt. lia.
  - intros a b c. rewrite !Z.ltb_ge. lia.
Qed.

(** Strings under [<], and the pairs of the stability test under
    [intPairLess], which compares first components only. *)
Lemma IsSorted_ascending_witness :
  (exists b, IsSorted ["bar"; "foo"; "foo"]%string = Returned b /\
     (b = true <-> ascending lss ["bar"; "foo"; "foo"]%string)) /\
  (ascending lss ["bar"; "foo"; "foo"]%string <->
   adjacent_ascending lss ["bar"; "foo"; "foo"]%string) /\
  (exists b, IsSortedFunc (fun a b : Z * Z => a.1 <? b.1) [(1, 0); (0, 1)] = Returned b /\
     (b = true <-> ascending (fun a b : Z * Z => a.1 <? b.1) [(1, 0); (0, 1)])) /\
  (ascending (fun a b : Z * Z => a.1 <? b.1) [(1, 0); (0, 1)] <->
   adjacent_ascending (fun a b : Z * Z => a.1 <? b.1) [(1, 0); (0, 1)]) /\
  IsSorted [1; 1; 2; 3] = Returned true /\
  IsSorted [2; 1] = Returned false.
Proof.
  apply (IsSorted_ascending ["bar"; "foo"; "foo"]%string
           (fun a b : Z * Z => a.1 <? b.1) [(1, 0); (0, 1)]).
  - exact string_ltb_swo.
  - exact pair_fst_swo.
Defined.

(** *** The [Key] adapter *)

Lemma Key_Lt_swo {I O} `{OrderedLaws O} (k : I -> O) : StrictWeakOrder (Key.Lt k).
Proof.
  pose proof lss_swo as Hswo. unfold Key.Lt. split.
  - intros a. apply (swo_irrefl _ Hswo).
  - intros a b c. apply (swo_trans _ Hswo).
  - intros a b c. apply (swo_incomp _ Hswo).
Qed.

Lemma Key_Cmp_cases {I O} `{OrderedLaws O} (k : I -> O) (a b : I) :
  (Key.Lt k a b = true /\ Key.Lt k b a = false /\ Key.Cmp k a b = -1) \/
  (Key.Lt k a b = false /\ Key.Lt k b a = true /\ Key.Cmp k a b = 1) \/
  (Key.Lt k a b = false /\ Key.Lt k b a = false /\ Key.Cmp k a b = 0).
Proof.
  unfold Key.Cmp, Key.Lt. cbv zeta. rewrite eql_lss. unfold equiv.
  destruct (lss (k a) (k b)) eqn:Hab, (lss (k b) (k a)) eqn:Hba; simpl; auto.
  - rewrite (swo_asym lss lss_swo _ _ Hab) in Hba. discriminate.
Qed.

Lemma Key_Cmp_ThreeWay {I O} `{OrderedLaws O} (k : I -> O) :
  ThreeWay (Key.Cmp k) (Key.Lt k).
Proof.
  split.
  - apply Key_Lt_swo.
  - intros a b.
    destruct (Key_Cmp_cases k a b) as [(-> & _ & ->)|[(-> & _ & ->)|(-> & _ & ->)]];
      split; intros; try lia; try discriminate; reflexivity.
  - intros a b.
    destruct (Key_Cmp_cases k a b) as [(_ & -> & ->)|[(_ & -> & ->)|(_ & -> & ->)]];
      split; intros; try lia; try discriminate; reflexivity.
Qed.

(** C7, as amended.  When the operators of the key type agree with one
    another (integer keys, string keys, floating-point keys other than
    NaN), every derivation of the adapter is what the key-derived
    less-than makes it: [Eq] holds when neither argument is [Lt] the
    other, [Ne] is its negation, [Le(a,b)] is [!Lt(b,a)], [Ge(a,b)] is
    [!Lt(a,b)], [Gt(a,b)] is [Lt(b,a)], and [Cmp(a,b)] is negative when
    [Lt(a,b)], positive when [Lt(b,a)] and zero when neither; and every
    derivation gives the same answer on elements with the same keys. *)
Theorem Key_derivations {I O : Type} `{OrderedLaws O} (k : I -> O) (a b a' b' : I) :
  k a' = k a -> k b' = k b ->
  (Key.Eq k a b = negb (Key.Lt k a b) && negb (Key.Lt k b a) /\
   Key.Ne k a b = negb (Key.Eq k a b) /\
   Key.Le k a b = negb (Key.Lt k b a) /\
   Key.Ge k a b = negb (Key.Lt k a b) /\
   Key.Gt k a b = Key.Lt k b a /\
   (Key.Cmp k a b < 0 <-> Key.Lt k a b = true) /\
   (0 < Key.Cmp k a b <-> Key.Lt k b a = true) /\
   (Key.Cmp k a b = 0 <-> Key.Lt k a b = false /\ Key.Lt k b a = false)) /\
  (Key.Lt k a' b' = Key.Lt k a b /\
   Key.Le k a' b' = Key.Le k a b /\
   Key.Gt k a' b' = Key.Gt k a b /\
   Key.Ge k a' b' = Key.Ge k a b /\
   Key.Eq k a' b' = Key.Eq k a b /\
   Key.Ne k a' b' = Key.Ne k a b /\
   Key.Cmp k a' b' = Key.Cmp k a b).
Proof.
  intros Ha Hb. split.
  - pose proof (Key_Cmp_ThreeWay k) as Hc.
    split; [|split; [|split; [|split; [|split; [|split; [|split]]]]]].
    + unfold Key.Eq, Key.Lt. apply eql_lss.
    + unfold Key.Ne, Key.Eq. rewrite neq_lss, eql_lss. reflexivity.
    + unfold Key.Le, Key.Lt. apply leq_lss.
    + unfold Key.Ge, Key.Lt. apply geq_lss.
    + unfold Key.Gt, Key.Lt. apply gtr_lss.
    + apply (cmp_neg _ _ Hc).
    + apply (cmp_pos _ _ Hc).
    + destruct (Key_Cmp_cases k a b) as [(H1 & H2 & H3)|[(H1 & H2 & H3)|(H1 & H2 & H3)]];
        rewrite H1, H2, H3; split; try (intros [? ?]); try intros ?;
        try lia; try discriminate; auto.
  - unfold Key.Lt, Key.Le, Key.Gt, Key.Ge, Key.Eq, Key.Ne, Key.Cmp.
    rewrite Ha, Hb. repeat split.
Qed.

(** Pairs keyed by their first component: [(1, 5)] and [(1, 6)] have the
    key of [(1, 0)], and [(2, 0)] has its own. *)
Lemma Key_derivations_witness :
  (Key.Eq fst (1, 0) (2, 0) = negb (Key.Lt fst (1, 0) (2, 0)) && negb (Key.Lt fst (2, 0) (1, 0)) /\
   Key.Ne fst (1, 0) (2, 0) = negb (Key.Eq fst (1, 0) (2, 0)) /\
   Key.Le fst (1, 0) (2, 0) = negb (Key.Lt fst (2, 0) (1, 0)) /\
   Key.Ge fst (1, 0) (2, 0) = negb (Key.Lt fst (1, 0) (2, 0)) /\
   Key.Gt fst (1, 0) (2, 0) = Key.Lt fst (2, 0) (1, 0) /\
   (Key.Cmp fst (1, 0) (2, 0) < 0 <-> Key.Lt fst (1, 0) (2, 0) = true) /\
   (0 < Key.Cmp fst (1, 0) (2, 0) <-> Key.Lt fst (2, 0) (1, 0) = true) /\
   (Key.Cmp fst (1, 0) (2, 0) = 0 <->
    Key.Lt fst (1, 0) (2, 0) = false /\ Key.Lt fst (2, 0) (1, 0) = false)) /\
  (Key.Lt fst (1, 5) (2, 6) = Key.Lt fst (1, 0) (2, 0) /\
   Key.Le fst (1, 5) (2, 6) = Key.Le fst (1, 0) (2, 0) /\
   Key.Gt fst (1, 5) (2, 6) = Key.Gt fst (1, 0) (2, 0) /\
   Key.Ge fst (1, 5) (2, 6) = Key.Ge fst (1, 0) (2, 0) /\
   Key.Eq fst (1, 5) (2, 6) = Key.Eq fst (1, 0) (2, 0) /\
   Key.Ne fst (1, 5) (2, 6) = Key.Ne fst (1, 0) (2, 0) /\
   Key.Cmp fst (1, 5) (2, 6) = Key.Cmp fst (1, 0) (2, 0)).
Proof.
  apply (Key_derivations (fst : Z * Z -> Z) (1, 0) (2, 0) (1, 5) (2, 6));
    reflexivity.
Defined.

(** C7, as stated, fails on floating-point keys: with the identity as
    key and a NaN as both arguments neither is [Lt] the other, and yet
    [Eq], [Le] and [Ge] are false and [Cmp] is positive. *)
Lemma Key_derivations_fail_on_NaN :
  Key.Lt (fun x : float => x) PrimFloat.nan PrimFloat.nan = false /\
  Key.Eq (fun x : float => x) PrimFloat.nan PrimFloat.nan = false /\
  Key.Le (fun x : float => x) PrimFloat.nan PrimFloat.nan = false /\
  Key.Ge (fun x : float => x) PrimFloat.nan PrimFloat.nan = false /\
  Key.Cmp (fun x : float => x) PrimFloat.nan PrimFloat.nan = 1.
Proof. repeat split. Qed.

(** * The sorting routines of the model *)

Import Model.

#[local] Arguments Nat.div : simpl never.
#[local] Arguments Nat.modulo : simpl never.
#[local] Arguments Nat.min : simpl never.

Lemma ascending_app {E} (less : E -> E -> bool) (s1 s2 : list E) :
  ascending less (s1 ++ s2) <->
  ascending less s1 /\ ascending less s2 /\
  Forall (fun a => Forall (not_after less a) s2) s1.
Proof.
  induction s1 as [|a s1 IH]; simpl.
  - split.
    + intros H. split; [apply ascending_nil | split; [assumption | constructor]].
    + tauto.
  - rewrite !ascending_cons, IH, Forall_app, Forall_cons. tauto.
Qed.

Lemma ascending_singleton {E} (less : E -> E -> bool) (a : E) : ascending less [a].
Proof. apply ascending_cons. split; [constructor | apply ascending_nil]. Qed.

Lemma ascending_Permutation_Forall {E} (P : E -> Prop) (s t : list E) :
  Permutation s t -> Forall P s -> Forall P t.
Proof. intros Hp. rewrite !Forall_forall. intros H x Hx. apply H. rewrite Hp. exact Hx. Qed.

Lemma value_bind {A B} (m : counted A) (k : A -> counted B) :
  value (m ≫= k) = value (k (value m)).
Proof. reflexivity. Qed.

Lemma value_ret {A} (a : A) : value (mret a) = a.
Proof. reflexivity. Qed.

Lemma cost_ret {A} (a : A) : cost (mret a) = 0%nat.
Proof. reflexivity. Qed.

Lemma cost_bind {A B} (m : counted A) (k : A -> counted B) :
  cost (m ≫= k) = (cost m + cost (k (value m)))%nat.
Proof. reflexivity. Qed.

Lemma value_call {E} (less : E -> E -> bool) a b : value (call less a b) = less a b.
Proof. reflexivity. Qed.

Lemma cost_call {E} (less : E -> E -> bool) a b : cost (call less a b) = 1%nat.
Proof. reflexivity. Qed.

Create Rewrite HintDb counted.

#[local] Hint Rewrite @value_bind @value_ret @cost_ret @cost_bind @value_call @cost_call
  : counted.

(** One step through the binds of a counted computation. *)
Ltac csimp := repeat (progress (autorewrite with counted; cbv beta)).

Section ModelFacts.
Context {E : Type} (less : E -> E -> bool).

Local Open Scope nat_scope.

(** *** Bisection *)

Lemma bisect_boundary (g : nat -> bool) (f : nat -> counted bool) (n : nat) :
  (forall h, value (f h) = g h) ->
  forall fuel i j,
  i <= j -> j <= n -> j - i <= fuel ->
  (i = 0 \/ g (i - 1) = false) ->
  (j = n \/ g j = true) ->
  let r := value (bisect fuel f i j) in
  i <= r <= j /\ (r = 0 \/ g (r - 1) = false) /\ (r = n \/ g r = true).
Proof.
  intros Hf. induction fuel as [|fuel IH]; intros i j Hij Hjn Hfuel Hi Hj; simpl.
  - assert (i = j) as -> by lia. repeat split; auto.
  - destruct (Nat.ltb_spec i j) as [Hlt|Hge].
    2:{ simpl. assert (i = j) as -> by lia. repeat split; auto. }
    rewrite value_bind, Hf.
    pose proof (Nat.div_mod_eq (i + j) 2) as Hdiv.
    pose proof (Nat.mod_upper_bound (i + j) 2 ltac:(lia)) as Hmod.
    set (h := (i + j) / 2) in *.
    destruct (g h) eqn:Hg.
    + destruct (IH i h) as (Hr & Hlo & Hhi); [lia | lia | lia | exact Hi | right; exact Hg |].
      split; [lia | split; assumption].
    + destruct (IH (S h) j) as (Hr & Hlo & Hhi); [lia | lia | lia | | exact Hj |].
      { right. rewrite <- Hg. f_equal. lia. }
      split; [lia | split; assumption].
Qed.

Lemma bisect_cost (f : nat -> counted bool) :
  (forall h, cost (f h) <= 1) ->
  forall fuel i j, cost (bisect fuel f i j) <= fuel.
Proof.
  intros Hf. induction fuel as [|fuel IH]; intros i j; simpl; [lia|].
  destruct (i <? j); simpl; [|lia].
  specialize (Hf ((i + j) / 2)).
  destruct (value (f ((i + j) / 2))).
  - specialize (IH i ((i + j) / 2)). lia.
  - specialize (IH (S ((i + j) / 2)) j). lia.
Qed.

(** On a predicate that only ever turns from false to true the boundary
    is the threshold. *)
Lemma bisect_threshold (g : nat -> bool) (f : nat -> counted bool) (n : nat) :
  (forall h, value (f h) = g h) ->
  (forall a b, a <= b -> b < n -> g a = true -> g b = true) ->
  let r := value (bisect n f 0 n) in
  r <= n /\ (forall h, h < r -> g h = false) /\ (forall h, r <= h -> h < n -> g h = true).
Proof.
  intros Hf Hup.
  destruct (bisect_boundary g f n Hf n 0 n) as (Hr & Hlo & Hhi); auto; try lia.
  split; [lia|]. split.
  - intros h Hh. destruct Hlo as [Hlo|Hlo]; [lia|].
    destruct (g h) eqn:Hgh; [|reflexivity].
    assert (g (value (bisect n f 0 n) - 1) = true) as Hgr
      by (apply (Hup h); auto; lia).
    congruence.
  - intros h Hrh Hhn. destruct Hhi as [Hhi|Hhi]; [lia|].
    apply (Hup (value (bisect n f 0 n))); auto.
Qed.

Lemma less_than_at_value x s h :
  value (less_than_at less x s h) =
  match s !! h with Some y => less x y | None => true end.
Proof. unfold less_than_at. destruct (s !! h); reflexivity. Qed.

Lemma less_than_at_cost x s h : cost (less_than_at less x s h) <= 1.
Proof. unfold less_than_at. destruct (s !! h); simpl; lia. Qed.

Lemma not_less_at_value x s h :
  value (not_less_at less x s h) =
  match s !! h with Some y => negb (less y x) | None => true end.
Proof. unfold not_less_at. destruct (s !! h); reflexivity. Qed.

(** *** Insertion sort *)

Lemma insert_at_Permutation i x (s : list E) : Permutation (insert_at i x s) (x :: s).
Proof.
  unfold insert_at. rewrite <- Permutation_middle.
  rewrite take_drop. reflexivity.
Qed.

Lemma insert_at_length i x (s : list E) : length (insert_at i x s) = S (length s).
Proof. rewrite (Permutation_length (insert_at_Permutation i x s)). reflexivity. Qed.

Lemma insertionSort_from_Permutation rest : forall prefix,
  Permutation (value (insertionSort_from less prefix rest)) (prefix ++ rest).
Proof.
  induction rest as [|x rest IH]; intros prefix; simpl.
  - rewrite app_nil_r. reflexivity.
  - rewrite IH, insert_at_Permutation. apply Permutation_middle.
Qed.

Lemma insertionSort_Permutation s : Permutation (value (insertionSort less s)) s.
Proof. apply (insertionSort_from_Permutation s []). Qed.

Lemma insertionSort_from_cost rest : forall prefix,
  cost (insertionSort_from less prefix rest) <= length rest * (length prefix + length rest).
Proof.
  induction rest as [|x rest IH]; intros prefix; simpl; [lia|].
  pose proof (bisect_cost _ (less_than_at_cost x prefix) (length prefix) 0 (length prefix)) as Hb.
  specialize (IH (insert_at
    (value (bisect (length prefix) (less_than_at less x prefix) 0 (length prefix)))
    x prefix)).
  assert (length (insert_at
    (value (bisect (length prefix) (less_than_at less x prefix) 0 (length prefix)))
    x prefix) = S (length prefix)) as Hlen.
  { apply insert_at_length. }
  rewrite Hlen in IH. lia.
Qed.

Lemma insertionSort_cost s : cost (insertionSort less s) <= length s * length s.
Proof. apply (insertionSort_from_cost s []). Qed.

Section WithOrder.
Hypothesis Hswo : StrictWeakOrder less.

Lemma insert_position x s :
  ascending less s ->
  let r := value (bisect (length s) (less_than_at less x s) 0 (length s)) in
  r <= length s /\
  Forall (fun y => less x y = false) (take r s) /\
  Forall (fun y => less x y = true) (drop r s).
Proof.
  intros Hasc.
  destruct (bisect_threshold
              (fun h => match s !! h with Some y => less x y | None => true end)
              (less_than_at less x s) (length s)) as (Hr & Hlo & Hhi).
  { apply less_than_at_value. }
  { intros a b Hab Hb.
    destruct (lookup_lt_is_Some_2 s a ltac:(lia)) as [y Hy].
    destruct (lookup_lt_is_Some_2 s b Hb) as [z Hz].
    rewrite Hy, Hz. intros Hxy.
    destruct (Nat.eq_dec a b) as [->|Hne]; [congruence|].
    apply (less_not_less_trans less Hswo x y z Hxy).
    apply (Hasc a b y z); auto. lia. }
  set (r := value (bisect (length s) (less_than_at less x s) 0 (length s))) in *.
  split; [assumption|]. split.
  - apply Forall_lookup_2. intros h y Hy.
    pose proof (lookup_lt_Some _ _ _ Hy) as Hh. rewrite length_take in Hh.
    rewrite lookup_take_lt in Hy by lia.
    specialize (Hlo h ltac:(lia)). rewrite Hy in Hlo. exact Hlo.
  - apply Forall_lookup_2. intros h y Hy.
    rewrite lookup_drop in Hy.
    pose proof (lookup_lt_Some _ _ _ Hy) as Hh.
    specialize (Hhi (r + h) ltac:(lia) Hh). rewrite Hy in Hhi. exact Hhi.
Qed.

Lemma insert_at_ascending x s :
  ascending less s ->
  ascending less
    (insert_at (value (bisect (length s) (less_than_at less x s) 0 (length s))) x s).
Proof.
  intros Hasc. destruct (insert_position x s Hasc) as (Hr & Hlo & Hhi).
  unfold insert_at.
  rewrite <- (take_drop (value (bisect (length s) (less_than_at less x s) 0 (length s))) s)
    in Hasc.
  apply ascending_app in Hasc as (Ht & Hd & Hcross).
  apply ascending_app. split; [assumption|]. split.
  - apply ascending_cons. split; [|assumption].
    eapply Forall_impl; [exact Hhi|]. simpl. intros y Hxy.
    apply (swo_asym less Hswo). exact Hxy.
  - rewrite Forall_forall in Hcross, Hlo. apply Forall_forall. intros y Hy.
    constructor.
    + apply Hlo. exact Hy.
    + apply Hcross. exact Hy.
Qed.

Lemma insertionSort_from_ascending rest : forall prefix,
  ascending less prefix ->
  ascending less (value (insertionSort_from less prefix rest)).
Proof.
  induction rest as [|x rest IH]; intros prefix Hasc; simpl; [assumption|].
  apply IH. apply insert_at_ascending. assumption.
Qed.

Lemma insertionSort_ascending s : ascending less (value (insertionSort less s)).
Proof. apply insertionSort_from_ascending. apply ascending_nil. Qed.

(** A range that is in order already is left as it is. *)
Lemma insertionSort_from_fixed rest : forall prefix,
  ascending less (prefix ++ rest) ->
  value (insertionSort_from less prefix rest) = prefix ++ rest.
Proof.
  induction rest as [|x rest IH]; intros prefix Hasc; simpl.
  - rewrite app_nil_r. reflexivity.
  - assert (ascending less prefix) as Hp.
    { apply ascending_app in Hasc. tauto. }
    destruct (insert_position x prefix Hp) as (Hr & Hlo & Hhi).
    set (r := value (bisect (length prefix) (less_than_at less x prefix) 0
                       (length prefix))) in *.
    assert (r = length prefix) as Hrl.
    { destruct (Nat.eq_dec r (length prefix)) as [|Hne]; [assumption|exfalso].
      destruct (lookup_lt_is_Some_2 prefix r ltac:(lia)) as [y Hy].
      assert (less x y = true) as Hxy.
      { rewrite Forall_lookup in Hhi. apply (Hhi 0 y).
        rewrite lookup_drop, Nat.add_0_r. exact Hy. }
      rewrite (Hasc r (length prefix) y x) in Hxy; [discriminate|..].
      - apply lookup_lt_Some in Hy. exact Hy.
      - rewrite lookup_app_l by (apply lookup_lt_Some in Hy; exact Hy). exact Hy.
      - rewrite lookup_app_r by lia. rewrite Nat.sub_diag. reflexivity. }
    rewrite Hrl. unfold insert_at. rewrite firstn_all, drop_all.
    rewrite IH; rewrite <- app_assoc; [reflexivity | exact Hasc].
Qed.

Lemma insertionSort_fixed s : ascending less s -> value (insertionSort less s) = s.
Proof. intros Hasc. apply (insertionSort_from_fixed s []). exact Hasc. Qed.

End WithOrder.

End ModelFacts.

(** *** Heapsort *)

Section HeapFacts.
Context {E : Type} (less : E -> E -> bool).

Local Open Scope nat_scope.

Lemma make_elems (l : heap) (x : E) (r : heap) :
  Permutation (heap_elems (make l x r)) (x :: heap_elems l ++ heap_elems r).
Proof.
  unfold make. destruct (rank r <=? rank l); simpl; [reflexivity|].
  constructor. apply Permutation_app_comm.
Qed.

Lemma make_is_heap l x r :
  Forall (fun y => less x y = false) (heap_elems l ++ heap_elems r) ->
  is_heap less l -> is_heap less r -> is_heap less (make l x r).
Proof.
  intros Hall Hl Hr. unfold make. destruct (rank r <=? rank l); simpl.
  - auto.
  - split; [|auto]. rewrite Forall_app in *. tauto.
Qed.

Lemma make_leftist (l : heap) (x : E) (r : heap) : leftist l -> leftist r -> leftist (make l x r).
Proof.
  intros Hl Hr. unfold make.
  destruct (Nat.leb_spec (rank r) (rank l)); simpl; repeat split; auto; lia.
Qed.

Lemma make_rank (l : heap) (x : E) (r : heap) : rank (make l x r) = S (Nat.min (rank l) (rank r)).
Proof.
  unfold make. destruct (Nat.leb_spec (rank r) (rank l)); simpl; lia.
Qed.

Lemma merge_Leaf_r (a : heap) : merge less a Leaf = mret a.
Proof. destruct a; reflexivity. Qed.

Lemma merge_Leaf_l (b : heap) : merge less Leaf b = mret b.
Proof. destruct b; reflexivity. Qed.

Lemma merge_Node rk1 l1 x1 r1 rk2 l2 x2 r2 :
  merge less (Node rk1 l1 x1 r1) (Node rk2 l2 x2 r2) =
  (c ← call less x1 x2;
   if (c : bool) then m ← merge less (Node rk1 l1 x1 r1) r2; mret (make l2 x2 m)
   else m ← merge less r1 (Node rk2 l2 x2 r2); mret (make l1 x1 m)).
Proof. reflexivity. Qed.

(** Induction over the two heaps of a merge. *)
Lemma merge_ind (P : @heap E -> @heap E -> Prop) :
  (forall b, P Leaf b) ->
  (forall a, P a Leaf) ->
  (forall rk1 l1 x1 r1 rk2 l2 x2 r2,
     P (Node rk1 l1 x1 r1) r2 -> P r1 (Node rk2 l2 x2 r2) ->
     P (Node rk1 l1 x1 r1) (Node rk2 l2 x2 r2)) ->
  forall a b, P a b.
Proof.
  intros HL HR HN. induction a as [|rk1 l1 IHl1 x1 r1 IHr1]; [exact HL|].
  induction b as [|rk2 l2 IHl2 x2 r2 IHr2]; [apply HR|].
  apply HN; [exact IHr2 | apply IHr1].
Qed.

Lemma merge_elems : forall a b,
  Permutation (heap_elems (value (merge less a b))) (heap_elems a ++ heap_elems b).
Proof.
  apply (merge_ind (fun a b =>
    Permutation (heap_elems (value (merge less a b))) (heap_elems a ++ heap_elems b))).
  - intros b. rewrite merge_Leaf_l. reflexivity.
  - intros a. rewrite merge_Leaf_r. simpl. rewrite app_nil_r. reflexivity.
  - intros rk1 l1 x1 r1 rk2 l2 x2 r2 IH1 IH2.
    rewrite merge_Node, value_bind. simpl value at 2.
    destruct (less x1 x2).
    + rewrite value_bind. simpl value at 1. rewrite make_elems, IH1.
      remember (heap_elems (Node rk1 l1 x1 r1)) as A. simpl.
      rewrite <- Permutation_middle. apply perm_skip.
      rewrite !app_assoc. apply Permutation_app_tail. apply Permutation_app_comm.
    + rewrite value_bind. simpl value at 1. rewrite make_elems, IH2.
      simpl. apply perm_skip. rewrite <- !app_assoc. reflexivity.
Qed.

Lemma merge_leftist : forall a b,
  leftist a -> leftist b -> leftist (value (merge less a b)).
Proof.
  apply (merge_ind (fun a b =>
    leftist a -> leftist b -> leftist (value (merge less a b)))).
  - intros b _ Hb. rewrite merge_Leaf_l. exact Hb.
  - intros a Ha _. rewrite merge_Leaf_r. exact Ha.
  - intros rk1 l1 x1 r1 rk2 l2 x2 r2 IH1 IH2 Ha Hb.
    rewrite merge_Node, value_bind. simpl value at 2.
    destruct (less x1 x2); rewrite value_bind; simpl value at 1;
      apply make_leftist; simpl in Ha, Hb; try tauto.
    + apply IH1; [exact Ha | tauto].
    + apply IH2; [tauto | exact Hb].
Qed.

(** A merge walks down the two right spines. *)
Lemma merge_cost : forall a b,
  leftist a -> leftist b -> cost (merge less a b) <= rank a + rank b.
Proof.
  apply (merge_ind (fun a b => leftist a -> leftist b ->
    cost (merge less a b) <= rank a + rank b)).
  - intros b _ _. rewrite merge_Leaf_l. simpl. lia.
  - intros a _ _. rewrite merge_Leaf_r. simpl. lia.
  - intros rk1 l1 x1 r1 rk2 l2 x2 r2 IH1 IH2 Ha Hb.
    rewrite merge_Node, cost_bind. simpl value. simpl cost at 1.
    pose proof Ha as (Hrk1 & _ & _ & Hr1). pose proof Hb as (Hrk2 & _ & _ & Hr2).
    destruct (less x1 x2); rewrite cost_bind; simpl cost at 2.
    + specialize (IH1 Ha Hr2). simpl rank in *. lia.
    + specialize (IH2 Hr1 Hb). simpl rank in *. lia.
Qed.

Lemma leftist_rank_size (h : @heap E) :
  leftist h -> 2 ^ rank h <= S (length (heap_elems h)).
Proof.
  induction h as [|rk l IHl x r IHr]; simpl; [lia|].
  intros (-> & Hle & Hl & Hr). specialize (IHl Hl). specialize (IHr Hr).
  rewrite length_app.
  pose proof (Nat.pow_le_mono_r 2 (rank r) (rank l) ltac:(lia) Hle) as Hpow.
  rewrite Nat.pow_succ_r'. lia.
Qed.

Lemma leftist_rank_log (h : @heap E) (n : nat) :
  leftist h -> length (heap_elems h) <= n -> rank h <= Nat.log2 (S n).
Proof.
  intros Hh Hn. pose proof (leftist_rank_size h Hh) as Hpow.
  apply Nat.log2_le_pow2; lia.
Qed.

Lemma heapify_elems (s : list E) : Permutation (heap_elems (value (heapify less s))) s.
Proof.
  induction s as [|x s IH]; [reflexivity|].
  cbn [heapify]. rewrite value_bind, merge_elems. simpl. rewrite IH. reflexivity.
Qed.

Lemma heapify_leftist (s : list E) : leftist (value (heapify less s)).
Proof.
  induction s as [|x s IH]; [exact I|].
  cbn [heapify]. rewrite value_bind.
  apply merge_leftist; [simpl; auto | exact IH].
Qed.

Lemma heapify_cost (s : list E) :
  cost (heapify less s) <= length s * (1 + Nat.log2 (S (length s))).
Proof.
  induction s as [|x s IH]; simpl length; [simpl; lia|].
  cbn [heapify]. rewrite cost_bind.
  pose proof (merge_cost (Node 1 Leaf x Leaf) (value (heapify less s))
                ltac:(simpl; auto) (heapify_leftist s)) as Hm.
  pose proof (leftist_rank_log (value (heapify less s)) (S (length s)) (heapify_leftist s))
    as Hr.
  rewrite (Permutation_length (heapify_elems s)) in Hr. specialize (Hr ltac:(lia)).
  pose proof (Nat.log2_le_mono (S (length s)) (S (S (length s))) ltac:(lia)) as Hmono.
  simpl rank in Hm.
  transitivity (length s * (1 + Nat.log2 (S (S (length s)))) + (1 + Nat.log2 (S (S (length s))))).
  - apply Nat.add_le_mono; [|lia].
    etransitivity; [exact IH|]. apply Nat.mul_le_mono_l. lia.
  - lia.
Qed.

Lemma drain_Permutation fuel : forall (h : @heap E) acc,
  length (heap_elems h) <= fuel ->
  Permutation (value (drain less fuel h acc)) (heap_elems h ++ acc).
Proof.
  induction fuel as [|fuel IH]; intros h acc Hfuel.
  - destruct h; simpl in *; [reflexivity | lia].
  - destruct h as [|rk l x r]; [reflexivity|].
    cbn [drain]. rewrite value_bind.
    pose proof (merge_elems l r) as Hm.
    rewrite IH.
    + rewrite Hm. simpl. rewrite <- Permutation_middle. reflexivity.
    + rewrite (Permutation_length Hm). simpl in Hfuel. lia.
Qed.

Lemma drain_cost fuel : forall (h : @heap E) acc n,
  leftist h -> length (heap_elems h) <= n ->
  cost (drain less fuel h acc) <= fuel * (2 * Nat.log2 (S n)).
Proof.
  induction fuel as [|fuel IH]; intros h acc n Hh Hn.
  - destruct h; simpl; lia.
  - destruct h as [|rk l x r]; [simpl; lia|].
    cbn [drain]. rewrite cost_bind.
    destruct Hh as (_ & _ & Hl & Hr). simpl in Hn. rewrite length_app in Hn.
    pose proof (merge_cost l r Hl Hr) as Hm.
    pose proof (leftist_rank_log l n Hl ltac:(lia)) as Hrl.
    pose proof (leftist_rank_log r n Hr ltac:(lia)) as Hrr.
    specialize (IH (value (merge less l r)) (x :: acc) n (merge_leftist l r Hl Hr)).
    rewrite (Permutation_length (merge_elems l r)), length_app in IH.
    specialize (IH ltac:(lia)). lia.
Qed.

Lemma heapSort_Permutation (s : list E) : Permutation (value (heapSort less s)) s.
Proof.
  unfold heapSort. rewrite value_bind, drain_Permutation.
  - rewrite app_nil_r. apply heapify_elems.
  - rewrite (Permutation_length (heapify_elems s)). lia.
Qed.

Lemma heapSort_cost (s : list E) :
  cost (heapSort less s) <= length s * (1 + 3 * Nat.log2 (S (length s))).
Proof.
  unfold heapSort. rewrite cost_bind.
  pose proof (heapify_cost s) as Hh.
  pose proof (drain_cost (length s) (value (heapify less s)) [] (length s)
                (heapify_leftist s)) as Hd.
  rewrite (Permutation_length (heapify_elems s)) in Hd. specialize (Hd ltac:(lia)).
  lia.
Qed.

Section HeapOrder.
Hypothesis Hswo : StrictWeakOrder less.

Lemma merge_is_heap : forall a b,
  is_heap less a -> is_heap less b -> is_heap less (value (merge less a b)).
Proof.
  apply (merge_ind (fun a b =>
    is_heap less a -> is_heap less b -> is_heap less (value (merge less a b)))).
  - intros b _ Hb. rewrite merge_Leaf_l. exact Hb.
  - intros a Ha _. rewrite merge_Leaf_r. exact Ha.
  - intros rk1 l1 x1 r1 rk2 l2 x2 r2 IH1 IH2 Ha Hb.
    rewrite merge_Node, value_bind. simpl value at 2.
    pose proof Ha as (Hall1 & Hl1 & Hr1). pose proof Hb as (Hall2 & Hl2 & Hr2).
    rewrite Forall_app in Hall1, Hall2.
    destruct (less x1 x2) eqn:Hc; rewrite value_bind; cbv beta; rewrite value_ret;
      apply make_is_heap; auto.
    + rewrite Forall_app. split; [tauto|].
      eapply ascending_Permutation_Forall; [symmetry; apply merge_elems|].
      rewrite Forall_app. split; [|tauto]. simpl. constructor.
      * apply (swo_asym less Hswo). exact Hc.
      * rewrite Forall_app. destruct Hall1 as [H1 H2].
        split; (eapply Forall_impl; [eassumption|]); simpl; intros y Hy;
          apply (swo_asym less Hswo);
          apply (not_less_less_trans less Hswo y x1 x2 Hy Hc).
    + rewrite Forall_app. split; [tauto|].
      eapply ascending_Permutation_Forall; [symmetry; apply merge_elems|].
      rewrite Forall_app. split; [tauto|]. simpl. constructor.
      * exact Hc.
      * rewrite Forall_app. destruct Hall2 as [H1 H2].
        split; (eapply Forall_impl; [eassumption|]); simpl; intros y Hy;
          apply (not_less_trans less Hswo y x2 x1 Hy Hc).
Qed.

Lemma heapify_is_heap (s : list E) : is_heap less (value (heapify less s)).
Proof.
  induction s as [|x s IH]; [exact I|].
  cbn [heapify]. rewrite value_bind.
  apply merge_is_heap; [|exact IH]. simpl. auto.
Qed.

Lemma drain_ascending fuel : forall (h : @heap E) acc,
  is_heap less h -> ascending less acc ->
  Forall (fun y => Forall (not_after less y) acc) (heap_elems h) ->
  ascending less (value (drain less fuel h acc)).
Proof.
  induction fuel as [|fuel IH]; intros h acc Hh Hacc Hall.
  - destruct h; exact Hacc.
  - destruct h as [|rk l x r]; [exact Hacc|].
    cbn [drain]. rewrite value_bind.
    destruct Hh as (Hroot & Hl & Hr). simpl in Hall.
    apply Forall_cons in Hall as [Hx Hrest].
    apply IH.
    + apply merge_is_heap; assumption.
    + apply ascending_cons. split; assumption.
    + eapply ascending_Permutation_Forall; [symmetry; apply merge_elems|].
      rewrite Forall_forall in Hroot, Hrest. apply Forall_forall. intros y Hy.
      constructor; [apply Hroot; exact Hy | apply Hrest; exact Hy].
Qed.

Lemma heapSort_ascending (s : list E) : ascending less (value (heapSort less s)).
Proof.
  unfold heapSort. rewrite value_bind. apply drain_ascending.
  - apply heapify_is_heap.
  - apply ascending_nil.
  - apply Forall_forall. intros y _. constructor.
Qed.

End HeapOrder.

End HeapFacts.

(** *** Scan, pivot and partitions *)

Section PartitionFacts.
Context {E : Type} (less : E -> E -> bool).

Local Open Scope nat_scope.

Lemma run_increasing_value (x : E) (s : list E) :
  value (run_increasing less x s) = adjacent_check less (x :: s).
Proof.
  revert x. induction s as [|y s IH]; intros x; [reflexivity|].
  cbn [run_increasing]. rewrite value_bind. simpl value at 2.
  change (adjacent_check less (x :: y :: s))
    with (negb (less y x) && adjacent_check less (y :: s)).
  destruct (less y x); simpl; [reflexivity | apply IH].
Qed.

Lemma run_decreasing_value (x : E) (s : list E) :
  value (run_decreasing less x s) = descending_check less (x :: s).
Proof.
  revert x. induction s as [|y s IH]; intros x; [reflexivity|].
  cbn [run_decreasing]. rewrite value_bind. simpl value at 2.
  change (descending_check less (x :: y :: s))
    with (less y x && descending_check less (y :: s)).
  destruct (less y x); simpl; [apply IH | reflexivity].
Qed.

Lemma run_increasing_cost (x : E) (s : list E) :
  cost (run_increasing less x s) <= length s.
Proof.
  revert x. induction s as [|y s IH]; intros x; [simpl; lia|].
  cbn [run_increasing]. rewrite cost_bind. simpl value. simpl cost at 1.
  destruct (less y x); [simpl; lia|]. specialize (IH y). simpl length. lia.
Qed.

Lemma run_decreasing_cost (x : E) (s : list E) :
  cost (run_decreasing less x s) <= length s.
Proof.
  revert x. induction s as [|y s IH]; intros x; [simpl; lia|].
  cbn [run_decreasing]. rewrite cost_bind. simpl value. simpl cost at 1.
  destruct (less y x); [|simpl; lia]. specialize (IH y). simpl length. lia.
Qed.

Lemma scanHint_increasing (s : list E) :
  value (scanHint less s) = increasingHint <-> adjacent_check less s = true.
Proof.
  destruct s as [|x [|y s]]; [split; reflexivity | split; reflexivity |].
  unfold scanHint. rewrite value_bind. simpl value at 2.
  change (adjacent_check less (x :: y :: s))
    with (negb (less y x) && adjacent_check less (y :: s)).
  destruct (less y x); rewrite value_bind, value_ret.
  - generalize (value (run_decreasing less y s)).
    intros [|]; simpl; split; discriminate.
  - rewrite run_increasing_value. generalize (adjacent_check less (y :: s)).
    intros [|]; simpl; split; try discriminate; reflexivity.
Qed.

Lemma scanHint_decreasing (s : list E) :
  value (scanHint less s) = decreasingHint -> descending_check less s = true.
Proof.
  destruct s as [|x [|y s]]; [discriminate | discriminate |].
  unfold scanHint. rewrite value_bind. simpl value at 2.
  change (descending_check less (x :: y :: s))
    with (less y x && descending_check less (y :: s)).
  destruct (less y x); rewrite value_bind, value_ret.
  - rewrite run_decreasing_value. generalize (descending_check less (y :: s)).
    intros [|]; simpl; [reflexivity | discriminate].
  - generalize (value (run_increasing less y s)). intros [|]; discriminate.
Qed.

Lemma scanHint_cost (s : list E) : cost (scanHint less s) <= length s.
Proof.
  destruct s as [|x [|y s]]; [simpl; lia | simpl; lia |].
  unfold scanHint. rewrite cost_bind. simpl value. simpl cost at 1.
  pose proof (run_decreasing_cost y s). pose proof (run_increasing_cost y s).
  destruct (less y x); rewrite cost_bind, cost_ret; simpl length; lia.
Qed.

Lemma less_at_cost (s : list E) i j : cost (less_at less s i j) <= 1.
Proof. unfold less_at. destruct (s !! i), (s !! j); simpl; lia. Qed.

Lemma median3_cost (s : list E) a b c : cost (median3 less s a b c) <= 3.
Proof.
  unfold median3. rewrite cost_bind.
  pose proof (less_at_cost s b a) as H1.
  destruct (value (less_at less s b a)).
  - rewrite cost_bind. pose proof (less_at_cost s c a) as H2.
    destruct (value (less_at less s c a)).
    + rewrite cost_bind, cost_ret. pose proof (less_at_cost s c b). lia.
    + rewrite cost_ret. lia.
  - rewrite cost_bind. pose proof (less_at_cost s c b) as H2.
    destruct (value (less_at less s c b)).
    + rewrite cost_bind, cost_ret. pose proof (less_at_cost s c a). lia.
    + rewrite cost_ret. lia.
Qed.

Lemma choosePivot_cost (s : list E) : cost (choosePivot less s) <= 12.
Proof.
  unfold choosePivot. rewrite !cost_bind.
  repeat match goal with
         | |- context [cost (median3 less ?s ?a ?b ?c)] =>
             let H := fresh in
             pose proof (median3_cost s a b c) as H;
             generalize dependent (median3 less s a b c); intros
         end.
  lia.
Qed.

Lemma partition_spec (p : E) (s : list E) : forall seen,
  let '(le, gt, _) := value (partition less p s seen) in
  Permutation (le ++ gt) s /\
  Forall (fun x => less p x = false) le /\
  Forall (fun x => less p x = true) gt.
Proof.
  induction s as [|x s IH]; intros seen.
  - simpl. auto.
  - cbn [partition]. csimp.
    specialize (IH (seen || less p x)).
    destruct (value (partition less p s (seen || less p x))) as [[le gt] sw].
    csimp. destruct IH as (Hperm & Hle & Hgt).
    destruct (less p x) eqn:Hpx.
    + split; [|split; [assumption | constructor; assumption]].
      rewrite <- Permutation_middle. constructor. assumption.
    + split; [|split; [constructor; assumption | assumption]].
      simpl. constructor. assumption.
Qed.

Lemma partition_cost (p : E) (s : list E) : forall seen,
  cost (partition less p s seen) = length s.
Proof.
  induction s as [|x s IH]; intros seen; [reflexivity|].
  cbn [partition]. csimp. rewrite IH.
  destruct (value (partition less p s (seen || less p x))) as [[le gt] sw].
  csimp. simpl. lia.
Qed.

Lemma partition3_spec (p : E) (s : list E) :
  let '(lt, eq, gt) := value (partition3 less p s) in
  Permutation (lt ++ eq ++ gt) s /\
  Forall (fun x => less x p = true) lt /\
  Forall (fun x => less x p = false /\ less p x = false) eq /\
  Forall (fun x => less p x = true) gt.
Proof.
  induction s as [|x s IH].
  - simpl. auto.
  - cbn [partition3]. csimp.
    destruct (value (partition3 less p s)) as [[lt eq] gt].
    destruct IH as (Hperm & Hlt & Heq & Hgt). csimp.
    destruct (less x p) eqn:Hxp; csimp.
    + repeat split; auto. simpl. constructor. assumption.
    + destruct (less p x) eqn:Hpx.
      * repeat split; auto.
        rewrite app_assoc, <- Permutation_middle, <- app_assoc.
        constructor. assumption.
      * repeat split; auto.
        simpl. rewrite <- Permutation_middle. constructor. assumption.
Qed.

Lemma partition3_cost (p : E) (s : list E) :
  cost (partition3 less p s) <= 2 * length s.
Proof.
  induction s as [|x s IH]; [simpl; lia|].
  cbn [partition3]. csimp.
  destruct (value (partition3 less p s)) as [[lt eq] gt]. csimp.
  destruct (less x p); csimp; simpl length; lia.
Qed.

End PartitionFacts.

(** *** The adaptive sort *)

Section PdqsortFacts.
Context {E : Type} (less : E -> E -> bool).

Local Open Scope nat_scope.

Lemma pdqsort_S fuel (s : list E) limit :
  pdqsort less (S fuel) s limit =
  if length s <=? small_range then insertionSort less s
  else if limit =? 0 then heapSort less s
  else
    hint ← scanHint less s;
    match hint with
    | increasingHint => mret s
    | decreasingHint => mret (rev s)
    | unknownHint =>
        i ← choosePivot less s;
        match s !! i with
        | None => heapSort less s
        | Some p =>
            let rest := take i s ++ drop (S i) s in
            '(le, gt, swapped) ← partition less p rest false;
            if length s / unbalanced_fraction <=? Nat.min (length le) (length gt)
            then
              again ← (if (swapped : bool) then mret unknownHint
                       else scanHint less (le ++ p :: gt));
              match again with
              | increasingHint => mret (le ++ p :: gt)
              | _ =>
                  a ← pdqsort less fuel le limit;
                  b ← pdqsort less fuel gt limit;
                  mret (a ++ p :: b)
              end
            else
              '(lt, eq, gt3) ← partition3 less p rest;
              a ← pdqsort less fuel lt (limit - 1);
              b ← pdqsort less fuel gt3 (limit - 1);
              mret (a ++ eq ++ p :: b)
        end
    end.
Proof. reflexivity. Qed.

Lemma without_pivot (s : list E) i p :
  s !! i = Some p -> Permutation (p :: take i s ++ drop (S i) s) s.
Proof.
  intros Hp. rewrite <- (take_drop_middle s i p Hp) at 3.
  apply Permutation_middle.
Qed.

Lemma pdqsort_Permutation fuel : forall (s : list E) limit,
  Permutation (value (pdqsort less fuel s limit)) s.
Proof.
  induction fuel as [|fuel IH]; intros s limit; [reflexivity|].
  rewrite pdqsort_S.
  destruct (length s <=? small_range); [apply insertionSort_Permutation|].
  destruct (limit =? 0); [apply heapSort_Permutation|].
  csimp. destruct (value (scanHint less s)); csimp.
  - destruct (s !! value (choosePivot less s)) as [p|] eqn:Hp;
      [|apply heapSort_Permutation].
    csimp. transitivity (p :: take (value (choosePivot less s)) s
                               ++ drop (S (value (choosePivot less s))) s);
      [|exact (without_pivot s _ p Hp)].
    generalize (take (value (choosePivot less s)) s
                ++ drop (S (value (choosePivot less s))) s).
    intros rest.
    pose proof (partition_spec less p rest false) as Hpart.
    destruct (value (partition less p rest false)) as [[le gt] sw].
    destruct Hpart as (Hperm & _ & _).
    destruct (length s / unbalanced_fraction <=? Nat.min (length le) (length gt)); csimp.
    + transitivity (p :: le ++ gt); [|constructor; exact Hperm].
      destruct (value (if sw then mret unknownHint else scanHint less (le ++ p :: gt)));
        csimp; rewrite ?IH; rewrite <- Permutation_middle; reflexivity.
    + pose proof (partition3_spec less p rest) as Hp3.
      destruct (value (partition3 less p rest)) as [[lt eq] gt3].
      destruct Hp3 as (Hperm3 & _). csimp. rewrite !IH.
      transitivity (p :: lt ++ eq ++ gt3); [|constructor; exact Hperm3].
      rewrite !app_assoc, <- Permutation_middle, <- !app_assoc. reflexivity.
  - reflexivity.
  - symmetry. apply Permutation_rev.
Qed.

Lemma without_pivot_length (s : list E) i p :
  s !! i = Some p -> S (length (take i s ++ drop (S i) s)) = length s.
Proof.
  intros Hp. apply (Permutation_length (without_pivot s i p Hp)).
Qed.

Section PdqsortOrder.
Hypothesis Hswo : StrictWeakOrder less.

Lemma descending_check_below (a : E) (s : list E) :
  descending_check less (a :: s) = true -> Forall (fun x => less x a = true) s.
Proof.
  revert a. induction s as [|b s IH]; intros a Hd; [constructor|].
  change (descending_check less (a :: b :: s))
    with (less b a && descending_check less (b :: s)) in Hd.
  apply andb_true_iff in Hd as [Hba Hd]. constructor; [exact Hba|].
  eapply Forall_impl; [apply (IH b Hd)|]. simpl. intros x Hxb.
  exact (swo_trans less Hswo x b a Hxb Hba).
Qed.

Lemma descending_check_tail (a : E) (s : list E) :
  descending_check less (a :: s) = true -> descending_check less s = true.
Proof.
  destruct s as [|b s]; [reflexivity|].
  change (descending_check less (a :: b :: s))
    with (less b a && descending_check less (b :: s)).
  intros Hd. apply andb_true_iff in Hd. tauto.
Qed.

(** A range in reverse order is in order once reversed. *)
Lemma descending_check_rev (s : list E) :
  descending_check less s = true -> ascending less (rev s).
Proof.
  induction s as [|a s IH]; intros Hd; [apply ascending_nil|].
  simpl rev. apply ascending_app.
  split; [apply IH; apply (descending_check_tail a s Hd)|].
  split; [apply ascending_singleton|].
  pose proof (descending_check_below a s Hd) as Hbelow.
  apply Forall_forall. intros x Hx. constructor; [|constructor].
  unfold not_after. apply (swo_asym less Hswo).
  rewrite Forall_forall in Hbelow. apply Hbelow.
  apply list_elem_of_In. apply in_rev. apply list_elem_of_In. exact Hx.
Qed.

Lemma ascending_around (a b : list E) (p : E) :
  ascending less a -> ascending less b ->
  Forall (fun x => less p x = false) a ->
  Forall (fun y => less p y = true) b ->
  ascending less (a ++ p :: b).
Proof.
  intros Ha Hb Hle Hgt. apply ascending_app. split; [exact Ha|]. split.
  - apply ascending_cons. split; [|exact Hb].
    eapply Forall_impl; [exact Hgt|]. simpl. intros y Hpy.
    apply (swo_asym less Hswo). exact Hpy.
  - eapply Forall_impl; [exact Hle|]. simpl. intros x Hpx.
    constructor; [exact Hpx|].
    eapply Forall_impl; [exact Hgt|]. simpl. intros y Hpy.
    apply (swo_asym less Hswo).
    exact (not_less_less_trans less Hswo x p y Hpx Hpy).
Qed.

Lemma equivalent_ascending (q : list E) (p : E) :
  Forall (fun x => less x p = false /\ less p x = false) q -> ascending less q.
Proof.
  intros Hq i j x y _ Hx Hy.
  rewrite Forall_lookup in Hq.
  destruct (Hq i x Hx) as [Hxp Hpx]. destruct (Hq j y Hy) as [Hyp Hpy].
  apply (swo_incomp less Hswo y p x); assumption.
Qed.

Lemma ascending_around3 (a q b : list E) (p : E) :
  ascending less a -> ascending less b ->
  Forall (fun x => less x p = true) a ->
  Forall (fun x => less x p = false /\ less p x = false) q ->
  Forall (fun y => less p y = true) b ->
  ascending less (a ++ q ++ p :: b).
Proof.
  intros Ha Hb Hlt Hq Hgt.
  assert (Forall (fun x => less p x = false) (a ++ q)) as Hle.
  { apply Forall_app. split.
    - eapply Forall_impl; [exact Hlt|]. simpl. intros x Hxp.
      apply (swo_asym less Hswo). exact Hxp.
    - eapply Forall_impl; [exact Hq|]. simpl. tauto. }
  rewrite app_assoc. apply ascending_around; auto.
  apply ascending_app. split; [exact Ha|].
  split; [exact (equivalent_ascending q p Hq)|].
  eapply Forall_impl; [exact Hlt|]. simpl. intros x Hxp.
  eapply Forall_impl; [exact Hq|]. simpl. intros y [Hyp Hpy].
  unfold not_after. destruct (less y x) eqn:Hyx; [|reflexivity].
  rewrite (swo_trans less Hswo y x p Hyx Hxp) in Hyp. discriminate.
Qed.

Lemma pdqsort_ascending fuel : forall (s : list E) limit,
  length s <= fuel -> ascending less (value (pdqsort less fuel s limit)).
Proof.
  induction fuel as [|fuel IH]; intros s limit Hfuel.
  { destruct s; [apply ascending_nil | simpl in Hfuel; lia]. }
  rewrite pdqsort_S.
  destruct (length s <=? small_range); [apply insertionSort_ascending; exact Hswo|].
  destruct (limit =? 0); [apply heapSort_ascending; exact Hswo|].
  csimp. destruct (value (scanHint less s)) eqn:Hhint; csimp.
  - destruct (s !! value (choosePivot less s)) as [p|] eqn:Hp;
      [|apply heapSort_ascending; exact Hswo].
    csimp. pose proof (without_pivot_length s _ p Hp) as Hlen.
    revert Hlen.
    generalize (take (value (choosePivot less s)) s
                ++ drop (S (value (choosePivot less s))) s).
    intros rest Hlen.
    pose proof (partition_spec less p rest false) as Hpart.
    destruct (value (partition less p rest false)) as [[le gt] sw].
    destruct Hpart as (Hperm & Hle & Hgt).
    pose proof (Permutation_length Hperm) as Hl. rewrite length_app in Hl.
    destruct (length s / unbalanced_fraction <=? Nat.min (length le) (length gt)); csimp.
    + assert (ascending less
                (value (pdqsort less fuel le limit)
                 ++ p :: value (pdqsort less fuel gt limit))) as Hrec.
      { apply ascending_around.
        - apply IH. lia.
        - apply IH. lia.
        - rewrite pdqsort_Permutation. exact Hle.
        - rewrite pdqsort_Permutation. exact Hgt. }
      destruct (value (if sw then mret unknownHint else scanHint less (le ++ p :: gt)))
        eqn:Hagain; csimp; try exact Hrec.
      destruct sw; [discriminate|].
      apply adjacent_check_ascending; [exact Hswo|].
      apply scanHint_increasing. exact Hagain.
    + pose proof (partition3_spec less p rest) as Hp3.
      destruct (value (partition3 less p rest)) as [[lt q] gt3].
      destruct Hp3 as (Hperm3 & Hlt3 & Hq3 & Hgt3). csimp.
      pose proof (Permutation_length Hperm3) as Hl3. rewrite !length_app in Hl3.
      apply ascending_around3; auto.
      * apply IH. lia.
      * apply IH. lia.
      * rewrite pdqsort_Permutation. exact Hlt3.
      * rewrite pdqsort_Permutation. exact Hgt3.
  - apply adjacent_check_ascending; [exact Hswo|].
    apply scanHint_increasing. exact Hhint.
  - apply descending_check_rev. apply scanHint_decreasing. exact Hhint.
Qed.

(** A range that is in order already comes back as it is, unless the
    budget is used up. *)
Lemma pdqsort_fixed fuel (s : list E) limit :
  ascending less s -> (limit <> 0 \/ length s <= small_range) ->
  value (pdqsort less fuel s limit) = s.
Proof.
  intros Hasc Hlimit. destruct fuel as [|fuel]; [reflexivity|].
  rewrite pdqsort_S.
  destruct (Nat.leb_spec (length s) small_range) as [Hsmall|Hbig].
  { apply insertionSort_fixed; assumption. }
  destruct (Nat.eqb_spec limit 0) as [->|Hne]; [lia|].
  csimp.
  assert (value (scanHint less s) = increasingHint) as ->.
  { apply scanHint_increasing. apply adjacent_check_spec.
    apply ascending_adjacent. exact Hasc. }
  reflexivity.
Qed.

End PdqsortOrder.

End PdqsortFacts.

(** * Slices in the store *)

Section StoreFacts.
Context {E : Type}.
Implicit Types (st : gmap loc (list E)) (s : slice) (data : list E).

Local Open Scope nat_scope.

Lemma contents_length st s : valid st s ->
  length (contents st s) = match s with Nil => 0 | Slice _ _ n => n end.
Proof.
  destruct s as [|base off n]; [reflexivity|].
  intros (arr & Harr & Hlen). simpl. rewrite Harr.
  rewrite length_take, length_drop. lia.
Qed.

(** After an assignment of as many elements as the slice has, the slice
    holds them. *)
Lemma contents_assign st s data :
  valid st s -> length data = length (contents st s) ->
  contents (assign st s data) s = data.
Proof.
  intros Hv Hlen. rewrite (contents_length st s Hv) in Hlen.
  destruct s as [|base off n]; simpl.
  - destruct data; [reflexivity | discriminate].
  - destruct Hv as (arr & Harr & Hbound). rewrite Harr.
    rewrite lookup_insert_eq.
    rewrite drop_app_length' by (rewrite length_take; lia).
    rewrite take_app_length' by (rewrite length_take; lia).
    apply firstn_all2. lia.
Qed.

(** An assignment changes the array of the slice only. *)
Lemma assign_other st s data (b : loc) :
  match s with Nil => True | Slice base _ _ => b <> base end ->
  assign st s data !! b = st !! b.
Proof.
  destruct s as [|base off n]; [reflexivity|]. simpl. intros Hne.
  destruct (st !! base); [|reflexivity].
  apply lookup_insert_ne. congruence.
Qed.

(** Assigning to a slice what it holds changes nothing. *)
Lemma assign_contents st s : assign st s (contents st s) = st.
Proof.
  destruct s as [|base off n]; [reflexivity|]. simpl.
  destruct (st !! base) as [arr|] eqn:Harr; [|reflexivity].
  apply insert_id. rewrite Harr. f_equal.
  rewrite take_take, Nat.min_id.
  rewrite <- drop_drop, take_drop, take_drop. reflexivity.
Qed.

Lemma valid_assign st s data :
  valid st s -> length data = length (contents st s) -> valid (assign st s data) s.
Proof.
  intros Hv Hlen. rewrite (contents_length st s Hv) in Hlen.
  destruct s as [|base off n]; [auto|]. destruct Hv as (arr & Harr & Hbound). simpl.
  rewrite Harr. eexists. rewrite lookup_insert_eq. split; [reflexivity|].
  rewrite !length_app, !length_take, length_drop. lia.
Qed.

Lemma Clone_spec st s : valid st s ->
  let '(y, st1) := Clone s st in
  valid st1 y /\
  contents st1 y = contents st s /\
  (forall b arr, st !! b = Some arr -> st1 !! b = Some arr) /\
  match y with
  | Nil => s = Nil /\ st1 = st
  | Slice base _ _ => s <> Nil /\ st !! base = None
  end.
Proof.
  intros Hv. destruct s as [|base0 off n]; simpl; [auto|].
  pose proof (is_fresh (dom st)) as Hfresh.
  apply not_elem_of_dom in Hfresh.
  pose proof (contents_length st (Slice base0 off n) Hv) as Hlen. simpl in Hlen.
  repeat split.
  - eexists. rewrite lookup_insert_eq. split; [reflexivity|]. lia.
  - rewrite lookup_insert_eq. simpl. rewrite drop_0. apply firstn_all2. lia.
  - intros b arr Hb. rewrite lookup_insert_ne; [exact Hb|]. congruence.
  - discriminate.
  - exact Hfresh.
Qed.

End StoreFacts.

(** * The exported functions over the model *)

Section SortFacts.
Context {E : Type}.
Implicit Types (st : gmap loc (list E)) (x : slice) (data : list E).

Lemma pdqsortLessFunc_value data limit (less : E -> E -> bool) :
  value (Model.pdqsortLessFunc data 0 (len data) limit less) =
  value (pdqsort less (length data) data (Z.to_nat limit)).
Proof.
  unfold Model.pdqsortLessFunc, len. csimp.
  rewrite Nat2Z.id. change (Z.to_nat 0) with 0%nat.
  rewrite Nat.sub_0_r, drop_0, firstn_all, drop_all, app_nil_r. reflexivity.
Qed.

Lemma pdqsortLessFunc_cost data limit (less : E -> E -> bool) :
  cost (Model.pdqsortLessFunc data 0 (len data) limit less) =
  cost (pdqsort less (length data) data (Z.to_nat limit)).
Proof.
  unfold Model.pdqsortLessFunc, len. csimp.
  rewrite Nat2Z.id. change (Z.to_nat 0) with 0%nat.
  rewrite Nat.sub_0_r, drop_0, firstn_all. lia.
Qed.

Lemma pdqsortLessFunc_Permutation data limit (less : E -> E -> bool) :
  Permutation (value (Model.pdqsortLessFunc data 0 (len data) limit less)) data.
Proof. rewrite pdqsortLessFunc_value. apply pdqsort_Permutation. Qed.

Lemma pdqsortLessFunc_ascending data limit (less : E -> E -> bool) :
  StrictWeakOrder less ->
  ascending less (value (Model.pdqsortLessFunc data 0 (len data) limit less)).
Proof.
  intros Hswo. rewrite pdqsortLessFunc_value. apply pdqsort_ascending; auto.
Qed.

(** The budget that [Sort] and [SortFunc] pass is positive on every
    slice that is not empty. *)
Lemma budget_positive data :
  len data < 2 ^ 63 ->
  Z.to_nat (bits_Len (to_uint (len data))) <> 0%nat \/ (length data <= small_range)%nat.
Proof.
  intros Hlen. destruct data as [|a data]; [right; simpl; lia|]. left.
  unfold to_uint. rewrite Z.mod_small by (unfold len in *; simpl length in *; lia).
  unfold bits_Len. destruct (Z.leb_spec (len (a :: data)) 0) as [Hle|Hgt].
  - unfold len in Hle. simpl length in Hle. lia.
  - pose proof (Z.log2_nonneg (len (a :: data))). lia.
Qed.

Lemma pdqsortLessFunc_fixed data (less : E -> E -> bool) :
  StrictWeakOrder less -> len data < 2 ^ 63 -> ascending less data ->
  value (Model.pdqsortLessFunc data 0 (len data)
           (bits_Len (to_uint (len data))) less) = data.
Proof.
  intros Hswo Hlen Hasc. rewrite pdqsortLessFunc_value.
  apply pdqsort_fixed; auto. apply budget_positive. exact Hlen.
Qed.

Lemma SortFunc_value (pdq : list E -> Z -> Z -> Z -> (E -> E -> bool) -> counted (list E))
  less x st :
  value (SortFunc pdq less x st) =
  assign st x (value (pdq (contents st x) 0 (len (contents st x))
                        (bits_Len (to_uint (len (contents st x)))) less)).
Proof. reflexivity. Qed.

Lemma Sort_value (pdq : list E -> Z -> Z -> Z -> counted (list E)) x st :
  value (Sort pdq x st) =
  assign st x (value (pdq (contents st x) 0 (len (contents st x))
                        (bits_Len (to_uint (len (contents st x)))))).
Proof. reflexivity. Qed.

Lemma IsSortedFunc_true (less : E -> E -> bool) data :
  StrictWeakOrder less -> ascending less data -> IsSortedFunc less data = Returned true.
Proof.
  intros Hswo Hasc. destruct (IsSortedFunc_ascending less data Hswo) as (b & Hb & Hiff).
  rewrite Hb. f_equal. apply Hiff. exact Hasc.
Qed.

(** What [SortFunc] leaves in the slice, for the model's routine. *)
Lemma SortFunc_sorts (less : E -> E -> bool) x st :
  StrictWeakOrder less -> valid st x ->
  Permutation (contents (value (SortFunc Model.pdqsortLessFunc less x st)) x)
              (contents st x) /\
  ascending less (contents (value (SortFunc Model.pdqsortLessFunc less x st)) x).
Proof.
  intros Hswo Hv. rewrite SortFunc_value.
  rewrite contents_assign; auto.
  - split; [apply pdqsortLessFunc_Permutation | apply pdqsortLessFunc_ascending; auto].
  - apply Permutation_length. apply pdqsortLessFunc_Permutation.
Qed.

Lemma Sort_SortFunc `{Ordered E} x st :
  Sort Model.pdqsortOrdered x st = SortFunc Model.pdqsortLessFunc lss x st.
Proof. reflexivity. Qed.

End SortFacts.

(** C1.  After [SortFunc(less, S)] with a strict weak ordering [less],
    and after [Sort(S)] on an element type whose [<] is one, the slice
    holds a permutation of what it held (the same elements as many times
    each, hence the same length) and has no inversion, so [IsSortedFunc]
    and [IsSorted] return true on it. *)
Theorem Sort_sorts {E : Type} `{Ordered E} (less : E -> E -> bool)
  (x x' : slice) (st st' : gmap loc (list E)) :
  StrictWeakOrder less -> valid st x ->
  StrictWeakOrder (lss : E -> E -> bool) -> valid st' x' ->
  (let after := value (SortFunc Model.pdqsortLessFunc less x st) in
   Permutation (contents after x) (contents st x) /\
   length (contents after x) = length (contents st x) /\
   ascending less (contents after x) /\
   IsSortedFunc less (contents after x) = Returned true) /\
  (let after := value (Sort Model.pdqsortOrdered x' st') in
   Permutation (contents after x') (contents st' x') /\
   length (contents after x') = length (contents st' x') /\
   ascending lss (contents after x') /\
   IsSorted (contents after x') = Returned true).
Proof.
  intros Hless Hv Hlss Hv'. split; cbv zeta.
  - destruct (SortFunc_sorts less x st Hless Hv) as [Hperm Hasc].
    repeat split; auto.
    + apply Permutation_length. exact Hperm.
    + apply IsSortedFunc_true; assumption.
  - rewrite Sort_SortFunc.
    destruct (SortFunc_sorts lss x' st' Hlss Hv') as [Hperm Hasc].
    repeat split; auto.
    + apply Permutation_length. exact Hperm.
    + rewrite IsSorted_IsSortedFunc. apply IsSortedFunc_true; assumption.
Qed.

(** The scenarios of the specification: [SortFunc(descending, [3,1,2])]
    on a window of a longer array, and [Sort([3,1,2])]. *)
Lemma Sort_sorts_witness :
  (let after := value (SortFunc Model.pdqsortLessFunc (fun a b => b <? a) (Slice 1 1 3)
                         {[1%positive := [9; 3; 1; 2; 0]]}) in
   Permutation (contents after (Slice 1 1 3))
     (contents {[1%positive := [9; 3; 1; 2; 0]]} (Slice 1 1 3)) /\
   length (contents after (Slice 1 1 3))
   = length (contents ({[1%positive := [9; 3; 1; 2; 0]]} : gmap loc (list Z)) (Slice 1 1 3)) /\
   ascending (fun a b => b <? a) (contents after (Slice 1 1 3)) /\
   IsSortedFunc (fun a b => b <? a) (contents after (Slice 1 1 3)) = Returned true) /\
  (let after := value (Sort Model.pdqsortOrdered (Slice 2 0 3)
                         {[2%positive := [3; 1; 2]]}) in
   Permutation (contents after (Slice 2 0 3))
     (contents {[2%positive := [3; 1; 2]]} (Slice 2 0 3)) /\
   length (contents after (Slice 2 0 3))
   = length (contents ({[2%positive := [3; 1; 2]]} : gmap loc (list Z)) (Slice 2 0 3)) /\
   ascending lss (contents after (Slice 2 0 3)) /\
   IsSorted (contents after (Slice 2 0 3)) = Returned true).
Proof.
  apply (Sort_sorts (fun a b => b <? a) (Slice 1 1 3) (Slice 2 0 3)
           {[1%positive := [9; 3; 1; 2; 0]]} {[2%positive := [3; 1; 2]]}).
  - split.
    + intros a. apply Z.ltb_irrefl.
    + intros a b c. rewrite !Z.ltb_lt. lia.
    + intros a b c. rewrite !Z.ltb_ge. lia.
  - exists [9; 3; 1; 2; 0]. split; [reflexivity | simpl; lia].
  - exact Z_ltb_swo.
  - exists [3; 1; 2]. split; [reflexivity | simpl; lia].
Defined.

(** C8.  Sorting a slice that [Sort] has sorted leaves every element
    where it is: the second call finds the range in order and returns.
    The element type is one whose [<] is a strict weak ordering, and the
    slice has a length that an [int] holds. *)
Theorem Sort_idempotent {E : Type} `{Ordered E} (x : slice) (st : gmap loc (list E)) :
  StrictWeakOrder (lss : E -> E -> bool) -> valid st x ->
  len (contents st x) < 2 ^ 63 ->
  let once := value (Sort Model.pdqsortOrdered x st) in
  let twice := value (Sort Model.pdqsortOrdered x once) in
  contents twice x = contents once x /\ twice = once.
Proof.
  intros Hswo Hv Hlen. cbv zeta.
  destruct (SortFunc_sorts lss x st Hswo Hv) as [Hperm Hasc].
  rewrite <- !Sort_SortFunc in *.
  set (once := value (Sort Model.pdqsortOrdered x st)) in *.
  assert (value (Sort Model.pdqsortOrdered x once) = once) as Htwice.
  { rewrite Sort_SortFunc, SortFunc_value.
    rewrite pdqsortLessFunc_fixed; auto.
    - apply assign_contents.
    - unfold len in *. rewrite (Permutation_length Hperm). exact Hlen. }
  rewrite Htwice. split; reflexivity.
Qed.

Lemma Sort_idempotent_witness :
  let once := value (Sort Model.pdqsortOrdered (Slice 2 0 3) {[2%positive := [3; 1; 2]]}) in
  let twice := value (Sort Model.pdqsortOrdered (Slice 2 0 3) once) in
  contents twice (Slice 2 0 3) = contents once (Slice 2 0 3) /\ twice = once.
Proof.
  apply (Sort_idempotent (Slice 2 0 3) ({[2%positive := [3; 1; 2]]} : gmap loc (list Z))).
  - exact Z_ltb_swo.
  - exists [3; 1; 2]. split; [reflexivity | simpl; lia].
  - reflexivity.
Defined.

(** * [Sorted] and [SortedFunc] *)

Section SortedFacts.
Context {E : Type}.
Implicit Types (st : gmap loc (list E)) (x : slice).

(** Cloning and then running any routine on the clone. *)
Lemma clone_then_sort (run : slice -> gmap loc (list E) -> counted (gmap loc (list E)))
  (routine : list E -> list E) x st :
  (forall y st1, value (run y st1) = assign st1 y (routine (contents st1 y))) ->
  (forall data, Permutation (routine data) data) ->
  valid st x ->
  let y := (Clone x st).1 in
  let after := value (run y (Clone x st).2) in
  contents after x = contents st x /\
  (forall b arr, st !! b = Some arr -> after !! b = Some arr) /\
  match y with
  | Nil => x = Nil
  | Slice base _ _ => x <> Nil /\ st !! base = None
  end /\
  contents after y = routine (contents st x) /\
  length (contents after y) = length (contents st x) /\
  Permutation (contents after y) (contents st x).
Proof.
  intros Hrun Hperm Hv. cbv zeta.
  pose proof (Clone_spec st x Hv) as Hclone.
  destruct (Clone x st) as [y st1]. simpl fst. simpl snd.
  destruct Hclone as (Hvy & Hcy & Hframe & Hfresh).
  rewrite Hrun.
  assert (forall b arr, st !! b = Some arr ->
            assign st1 y (routine (contents st1 y)) !! b = Some arr) as Hkept.
  { intros b arr Hb. rewrite assign_other; [apply Hframe; exact Hb|].
    destruct y as [|base off n]; [exact I|].
    destruct Hfresh as [_ Hnone]. congruence. }
  assert (contents (assign st1 y (routine (contents st1 y))) y = routine (contents st x))
    as Hy.
  { rewrite contents_assign; auto; [rewrite Hcy; reflexivity|].
    apply Permutation_length. apply Hperm. }
  split; [|split; [exact Hkept | split; [|split; [exact Hy | split]]]].
  - destruct x as [|base off n]; [reflexivity|].
    destruct Hv as (arr & Harr & Hbound). simpl.
    rewrite (Hkept base arr Harr), Harr. reflexivity.
  - destruct y; tauto.
  - rewrite Hy. apply Permutation_length. apply Hperm.
  - rewrite Hy. apply Hperm.
Qed.

Lemma Sorted_unfold (pdq : list E -> Z -> Z -> Z -> counted (list E)) x st :
  value (Sorted pdq x st) = ((Clone x st).1, value (Sort pdq (Clone x st).1 (Clone x st).2)).
Proof. unfold Sorted. destruct (Clone x st) as [y st1]. reflexivity. Qed.

Lemma SortedFunc_unfold
  (pdq : list E -> Z -> Z -> Z -> (E -> E -> bool) -> counted (list E)) less x st :
  value (SortedFunc pdq less x st) =
  ((Clone x st).1, value (SortFunc pdq less (Clone x st).1 (Clone x st).2)).
Proof. unfold SortedFunc. destruct (Clone x st) as [y st1]. reflexivity. Qed.

End SortedFacts.

(** C5.  [Sorted(S)] and [SortedFunc(less, S)] leave the elements of [S],
    and every array allocated before the call, as they were; the slice
    they return is [nil] when [S] is and otherwise lies in an array that
    was not allocated before the call; it is what cloning [S] and then
    sorting the clone gives, and holds the elements of [S] as many times
    each.  The sorting routines are any that permute the slice they are
    given. *)
Theorem Sorted_leaves_argument {E : Type}
  (pdqsortOrdered : list E -> Z -> Z -> Z -> counted (list E))
  (pdqsortLessFunc : list E -> Z -> Z -> Z -> (E -> E -> bool) -> counted (list E))
  (less : E -> E -> bool) (x : slice) (st : gmap loc (list E)) :
  (forall data limit,
     Permutation (value (pdqsortOrdered data 0 (len data) limit)) data) ->
  (forall data limit,
     Permutation (value (pdqsortLessFunc data 0 (len data) limit less)) data) ->
  valid st x ->
  (let '(y, after) := value (Sorted pdqsortOrdered x st) in
   contents after x = contents st x /\
   (forall b arr, st !! b = Some arr -> after !! b = Some arr) /\
   match y with
   | Nil => x = Nil
   | Slice base _ _ => x <> Nil /\ st !! base = None
   end /\
   (y, after) = ((Clone x st).1, value (Sort pdqsortOrdered (Clone x st).1 (Clone x st).2)) /\
   length (contents after y) = length (contents st x) /\
   Permutation (contents after y) (contents st x)) /\
  (let '(y, after) := value (SortedFunc pdqsortLessFunc less x st) in
   contents after x = contents st x /\
   (forall b arr, st !! b = Some arr -> after !! b = Some arr) /\
   match y with
   | Nil => x = Nil
   | Slice base _ _ => x <> Nil /\ st !! base = None
   end /\
   (y, after) = ((Clone x st).1,
                 value (SortFunc pdqsortLessFunc less (Clone x st).1 (Clone x st).2)) /\
   length (contents after y) = length (contents st x) /\
   Permutation (contents after y) (contents st x)).
Proof.
  intros HpermO HpermL Hv. split.
  - rewrite Sorted_unfold.
    destruct (clone_then_sort (Sort pdqsortOrdered)
                (fun data => value (pdqsortOrdered data 0 (len data)
                                      (bits_Len (to_uint (len data))))) x st)
      as (Hx & Hkept & Hfresh & _ & Hlen & Hperm).
    { intros y st1. reflexivity. }
    { intros data. apply HpermO. }
    { exact Hv. }
    repeat split; auto.
  - rewrite SortedFunc_unfold.
    destruct (clone_then_sort (SortFunc pdqsortLessFunc less)
                (fun data => value (pdqsortLessFunc data 0 (len data)
                                      (bits_Len (to_uint (len data))) less)) x st)
      as (Hx & Hkept & Hfresh & _ & Hlen & Hperm).
    { intros y st1. reflexivity. }
    { intros data. apply HpermL. }
    { exact Hv. }
    repeat split; auto.
Qed.

(** A window of an array, sorted into a new array by the model's
    routines. *)
Lemma Sorted_leaves_argument_witness :
  (let '(y, after) := value (Sorted Model.pdqsortOrdered (Slice 1 1 3)
                               {[1%positive := [9; 3; 1; 2; 0]]}) in
   contents after (Slice 1 1 3) = contents {[1%positive := [9; 3; 1; 2; 0]]} (Slice 1 1 3) /\
   (forall b arr, ({[1%positive := [9; 3; 1; 2; 0]]} : gmap loc (list Z)) !! b = Some arr ->
                  after !! b = Some arr) /\
   match y with
   | Nil => Slice 1 1 3 = Nil
   | Slice base _ _ =>
       Slice 1 1 3 <> Nil /\
       ({[1%positive := [9; 3; 1; 2; 0]]} : gmap loc (list Z)) !! base = None
   end /\
   (y, after) = ((Clone (Slice 1 1 3) {[1%positive := [9; 3; 1; 2; 0]]}).1,
                 value (Sort Model.pdqsortOrdered
                          (Clone (Slice 1 1 3) {[1%positive := [9; 3; 1; 2; 0]]}).1
                          (Clone (Slice 1 1 3) {[1%positive := [9; 3; 1; 2; 0]]}).2)) /\
   length (contents after y)
   = length (contents ({[1%positive := [9; 3; 1; 2; 0]]} : gmap loc (list Z)) (Slice 1 1 3)) /\
   Permutation (contents after y)
     (contents {[1%positive := [9; 3; 1; 2; 0]]} (Slice 1 1 3))) /\
  (let '(y, after) := value (SortedFunc Model.pdqsortLessFunc Z.ltb (Slice 1 1 3)
                               {[1%positive := [9; 3; 1; 2; 0]]}) in
   contents after (Slice 1 1 3) = contents {[1%positive := [9; 3; 1; 2; 0]]} (Slice 1 1 3) /\
   (forall b arr, ({[1%positive := [9; 3; 1; 2; 0]]} : gmap loc (list Z)) !! b = Some arr ->
                  after !! b = Some arr) /\
   match y with
   | Nil => Slice 1 1 3 = Nil
   | Slice base _ _ =>
       Slice 1 1 3 <> Nil /\
       ({[1%positive := [9; 3; 1; 2; 0]]} : gmap loc (list Z)) !! base = None
   end /\
   (y, after) = ((Clone (Slice 1 1 3) {[1%positive := [9; 3; 1; 2; 0]]}).1,
                 value (SortFunc Model.pdqsortLessFunc Z.ltb
                          (Clone (Slice 1 1 3) {[1%positive := [9; 3; 1; 2; 0]]}).1
                          (Clone (Slice 1 1 3) {[1%positive := [9; 3; 1; 2; 0]]}).2)) /\
   length (contents after y)
   = length (contents ({[1%positive := [9; 3; 1; 2; 0]]} : gmap loc (list Z)) (Slice 1 1 3)) /\
   Permutation (contents after y)
     (contents {[1%positive := [9; 3; 1; 2; 0]]} (Slice 1 1 3))).
Proof.
  apply (Sorted_leaves_argument Model.pdqsortOrdered Model.pdqsortLessFunc Z.ltb
           (Slice 1 1 3) {[1%positive := [9; 3; 1; 2; 0]]}).
  - intros data limit. apply pdqsortLessFunc_Permutation.
  - intros data limit. apply pdqsortLessFunc_Permutation.
  - exists [9; 3; 1; 2; 0]. split; [reflexivity | simpl; lia].
Defined.

(** * The stable sorter of the model *)

Section StableFacts.
Context {E : Type} (less : E -> E -> bool).
Hypothesis Hswo : StrictWeakOrder less.

Local Open Scope nat_scope.

Lemma class_of_app e (u v : list E) :
  class_of less e (u ++ v) = class_of less e u ++ class_of less e v.
Proof. apply List.filter_app. Qed.

Lemma equiv_less_l e a b :
  equiv less e a = true -> less a b = true -> less e b = true.
Proof.
  unfold equiv. rewrite andb_true_iff, !negb_true_iff. intros [_ Hae] Hab.
  exact (not_less_less_trans less Hswo e a b Hae Hab).
Qed.

Lemma equiv_less_r e a b :
  equiv less e b = true -> less a b = true -> less a e = true.
Proof.
  unfold equiv. rewrite andb_true_iff, !negb_true_iff. intros [Heb _] Hab.
  exact (less_not_less_trans less Hswo a b e Hab Heb).
Qed.

(** When every element of [v] is less than every element of [u], one
    class cannot meet both, so the two may change places. *)
Lemma class_of_swap e (u v : list E) :
  Forall (fun a => Forall (fun b => less b a = true) v) u ->
  class_of less e (u ++ v) = class_of less e (v ++ u).
Proof.
  intros Hsep. rewrite !class_of_app.
  destruct (class_of less e u) as [|a u'] eqn:Hu; [rewrite app_nil_r; reflexivity|].
  assert (class_of less e v = []) as ->; [|rewrite app_nil_r; reflexivity].
  assert (In a (class_of less e u)) as Ha by (rewrite Hu; left; reflexivity).
  apply filter_In in Ha as [Hau Hea].
  destruct (class_of less e v) as [|b v'] eqn:Hv; [reflexivity|exfalso].
  assert (In b (class_of less e v)) as Hb by (rewrite Hv; left; reflexivity).
  apply filter_In in Hb as [Hbv Heb].
  rewrite Forall_forall in Hsep. specialize (Hsep a ltac:(apply list_elem_of_In; exact Hau)).
  rewrite Forall_forall in Hsep. specialize (Hsep b ltac:(apply list_elem_of_In; exact Hbv)).
  pose proof (equiv_less_l e b a Heb Hsep) as Hlt.
  unfold equiv in Hea. rewrite andb_true_iff, !negb_true_iff in Hea.
  destruct Hea as [Hea _]. congruence.
Qed.

Lemma ascending_take (s : list E) n : ascending less s -> ascending less (take n s).
Proof.
  intros Hasc. rewrite <- (take_drop n s) in Hasc.
  apply ascending_app in Hasc. tauto.
Qed.

Lemma ascending_drop (s : list E) n : ascending less s -> ascending less (drop n s).
Proof.
  intros Hasc. rewrite <- (take_drop n s) in Hasc.
  apply ascending_app in Hasc. tauto.
Qed.

Lemma ascending_between (a b : list E) (p : E) :
  ascending less a -> ascending less b ->
  Forall (fun x => less p x = false) a ->
  Forall (fun y => less y p = false) b ->
  ascending less (a ++ p :: b).
Proof.
  intros Ha Hb Hle Hge. apply ascending_app. split; [exact Ha|]. split.
  - apply ascending_cons. split; [exact Hge | exact Hb].
  - eapply Forall_impl; [exact Hle|]. simpl. intros x Hpx.
    constructor; [exact Hpx|].
    eapply Forall_impl; [exact Hge|]. simpl. intros y Hyp.
    exact (not_less_trans less Hswo x p y Hpx Hyp).
Qed.

(** Around an element of an ascending sequence. *)
Lemma ascending_middle (s : list E) h p :
  ascending less s -> s !! h = Some p ->
  Forall (fun x => less p x = false) (take h s) /\
  Forall (fun y => less y p = false) (drop (S h) s).
Proof.
  intros Hasc Hp. split.
  - apply Forall_lookup_2. intros i x Hx.
    pose proof (lookup_lt_Some _ _ _ Hx) as Hi. rewrite length_take in Hi.
    rewrite lookup_take_lt in Hx by lia.
    apply (Hasc i h x p); auto. lia.
  - apply Forall_lookup_2. intros i y Hy. rewrite lookup_drop in Hy.
    apply (Hasc h (S h + i) p y); auto. lia.
Qed.

(** *** The binary insertion sort is stable *)

Lemma insertionSort_from_stable e rest : forall prefix,
  ascending less prefix ->
  class_of less e (value (insertionSort_from less prefix rest))
  = class_of less e (prefix ++ rest).
Proof.
  induction rest as [|x rest IH]; intros prefix Hasc.
  - simpl. rewrite app_nil_r. reflexivity.
  - cbn [insertionSort_from]. csimp.
    rewrite IH by (apply insert_at_ascending; assumption).
    destruct (insert_position less Hswo x prefix Hasc) as (Hr & Hlo & Hhi).
    set (r := value (bisect (length prefix) (less_than_at less x prefix) 0
                       (length prefix))) in *.
    assert (class_of less e (drop r prefix ++ [x]) = class_of less e ([x] ++ drop r prefix))
      as Hswap.
    { apply class_of_swap.
      eapply Forall_impl; [exact Hhi|]. simpl. intros d Hxd.
      constructor; [exact Hxd | constructor]. }
    unfold insert_at.
    replace (prefix ++ x :: rest) with (take r prefix ++ (drop r prefix ++ [x]) ++ rest).
    2:{ rewrite <- (take_drop r prefix) at 3. rewrite <- !app_assoc. reflexivity. }
    replace ((take r prefix ++ x :: drop r prefix) ++ rest)
      with (take r prefix ++ ([x] ++ drop r prefix) ++ rest).
    2:{ rewrite <- !app_assoc. reflexivity. }
    rewrite !(class_of_app _ (take r prefix)).
    rewrite (class_of_app _ (drop r prefix ++ [x])), (class_of_app _ ([x] ++ drop r prefix)).
    rewrite Hswap. reflexivity.
Qed.

Lemma insertionSort_stable e s :
  class_of less e (value (insertionSort less s)) = class_of less e s.
Proof. apply (insertionSort_from_stable e s []). apply ascending_nil. Qed.

(** *** The rotation merge *)

Lemma merge_position p (b : list E) :
  ascending less b ->
  let j := value (bisect (length b) (not_less_at less p b) 0 (length b)) in
  Forall (fun y => less y p = true) (take j b) /\
  Forall (fun y => less y p = false) (drop j b).
Proof.
  intros Hasc.
  destruct (bisect_threshold
              (fun h => match b !! h with Some y => negb (less y p) | None => true end)
              (not_less_at less p b) (length b)) as (Hr & Hlo & Hhi).
  { apply not_less_at_value. }
  { intros i k Hik Hk.
    destruct (lookup_lt_is_Some_2 b i ltac:(lia)) as [y Hy].
    destruct (lookup_lt_is_Some_2 b k Hk) as [z Hz].
    rewrite Hy, Hz, !negb_true_iff. intros Hyp.
    destruct (Nat.eq_dec i k) as [->|Hne]; [congruence|].
    apply (not_less_trans less Hswo p y z Hyp).
    apply (Hasc i k y z); auto. lia. }
  set (j := value (bisect (length b) (not_less_at less p b) 0 (length b))) in *.
  split.
  - apply Forall_lookup_2. intros h y Hy.
    pose proof (lookup_lt_Some _ _ _ Hy) as Hh. rewrite length_take in Hh.
    rewrite lookup_take_lt in Hy by lia.
    specialize (Hlo h ltac:(lia)). rewrite Hy, negb_false_iff in Hlo. exact Hlo.
  - apply Forall_lookup_2. intros h y Hy. rewrite lookup_drop in Hy.
    pose proof (lookup_lt_Some _ _ _ Hy) as Hh.
    specialize (Hhi (j + h) ltac:(lia) Hh). rewrite Hy, negb_true_iff in Hhi. exact Hhi.
Qed.

Lemma symMerge_S fuel (a b : list E) :
  symMerge less (S fuel) a b =
  match a !! (length a / 2) with
  | None => a ++ b
  | Some p =>
      let j := value (bisect (length b) (not_less_at less p b) 0 (length b)) in
      symMerge less fuel (take (length a / 2) a) (take j b)
        ++ p :: symMerge less fuel (drop (S (length a / 2)) a) (drop j b)
  end.
Proof. reflexivity. Qed.

Lemma symMerge_spec fuel : forall a b : list E,
  length a <= fuel -> ascending less a -> ascending less b ->
  Permutation (symMerge less fuel a b) (a ++ b) /\
  ascending less (symMerge less fuel a b) /\
  forall e, class_of less e (symMerge less fuel a b) = class_of less e (a ++ b).
Proof.
  induction fuel as [|fuel IH]; intros a b Hfuel Ha Hb.
  { destruct a; [|simpl in Hfuel; lia]. simpl. auto. }
  rewrite symMerge_S.
  destruct (a !! (length a / 2)) as [p|] eqn:Hp.
  2:{ apply lookup_ge_None in Hp. destruct a as [|x a]; [simpl; auto|].
      simpl length in Hp. assert (S (length a) / 2 < S (length a)); [|lia].
      apply Nat.div_lt; lia. }
  cbv zeta.
  set (h := length a / 2) in *.
  pose proof (lookup_lt_Some _ _ _ Hp) as Hh.
  destruct (merge_position p b Hb) as (Hbl & Hbr).
  set (j := value (bisect (length b) (not_less_at less p b) 0 (length b))) in *.
  destruct (ascending_middle a h p Ha Hp) as (Hal & Har).
  assert (h <= fuel) as Hhf.
  { unfold h. transitivity (S fuel / 2); [apply Nat.Div0.div_le_mono; lia|].
    destruct fuel; [reflexivity|]. apply Nat.lt_succ_r. apply Nat.div_lt; lia. }
  destruct (IH (take h a) (take j b)) as (Hp1 & Hs1 & Hc1).
  { rewrite length_take. lia. }
  { apply ascending_take. exact Ha. }
  { apply ascending_take. exact Hb. }
  destruct (IH (drop (S h) a) (drop j b)) as (Hp2 & Hs2 & Hc2).
  { rewrite length_drop. lia. }
  { apply ascending_drop. exact Ha. }
  { apply ascending_drop. exact Hb. }
  assert (a ++ b = take h a ++ ((p :: drop (S h) a) ++ take j b) ++ drop j b) as Hsplit.
  { rewrite <- (app_assoc (p :: drop (S h) a)), take_drop, app_assoc.
    rewrite (take_drop_middle a h p Hp). reflexivity. }
  split; [|split].
  - rewrite Hp1, Hp2.
    rewrite Hsplit.
    rewrite (Permutation_app_comm (p :: drop (S h) a) (take j b)).
    rewrite <- !app_assoc. reflexivity.
  - apply ascending_between; auto.
    + rewrite Hp1. apply Forall_app. split; [exact Hal|].
      eapply Forall_impl; [exact Hbl|]. simpl. intros y Hyp.
      apply (swo_asym less Hswo). exact Hyp.
    + rewrite Hp2. apply Forall_app. split; assumption.
  - intros e.
    assert (class_of less e ((p :: drop (S h) a) ++ take j b)
            = class_of less e (take j b ++ (p :: drop (S h) a))) as Hswap.
    { apply class_of_swap. constructor.
      - exact Hbl.
      - eapply Forall_impl; [exact Har|]. simpl. intros x Hxp.
        eapply Forall_impl; [exact Hbl|]. simpl. intros y Hyp.
        exact (less_not_less_trans less Hswo y p x Hyp Hxp). }
    rewrite Hsplit.
    rewrite (class_of_app _ (take h a)), (class_of_app _ _ (drop j b)), Hswap.
    rewrite (class_of_app _ (symMerge less fuel (take h a) (take j b))), Hc1.
    change (p :: symMerge less fuel (drop (S h) a) (drop j b))
      with ([p] ++ symMerge less fuel (drop (S h) a) (drop j b)).
    change (p :: drop (S h) a) with ([p] ++ drop (S h) a).
    rewrite !class_of_app, Hc2, !class_of_app, <- !app_assoc. reflexivity.
Qed.

(** *** Blocks and passes *)

Lemma sorted_blocks_spec fuel : forall s : list E,
  length s <= fuel ->
  Forall (ascending less) (sorted_blocks less fuel s) /\
  Permutation (concat (sorted_blocks less fuel s)) s /\
  forall e, class_of less e (concat (sorted_blocks less fuel s)) = class_of less e s.
Proof.
  induction fuel as [|fuel IH]; intros s Hfuel.
  { destruct s; [|simpl in Hfuel; lia]. simpl. auto. }
  destruct s as [|a s]; [simpl; auto|].
  cbn [sorted_blocks concat].
  destruct (IH (drop block_size (a :: s))) as (Hasc & Hperm & Hclass).
  { rewrite length_drop. simpl length in *. unfold block_size. lia. }
  split; [|split].
  - constructor; [apply insertionSort_ascending; exact Hswo | exact Hasc].
  - rewrite insertionSort_Permutation, Hperm. rewrite take_drop. reflexivity.
  - intros e. rewrite class_of_app, insertionSort_stable, Hclass, <- class_of_app.
    rewrite take_drop. reflexivity.
Qed.

Lemma pair_ind {A} (P : list A -> Prop) :
  P [] -> (forall a, P [a]) -> (forall a b l, P l -> P (a :: b :: l)) ->
  forall l, P l.
Proof.
  intros Hnil Hone Hstep l.
  assert (P l /\ forall a, P (a :: l)) as [Hl _]; [|exact Hl].
  induction l as [|b l [IH1 IH2]]; split; auto.
Qed.

Lemma merge_pairs_spec (runs : list (list E)) :
  Forall (ascending less) runs ->
  Forall (ascending less) (merge_pairs less runs) /\
  Permutation (concat (merge_pairs less runs)) (concat runs) /\
  (forall e, class_of less e (concat (merge_pairs less runs))
             = class_of less e (concat runs)) /\
  2 * length (merge_pairs less runs) <= S (length runs).
Proof.
  induction runs as [|a|a b runs IH] using pair_ind; intros Hasc.
  - simpl. repeat split; auto.
  - simpl. repeat split; auto.
  - apply Forall_cons in Hasc as [Ha Hasc]. apply Forall_cons in Hasc as [Hb Hasc].
    destruct (IH Hasc) as (Hasc' & Hperm & Hclass & Hlen).
    destruct (symMerge_spec (length a) a b (Nat.le_refl _) Ha Hb) as (Hmp & Hms & Hmc).
    cbn [merge_pairs concat]. split; [|split; [|split]].
    + constructor; assumption.
    + rewrite Hmp, Hperm, <- app_assoc. reflexivity.
    + intros e. rewrite class_of_app, Hmc, Hclass, <- class_of_app, <- app_assoc.
      reflexivity.
    + simpl length. lia.
Qed.

Lemma merge_passes_S fuel (runs : list (list E)) :
  merge_passes less (S fuel) runs =
  match runs with
  | [] => []
  | [a] => a
  | _ => merge_passes less fuel (merge_pairs less runs)
  end.
Proof. destruct runs as [|a [|b runs]]; reflexivity. Qed.

Lemma merge_passes_spec fuel : forall runs : list (list E),
  Forall (ascending less) runs ->
  Permutation (merge_passes less fuel runs) (concat runs) /\
  (forall e, class_of less e (merge_passes less fuel runs) = class_of less e (concat runs)) /\
  (length runs <= S fuel -> ascending less (merge_passes less fuel runs)).
Proof.
  induction fuel as [|fuel IH]; intros runs Hasc.
  - destruct runs as [|a [|b runs]]; simpl.
    + repeat split; auto. intros _. apply ascending_nil.
    + rewrite app_nil_r. repeat split; auto. intros _.
      apply Forall_cons in Hasc. tauto.
    + repeat split; auto. intros Hlen. lia.
  - rewrite merge_passes_S. destruct runs as [|a [|b runs]].
    + simpl. repeat split; auto. intros _. apply ascending_nil.
    + simpl. rewrite app_nil_r. repeat split; auto. intros _.
      apply Forall_cons in Hasc. tauto.
    + destruct (merge_pairs_spec (a :: b :: runs) Hasc) as (Hasc' & Hperm & Hclass & Hlen).
      destruct (IH _ Hasc') as (Hp & Hc & Hs).
      split; [|split].
      * rewrite Hp. exact Hperm.
      * intros e. rewrite Hc. apply Hclass.
      * intros Hl. apply Hs. simpl length in *. lia.
Qed.

Lemma stable_spec (s : list E) :
  Permutation (stable less s) s /\
  ascending less (stable less s) /\
  forall e, class_of less e (stable less s) = class_of less e s.
Proof.
  unfold stable.
  destruct (sorted_blocks_spec (length s) s (Nat.le_refl _)) as (Hasc & Hperm & Hclass).
  destruct (merge_passes_spec (length (sorted_blocks less (length s) s))
              (sorted_blocks less (length s) s) Hasc) as (Hp & Hc & Hs).
  split; [|split].
  - rewrite Hp. exact Hperm.
  - apply Hs. lia.
  - intros e. rewrite Hc. apply Hclass.
Qed.

Lemma stableLessFunc_whole (data : list E) :
  Model.stableLessFunc data (len data) less = stable less data.
Proof.
  unfold Model.stableLessFunc, len. rewrite Nat2Z.id.
  rewrite firstn_all, drop_all, app_nil_r. reflexivity.
Qed.

End StableFacts.

(** *** Relative order from equal classes *)

Lemma filter_decompose {A} (f : A -> bool) (l : list A) : forall u a v,
  List.filter f l = u ++ a :: v ->
  exists l1 l2, l = l1 ++ a :: l2 /\ List.filter f l1 = u /\ List.filter f l2 = v.
Proof.
  induction l as [|x l IH]; intros u a v Hf; simpl in Hf.
  - destruct u; discriminate.
  - destruct (f x) eqn:Hfx.
    + destruct u as [|y u]; simpl in Hf.
      * injection Hf as -> <-. exists [], l. auto.
      * injection Hf as -> Hf. destruct (IH u a v Hf) as (l1 & l2 & -> & Hu & Hv).
        exists (y :: l1), l2. simpl. rewrite Hfx, Hu. auto.
    + destruct (IH u a v Hf) as (l1 & l2 & -> & Hu & Hv).
      exists (x :: l1), l2. simpl. rewrite Hfx. auto.
Qed.

Lemma relative_order {A} (f : A -> bool) (l l' : list A) (i j : nat) a b :
  List.filter f l = List.filter f l' ->
  (i < j)%nat -> l !! i = Some a -> l !! j = Some b ->
  f a = true -> f b = true ->
  exists i' j', (i' < j')%nat /\ l' !! i' = Some a /\ l' !! j' = Some b.
Proof.
  intros Hf Hij Ha Hb Hfa Hfb.
  pose proof (take_drop_middle l i a Ha) as Hl.
  assert (drop (S i) l !! (j - S i)%nat = Some b) as Hb'.
  { rewrite lookup_drop. rewrite <- Hb. f_equal. lia. }
  pose proof (take_drop_middle _ _ b Hb') as Hl2.
  rewrite <- Hl2 in Hl. rewrite <- Hl in Hf.
  rewrite List.filter_app in Hf. simpl in Hf. rewrite Hfa in Hf.
  rewrite List.filter_app in Hf. simpl in Hf. rewrite Hfb in Hf.
  symmetry in Hf.
  destruct (filter_decompose f l' _ a _ Hf) as (l1 & l2 & -> & _ & Hf2).
  destruct (filter_decompose f l2 _ b _ Hf2) as (m1 & m2 & -> & _ & _).
  exists (length l1), (length l1 + S (length m1))%nat. split; [lia|]. split.
  - rewrite lookup_app_r by lia. rewrite Nat.sub_diag. reflexivity.
  - rewrite lookup_app_r by lia.
    replace (length l1 + S (length m1) - length l1)%nat with (S (length m1)) by lia.
    simpl. rewrite lookup_app_r by lia. rewrite Nat.sub_diag. reflexivity.
Qed.

(** C2.  After [SortStableFunc(less, x)] with a strict weak ordering
    [less] the slice is ascending and holds the elements it held; the
    elements of every equivalence class stand in the order they had, so
    two equivalent elements at positions [i < j] of the result stood in
    that order before the call.  The pairs of the specification's
    scenario come out as [(0,2), (1,0), (1,1)]. *)
Theorem SortStableFunc_stable {E : Type} (less : E -> E -> bool)
  (x : slice) (st : gmap loc (list E)) :
  StrictWeakOrder less -> valid st x ->
  (let before := contents st x in
   let after := contents (SortStableFunc Model.stableLessFunc less x st) x in
   ascending less after /\
   Permutation after before /\
   (forall e, class_of less e after = class_of less e before) /\
   (forall (i j : nat) a b,
      (i < j)%nat -> after !! i = Some a -> after !! j = Some b ->
      equiv less a b = true ->
      exists i' j' : nat,
        (i' < j')%nat /\ before !! i' = Some a /\ before !! j' = Some b)) /\
  contents (SortStableFunc Model.stableLessFunc (fun a b : Z * Z => a.1 <? b.1)
              (Slice 1 0 3) {[1%positive := [(1, 0); (1, 1); (0, 2)]]}) (Slice 1 0 3)
  = [(0, 2); (1, 0); (1, 1)].
Proof.
  intros Hswo Hv. split; [|vm_compute; reflexivity]. cbv zeta.
  unfold SortStableFunc. rewrite stableLessFunc_whole.
  destruct (stable_spec less Hswo (contents st x)) as (Hperm & Hasc & Hclass).
  rewrite contents_assign; [|exact Hv|apply Permutation_length; exact Hperm].
  split; [exact Hasc|]. split; [exact Hperm|]. split; [exact Hclass|].
  intros i j a b Hij Ha Hb Hab.
  apply (relative_order (equiv less a) (stable less (contents st x)) (contents st x) i j);
    auto.
  - apply Hclass.
  - apply equiv_refl. exact Hswo.
Qed.

Lemma SortStableFunc_stable_witness :
  (let before := contents {[1%positive := [(1, 0); (1, 1); (0, 2)]]} (Slice 1 0 3) in
   let after := contents (SortStableFunc Model.stableLessFunc (fun a b : Z * Z => a.1 <? b.1)
                            (Slice 1 0 3) {[1%positive := [(1, 0); (1, 1); (0, 2)]]})
                  (Slice 1 0 3) in
   ascending (fun a b : Z * Z => a.1 <? b.1) after /\
   Permutation after before /\
   (forall e, class_of (fun a b : Z * Z => a.1 <? b.1) e after
              = class_of (fun a b : Z * Z => a.1 <? b.1) e before) /\
   (forall (i j : nat) a b,
      (i < j)%nat -> after !! i = Some a -> after !! j = Some b ->
      equiv (fun a b : Z * Z => a.1 <? b.1) a b = true ->
      exists i' j' : nat,
        (i' < j')%nat /\ before !! i' = Some a /\ before !! j' = Some b)) /\
  contents (SortStableFunc Model.stableLessFunc (fun a b : Z * Z => a.1 <? b.1)
              (Slice 1 0 3) {[1%positive := [(1, 0); (1, 1); (0, 2)]]}) (Slice 1 0 3)
  = [(0, 2); (1, 0); (1, 1)].
Proof.
  apply (SortStableFunc_stable (fun a b : Z * Z => a.1 <? b.1) (Slice 1 0 3)
           {[1%positive := [(1, 0); (1, 1); (0, 2)]]}).
  - exact pair_fst_swo.
  - exists [(1, 0); (1, 1); (0, 2)]. split; [reflexivity | simpl; lia].
Defined.


(** * Further properties of sort.go *)

Lemma search_loop_boundary fuel : forall (f : Z -> bool) n i j r,
  0 <= i -> i <= j -> j <= n -> n < 2 ^ 63 ->
  (0 < i -> f (i - 1) = false) ->
  (j < n -> f j = true) ->
  snd (search_loop fuel (always f) i j) = Returned r ->
  i <= r <= j /\ (0 < r -> f (r - 1) = false) /\ (r < n -> f r = true).
Proof.
  induction fuel as [|fuel IH]; intros f n i j r Hi Hij Hjn Hn Hlo Hhi; simpl.
  - destruct (Z.ltb_spec i j) as [Hlt|Hge]; [discriminate|].
    intros [= <-]. assert (i = j) as -> by lia. auto with lia.
  - destruct (Z.ltb_spec i j) as [Hlt|Hge].
    2:{ intros [= <-]. assert (i = j) as -> by lia. auto with lia. }
    pose proof (midpoint_bounds i j Hi Hlt ltac:(lia)) as Hh.
    change (always f (midpoint i j)) with (Some (f (midpoint i j))).
    destruct (f (midpoint i j)) eqn:Hfh.
    + destruct (search_loop fuel (always f) i (midpoint i j)) as [tr o] eqn:Hrec.
      simpl. intros ->.
      destruct (IH f n i (midpoint i j) r) as (Hr & Hbelow & Habove); try lia; auto.
      { rewrite Hrec. reflexivity. }
      split; [lia | auto].
    + rewrite (to_int_id (midpoint i j + 1)) by (unfold is_int; lia).
      destruct (search_loop fuel (always f) (midpoint i j + 1) j) as [tr o] eqn:Hrec.
      simpl. intros ->.
      destruct (IH f n (midpoint i j + 1) j r) as (Hr & Hbelow & Habove); try lia; auto.
      { intros _. replace (midpoint i j + 1 - 1) with (midpoint i j) by lia. exact Hfh. }
      { rewrite Hrec. reflexivity. }
      split; [lia | auto].
Qed.

(** X1.  For every predicate, monotonic or not, [search] returns an index
    [r] of [0..n] at a boundary of the predicate: [f(r-1)] is false
    unless [r = 0], and [f(r)] is true unless [r = n].  This is the
    invariant "f(i-1) == false, f(j) == true" of the loop. *)
Theorem search_boundary (n : Z) (f : Z -> bool) :
  0 <= n < 2 ^ 63 ->
  exists r, search n (always f) = Returned r /\
            0 <= r <= n /\
            (0 < r -> f (r - 1) = false) /\
            (r < n -> f r = true).
Proof.
  intros Hn.
  destruct (search_returns n (always f)) as (r & Hr & _).
  { unfold is_int. lia. }
  { intros h _. exists (f h). reflexivity. }
  exists r. split; [exact Hr|].
  rewrite search_unfold in Hr.
  apply (search_loop_boundary search_fuel f n 0 n r); try lia; auto.
Qed.

Lemma search_boundary_witness :
  exists r, search 5 (always (fun i => Z.even i)) = Returned r /\
            0 <= r <= 5 /\
            (0 < r -> Z.even (r - 1) = false) /\
            (r < 5 -> Z.even r = true).
Proof. apply (search_boundary 5 (fun i => Z.even i)). lia. Defined.

Lemma search_loop_count fuel : forall f i j (k : nat),
  0 <= i -> j < 2 ^ 63 -> j - i < 2 ^ Z.of_nat k ->
  (length (fst (search_loop fuel f i j)) <= k)%nat.
Proof.
  induction fuel as [|fuel IH]; intros f i j k Hi Hj Hk; simpl.
  - destruct (i <? j); simpl; lia.
  - destruct (Z.ltb_spec i j) as [Hlt|Hge]; [|simpl; lia].
    destruct k as [|k]; [change (2 ^ Z.of_nat 0) with 1 in Hk; lia|].
    pose proof (midpoint_bounds i j Hi Hlt Hj) as Hh.
    pose proof (midpoint_halves i j Hi Hlt Hj) as [Hup Hdown].
    rewrite pow2_succ in Hk.
    destruct (f (midpoint i j)) as [[|]|].
    + specialize (IH f i (midpoint i j) k Hi ltac:(lia) ltac:(lia)).
      destruct (search_loop fuel f i (midpoint i j)) as [tr o]. simpl in *. lia.
    + rewrite (to_int_id (midpoint i j + 1)) by (unfold is_int; lia).
      specialize (IH f (midpoint i j + 1) j k ltac:(lia) Hj ltac:(lia)).
      destruct (search_loop fuel f (midpoint i j + 1) j) as [tr o]. simpl in *. lia.
    + simpl. lia.
Qed.

Lemma bits_Len_bound n : 0 <= n -> n < 2 ^ bits_Len n.
Proof.
  intros Hn. unfold bits_Len.
  destruct (Z.leb_spec n 0) as [H0|Hpos].
  - assert (n = 0) as -> by lia. reflexivity.
  - replace (Z.log2 n + 1) with (Z.succ (Z.log2 n)) by lia.
    apply Z.log2_spec. lia.
Qed.

Lemma bits_Len_nonneg n : 0 <= bits_Len n.
Proof.
  unfold bits_Len. destruct (n <=? 0); [lia|].
  pose proof (Z.log2_nonneg n). lia.
Qed.

(** X2.  [search] calls its predicate at most [bits.Len(n)] times,
    whatever the predicate answers and even if it panics. *)
Theorem search_probe_count (n : Z) (f : Z -> option bool) :
  0 <= n < 2 ^ 63 ->
  Z.of_nat (length (search_probes n f)) <= bits_Len n.
Proof.
  intros Hn. rewrite search_probes_unfold.
  pose proof (bits_Len_nonneg n) as Hnn.
  pose proof (bits_Len_bound n ltac:(lia)) as Hb.
  pose proof (search_loop_count search_fuel f 0 n (Z.to_nat (bits_Len n))
                ltac:(lia) ltac:(lia)) as Hc.
  rewrite Z2Nat.id in Hc by exact Hnn.
  specialize (Hc ltac:(lia)). lia.
Qed.

Lemma search_probe_count_witness :
  Z.of_nat (length (search_probes 1000 (fun i => Some (700 <=? i)))) <= bits_Len 1000.
Proof. apply (search_probe_count 1000 (fun i => Some (700 <=? i))). lia. Defined.

(** X3.  For a length an [int] holds, [nextPowerOfTwo] is the power of
    two [2^bits.Len(length)]: it is greater than [length], also when
    [length] is a power of two itself, and at most twice [length].  For a
    negative [length] the shift leaves nothing and the result is 0. *)
Theorem nextPowerOfTwo_bounds (length : Z) :
  is_int length ->
  (0 <= length ->
     nextPowerOfTwo length = 2 ^ bits_Len length /\
     length < nextPowerOfTwo length /\
     (0 < length -> nextPowerOfTwo length <= 2 * length)) /\
  (length < 0 -> nextPowerOfTwo length = 0).
Proof.
  intros [Hlo Hhi]. split.
  - intros Hnn.
    assert (to_uint length = length) as Hu by (unfold to_uint; apply Z.mod_small; lia).
    assert (0 <= bits_Len length <= 63) as Hlen.
    { split; [apply bits_Len_nonneg|]. unfold bits_Len.
      destruct (Z.leb_spec length 0); [lia|].
      assert (Z.log2 length < 63) by (apply Z.log2_lt_pow2; lia). lia. }
    assert (nextPowerOfTwo length = 2 ^ bits_Len length) as Heq.
    { unfold nextPowerOfTwo. rewrite Hu, Z.shiftl_1_l. unfold to_uint.
      apply Z.mod_small. split; [apply Z.pow_nonneg; lia|].
      apply Z.pow_lt_mono_r; lia. }
    split; [exact Heq|]. rewrite Heq. split.
    + apply bits_Len_bound. exact Hnn.
    + intros Hpos. unfold bits_Len.
      destruct (Z.leb_spec length 0); [lia|].
      rewrite Z.pow_add_r by (try apply Z.log2_nonneg; lia).
      pose proof (Z.log2_spec length Hpos) as [Hl _].
      change (2 ^ 1) with 2. lia.
  - intros Hneg. unfold nextPowerOfTwo.
    assert (2 ^ 63 <= to_uint length < 2 ^ 64) as Hu.
    { unfold to_uint.
      replace length with (length + 2 ^ 64 + (-1) * 2 ^ 64) by lia.
      rewrite Z.mod_add by lia. rewrite Z.mod_small; lia. }
    assert (bits_Len (to_uint length) = 64) as ->.
    { unfold bits_Len. destruct (Z.leb_spec (to_uint length) 0); [lia|].
      assert (Z.log2 (to_uint length) = 63); [|lia].
      apply Z.log2_unique; [lia|]. change (2 ^ Z.succ 63) with (2 ^ 64). lia. }
    reflexivity.
Qed.

Lemma nextPowerOfTwo_bounds_witness :
  (0 <= 8 ->
     nextPowerOfTwo 8 = 2 ^ bits_Len 8 /\
     8 < nextPowerOfTwo 8 /\
     (0 < 8 -> nextPowerOfTwo 8 <= 2 * 8)) /\
  (8 < 0 -> nextPowerOfTwo 8 = 0).
Proof. apply (nextPowerOfTwo_bounds 8). unfold is_int. lia. Defined.

(** *** The generator *)

Lemma testbit_above x n : 0 <= x < 2 ^ 64 -> 64 <= n -> Z.testbit x n = false.
Proof.
  intros Hx Hn. rewrite <- (Z.mod_small x (2 ^ 64)) by lia.
  apply Z.mod_pow2_bits_high. lia.
Qed.

Lemma lxor_range a b : 0 <= a < 2 ^ 64 -> 0 <= b < 2 ^ 64 -> 0 <= Z.lxor a b < 2 ^ 64.
Proof.
  intros Ha Hb.
  assert (0 <= Z.lxor a b) as Hnn by (apply Z.lxor_nonneg; lia).
  split; [exact Hnn|].
  rewrite <- (Z.mod_small (Z.lxor a b) (2 ^ 64)).
  - apply Z.mod_pos_bound. lia.
  - split; [exact Hnn|].
    destruct (Z.eq_dec (Z.lxor a b) 0) as [->|Hne]; [lia|].
    apply Z.log2_lt_pow2; [lia|].
    pose proof (Z.log2_lxor a b ltac:(lia) ltac:(lia)) as Hlog.
    assert (Z.log2 a < 64).
    { destruct (Z.eq_dec a 0) as [->|]; [reflexivity | apply Z.log2_lt_pow2; lia]. }
    assert (Z.log2 b < 64).
    { destruct (Z.eq_dec b 0) as [->|]; [reflexivity | apply Z.log2_lt_pow2; lia]. }
    lia.
Qed.

Lemma to_uint_range z : 0 <= to_uint z < 2 ^ 64.
Proof. unfold to_uint. apply Z.mod_pos_bound. lia. Qed.

Lemma shiftr_range x k : 0 <= x < 2 ^ 64 -> 0 <= k -> 0 <= Z.shiftr x k < 2 ^ 64.
Proof.
  intros Hx Hk. rewrite Z.shiftr_div_pow2 by exact Hk.
  assert (0 < 2 ^ k) by (apply Z.pow_pos_nonneg; lia).
  split; [apply Z.div_pos; lia|].
  apply Z.div_lt_upper_bound; [lia|]. nia.
Qed.

(** A word that equals itself shifted to the left is zero. *)
Lemma shiftl_fixed x k :
  0 <= x < 2 ^ 64 -> 0 < k -> Z.lxor x (to_uint (Z.shiftl x k)) = 0 -> x = 0.
Proof.
  intros Hx Hk Heq. apply Z.lxor_eq in Heq.
  assert (forall (m : nat) n, 0 <= n < Z.of_nat m -> Z.testbit x n = false) as Hbits.
  { induction m as [|m IH]; intros n Hn; [lia|].
    rewrite Heq. unfold to_uint.
    destruct (Z.lt_ge_cases n 64) as [Hlow|Hhigh].
    - rewrite Z.mod_pow2_bits_low by lia. rewrite Z.shiftl_spec by lia.
      destruct (Z.neg_nonneg_cases (n - k)) as [Hneg|Hnn].
      + apply Z.testbit_neg_r. exact Hneg.
      + apply IH. lia.
    - apply Z.mod_pow2_bits_high. lia. }
  apply Z.bits_inj_0. intros n.
  destruct (Z.neg_nonneg_cases n) as [Hneg|Hnn]; [apply Z.testbit_neg_r; exact Hneg|].
  apply (Hbits (S (Z.to_nat n))). lia.
Qed.

(** So is a word that equals itself shifted to the right. *)
Lemma shiftr_fixed x k :
  0 <= x < 2 ^ 64 -> 0 < k -> Z.lxor x (Z.shiftr x k) = 0 -> x = 0.
Proof.
  intros Hx Hk Heq. apply Z.lxor_eq in Heq.
  assert (forall (m : nat) n, 64 - Z.of_nat m <= n -> Z.testbit x n = false) as Hbits.
  { induction m as [|m IH]; intros n Hn.
    - apply testbit_above; [exact Hx | lia].
    - destruct (Z.neg_nonneg_cases n) as [Hneg|Hnn]; [apply Z.testbit_neg_r; exact Hneg|].
      rewrite Heq. rewrite Z.shiftr_spec by lia. apply IH. lia. }
  apply Z.bits_inj_0. intros n.
  destruct (Z.neg_nonneg_cases n) as [Hneg|Hnn]; [apply Z.testbit_neg_r; exact Hneg|].
  apply (Hbits 64%nat). lia.
Qed.

Lemma xorshift_Next_step r :
  0 <= r < 2 ^ 64 ->
  0 <= fst (xorshift_Next r) < 2 ^ 64 /\ (fst (xorshift_Next r) = 0 <-> r = 0).
Proof.
  intros Hr. unfold xorshift_Next. cbv zeta. cbn [fst].
  set (r1 := Z.lxor r (to_uint (Z.shiftl r 13))).
  assert (0 <= r1 < 2 ^ 64) as Hr1 by (apply lxor_range; [exact Hr | apply to_uint_range]).
  set (r2 := Z.lxor r1 (Z.shiftr r1 17)).
  assert (0 <= r2 < 2 ^ 64) as Hr2 by (apply lxor_range; [exact Hr1 | apply shiftr_range; lia]).
  split; [apply lxor_range; [exact Hr2 | apply to_uint_range]|].
  split.
  - intros H3. apply shiftl_fixed in H3; [|exact Hr2|lia].
    apply shiftr_fixed in H3; [|exact Hr1|lia].
    apply shiftl_fixed in H3; [exact H3|exact Hr|lia].
  - intros ->. reflexivity.
Qed.

(** X4.  The state of the generator stays a 64-bit word, and it is zero
    after any number of calls of [Next] if and only if it was zero at the
    start: a generator seeded with zero yields zeros only, and one seeded
    with anything else never yields zero. *)
Theorem xorshift_zero (r : Z) (n : nat) :
  0 <= r < 2 ^ 64 ->
  0 <= xorshift_iter n r < 2 ^ 64 /\
  (xorshift_iter n r = 0 <-> r = 0) /\
  snd (xorshift_Next r) = fst (xorshift_Next r).
Proof.
  intros Hr. split; [|split]; [| |reflexivity].
  - revert r Hr. induction n as [|n IH]; intros r Hr; cbn [xorshift_iter]; [exact Hr|].
    apply IH. apply xorshift_Next_step. exact Hr.
  - revert r Hr. induction n as [|n IH]; intros r Hr; cbn [xorshift_iter]; [tauto|].
    destruct (xorshift_Next_step r Hr) as [Hrange Hzero].
    rewrite (IH _ Hrange). exact Hzero.
Qed.

Lemma xorshift_zero_witness :
  0 <= xorshift_iter 3 1 < 2 ^ 64 /\
  (xorshift_iter 3 1 = 0 <-> 1 = 0) /\
  snd (xorshift_Next 1) = fst (xorshift_Next 1).
Proof. apply (xorshift_zero 1 3). lia. Defined.

(** X5.  When the operators of the key type agree with one another,
    [IsSortedKey] returns, without a panic, whether the keys of the
    elements are in ascending order. *)
Theorem IsSortedKey_keys {E O : Type} `{OrderedLaws O} (key : E -> O) (data : list E) :
  exists b, IsSortedKey key data = Returned b /\
            (b = true <-> ascending lss (map key data)).
Proof.
  destruct (IsSortedFunc_ascending (Key.Lt key) data (Key_Lt_swo key)) as (b & Hb & Hiff).
  exists b. split; [exact Hb|]. rewrite Hiff. unfold ascending. split.
  - intros Hasc i j a b' Hij Ha Hb'.
    rewrite list_lookup_fmap in Ha, Hb'.
    destruct (data !! i) as [x|] eqn:Hx; [|discriminate].
    destruct (data !! j) as [y|] eqn:Hy; [|discriminate].
    simpl in Ha, Hb'. injection Ha as <-. injection Hb' as <-.
    apply (Hasc i j x y Hij Hx Hy).
  - intros Hasc i j x y Hij Hx Hy. unfold Key.Lt.
    apply (Hasc i j (key x) (key y) Hij); rewrite list_lookup_fmap.
    + rewrite Hx. reflexivity.
    + rewrite Hy. reflexivity.
Qed.

Lemma IsSortedKey_keys_witness :
  exists b, IsSortedKey (fun p : Z * Z => fst p) [(1, 5); (2, 4); (2, 3)] = Returned b /\
            (b = true <-> ascending lss (map (fun p : Z * Z => fst p) [(1, 5); (2, 4); (2, 3)])).
Proof. apply (IsSortedKey_keys (fun p : Z * Z => fst p) [(1, 5); (2, 4); (2, 3)]). Defined.

(** X6.  When the operators of the key type agree with one another and
    the keys of the slice are in ascending order, [BinarySearchKey]
    returns the least position whose key is not less than the key of
    the target, and whether the key there equals the target's. *)
Theorem BinarySearchKey_leftmost {E O : Type} `{OrderedLaws O}
  (key : E -> O) (target : E) (space : list E) :
  len space < 2 ^ 63 -> ascending (Key.Lt key) space ->
  exists pos found,
    BinarySearchKey key target space = Returned (pos, found) /\
    lower_bound (Key.Lt key) target space pos /\
    found_at (Key.Lt key) target space pos found.
Proof.
  intros Hlen Hasc. unfold BinarySearchKey. rewrite BinarySearchFunc_with.
  pose proof (Key_Cmp_ThreeWay key) as Hcmp.
  apply binary_search_with_lower_bound; auto.
  - apply (cmp_swo _ _ Hcmp).
  - intros x. apply ThreeWay_ge. exact Hcmp.
  - intros x. apply ThreeWay_ne. exact Hcmp.
Qed.

Lemma BinarySearchKey_leftmost_witness :
  exists pos found,
    BinarySearchKey (fun p : Z * Z => fst p) (2, 0) [(1, 5); (2, 4); (2, 3)]
      = Returned (pos, found) /\
    lower_bound (Key.Lt (fun p : Z * Z => fst p)) (2, 0) [(1, 5); (2, 4); (2, 3)] pos /\
    found_at (Key.Lt (fun p : Z * Z => fst p)) (2, 0) [(1, 5); (2, 4); (2, 3)] pos found.
Proof.
  apply (BinarySearchKey_leftmost (fun p : Z * Z => fst p) (2, 0) [(1, 5); (2, 4); (2, 3)]).
  - reflexivity.
  - apply adjacent_check_ascending; [apply Key_Lt_swo | reflexivity].
Defined.

(** * Properties of slices.go *)

Lemma len_app {E} (a b : list E) : len (a ++ b) = len a + len b.
Proof. unfold len. rewrite length_app. lia. Qed.

Lemma len_cons {E} (x : E) (s : list E) : len (x :: s) = len s + 1.
Proof. unfold len. simpl length. lia. Qed.

Lemma len_nil {E} : len (@nil E) = 0.
Proof. reflexivity. Qed.

Lemma index_app_len {E} (pre : list E) x r : index (pre ++ x :: r) (len pre) = Some x.
Proof.
  unfold len. rewrite index_of_nat. rewrite lookup_app_r by lia.
  rewrite Nat.sub_diag. reflexivity.
Qed.

Lemma index_outside {E} (s : list E) i : i < 0 \/ len s <= i -> index s i = None.
Proof.
  intros Hi. unfold index.
  destruct (Z.leb_spec 0 i), (Z.ltb_spec i (len s)); simpl; try reflexivity; lia.
Qed.

(** *** [Equal], [EqualFunc] *)

Lemma EqualFunc_loop_spec {E1 E2} (eq : E1 -> E2 -> bool) :
  forall (r1 : list E1) (r2 : list E2) pre1 pre2,
    length pre1 = length pre2 -> length r1 = length r2 ->
    exists b,
      EqualFunc_loop eq (pre1 ++ r1) (pre2 ++ r2) (len pre1) (length r1) = Returned b /\
      (b = true <-> Forall2 (fun a b => eq a b = true) r1 r2).
Proof.
  induction r1 as [|a r1 IH]; intros r2 pre1 pre2 Hpre Hlen.
  - destruct r2; [|discriminate]. exists true. split; [reflexivity|].
    split; [constructor | reflexivity].
  - destruct r2 as [|b r2]; [discriminate|]. simpl in Hlen.
    cbn [length EqualFunc_loop].
    rewrite index_app_len.
    replace (index (pre2 ++ b :: r2) (len pre1)) with (Some b)
      by (replace (len pre1) with (len pre2) by (unfold len; lia);
          symmetry; apply index_app_len).
    destruct (eq a b) eqn:Hab; cbn [negb].
    + destruct (IH r2 (pre1 ++ [a]) (pre2 ++ [b])) as (res & Hres & Hiff).
      { rewrite !length_app. simpl. lia. }
      { lia. }
      rewrite <- !app_assoc in Hres. cbn [app] in Hres.
      rewrite len_app in Hres. change (len [a]) with 1 in Hres.
      exists res. split; [exact Hres|]. rewrite Hiff. split.
      * intros H. constructor; assumption.
      * intros H. inversion H; assumption.
    + exists false. split; [reflexivity|]. split; [discriminate|].
      intros H. inversion H; congruence.
Qed.

Lemma EqualFunc_spec {E1 E2} (eq : E1 -> E2 -> bool) (s1 : list E1) (s2 : list E2) :
  exists b, EqualFunc eq s1 s2 = Returned b /\
            (b = true <-> Forall2 (fun a b => eq a b = true) s1 s2).
Proof.
  unfold EqualFunc. destruct (Z.eqb_spec (len s1) (len s2)) as [Hlen|Hlen]; cbn [negb].
  - apply (EqualFunc_loop_spec eq s1 s2 [] []); [reflexivity | unfold len in Hlen; lia].
  - exists false. split; [reflexivity|]. split; [discriminate|].
    intros H. apply Forall2_length in H. unfold len in Hlen. lia.
Qed.

(** X7.  [EqualFunc] never panics and is true exactly when the slices
    have the same length and [eq] holds of every pair of elements at the
    same index; [Equal], on a type whose [==] decides equality, is true
    exactly on equal slices. *)
Theorem Equal_decides {E E1 E2 : Type} `{ComparableLaws E}
  (eq : E1 -> E2 -> bool) (s1 : list E1) (s2 : list E2) (t1 t2 : list E) :
  (exists b, EqualFunc eq s1 s2 = Returned b /\
             (b = true <-> length s1 = length s2 /\
                           forall i a b, s1 !! i = Some a -> s2 !! i = Some b -> eq a b = true)) /\
  (exists b, Equal t1 t2 = Returned b /\ (b = true <-> t1 = t2)).
Proof.
  split.
  - destruct (EqualFunc_spec eq s1 s2) as (b & Hb & Hiff).
    exists b. split; [exact Hb|]. rewrite Hiff. rewrite Forall2_lookup. split.
    + intros Hall. split.
      * apply Forall2_length with (P := fun a b => eq a b = true).
        apply Forall2_lookup. exact Hall.
      * intros i a b' Ha Hb'. specialize (Hall i). rewrite Ha, Hb' in Hall.
        inversion Hall. assumption.
    + intros [Hlen Hall] i.
      destruct (s1 !! i) as [a|] eqn:Ha, (s2 !! i) as [b'|] eqn:Hb'.
      * constructor. eauto.
      * apply lookup_lt_Some in Ha. apply lookup_ge_None in Hb'. lia.
      * apply lookup_lt_Some in Hb'. apply lookup_ge_None in Ha. lia.
      * constructor.
  - destruct (EqualFunc_spec same t1 t2) as (b & Hb & Hiff).
    exists b. split; [exact Hb|]. rewrite Hiff. split.
    + intros Hall. clear Hb Hiff.
      induction Hall as [|a b' r1 r2 Hab _ IH]; [reflexivity|].
      apply same_eq in Hab. subst. reflexivity.
    + intros <-. clear Hb Hiff. induction t1 as [|a t1 IH]; constructor.
      * apply same_eq. reflexivity.
      * apply IH.
Qed.

#[export] Instance int_ComparableLaws : ComparableLaws Z.
Proof. split. intros a b. apply Z.eqb_eq. Qed.

Lemma Equal_decides_witness :
  (exists b, EqualFunc Z.ltb [1; 2] [3; 4] = Returned b /\
             (b = true <-> length [1; 2] = length [3; 4] /\
                           forall i a b, [1; 2] !! i = Some a -> [3; 4] !! i = Some b ->
                                         Z.ltb a b = true)) /\
  (exists b, Equal [1; 2; 3] [1; 2; 3] = Returned b /\ (b = true <-> [1; 2; 3] = [1; 2; 3])).
Proof. apply (Equal_decides Z.ltb [1; 2] [3; 4] [1; 2; 3] [1; 2; 3]). Defined.

(** *** [Compare] *)

Lemma Compare_loop_spec {E} `{Ordered E} :
  forall (r1 r2 pre2 : list E) n1,
    n1 = len pre2 + len r1 ->
    Compare_loop r1 (len pre2) (pre2 ++ r2) n1 = Returned (lexicographic r1 r2).
Proof.
  induction r1 as [|a r1 IH]; intros r2 pre2 n1 Hn1; cbn [Compare_loop].
  - rewrite len_app. rewrite len_nil in Hn1.
    destruct r2 as [|b r2]; cbn [lexicographic].
    + rewrite len_nil. destruct (Z.ltb_spec n1 (len pre2 + 0)); [lia | reflexivity].
    + rewrite len_cons. pose proof (len_nonneg r2).
      destruct (Z.ltb_spec n1 (len pre2 + (len r2 + 1))); [reflexivity | lia].
  - rewrite len_app. destruct r2 as [|b r2]; cbn [lexicographic].
    + rewrite len_nil. destruct (Z.leb_spec (len pre2 + 0) (len pre2)); [reflexivity | lia].
    + rewrite len_cons. pose proof (len_nonneg r2).
      destruct (Z.leb_spec (len pre2 + (len r2 + 1)) (len pre2)); [lia|].
      rewrite index_app_len.
      destruct (lss a b); [reflexivity|].
      destruct (gtr a b); [reflexivity|].
      specialize (IH r2 (pre2 ++ [b]) n1).
      rewrite <- app_assoc in IH. cbn [app] in IH.
      rewrite len_app in IH. change (len [b]) with 1 in IH.
      apply IH. rewrite len_cons in Hn1. lia.
Qed.

Lemma Compare_spec {E} `{Ordered E} (s1 s2 : list E) :
  Compare s1 s2 = Returned (lexicographic s1 s2).
Proof. apply (Compare_loop_spec s1 s2 []). rewrite len_nil. lia. Qed.

Lemma lexicographic_flip {E} `{OrderedLaws E} (s1 s2 : list E) :
  lexicographic s2 s1 = - lexicographic s1 s2.
Proof.
  revert s2. induction s1 as [|a s1 IH]; intros [|b s2]; cbn [lexicographic]; try reflexivity.
  rewrite !gtr_lss.
  destruct (lss a b) eqn:Hab, (lss b a) eqn:Hba; try reflexivity.
  - pose proof (swo_asym lss lss_swo a b Hab). congruence.
  - apply IH.
Qed.

Lemma lexicographic_zero {E} `{OrderedLaws E} (s1 s2 : list E) :
  lexicographic s1 s2 = 0 <-> Forall2 (fun a b => eql a b = true) s1 s2.
Proof.
  revert s2. induction s1 as [|a s1 IH]; intros [|b s2]; cbn [lexicographic].
  - split; [constructor | reflexivity].
  - split; [discriminate | intros Hf; inversion Hf].
  - split; [discriminate | intros Hf; inversion Hf].
  - rewrite gtr_lss.
    assert (eql a b = negb (lss a b) && negb (lss b a)) as Heq by apply eql_lss.
    destruct (lss a b), (lss b a); cbn in Heq.
    1-3: split; [discriminate | intros Hf; inversion Hf; congruence].
    rewrite IH. split.
    + intros Hf. constructor; assumption.
    + intros Hf. inversion Hf; assumption.
Qed.

(** X8.  On a type whose operators agree with one another, [Compare]
    never panics; exchanging its arguments negates its result; and the
    result is 0 exactly when [Equal] holds of the two slices. *)
Theorem Compare_antisymmetric {E : Type} `{OrderedLaws E} (s1 s2 : list E) :
  exists c, Compare s1 s2 = Returned c /\
            Compare s2 s1 = Returned (- c) /\
            (c = 0 <-> Equal s1 s2 = Returned true).
Proof.
  exists (lexicographic s1 s2). split; [apply Compare_spec|]. split.
  - rewrite Compare_spec. f_equal. apply lexicographic_flip.
  - rewrite lexicographic_zero.
    destruct (EqualFunc_spec eql s1 s2) as (b & Hb & Hiff).
    change (Equal s1 s2) with (EqualFunc eql s1 s2). rewrite Hb, <- Hiff.
    split; [intros ->; reflexivity | intros [= ->]; reflexivity].
Qed.

Lemma Compare_antisymmetric_witness :
  exists c, Compare [1; 2; 3] [1; 2; 4] = Returned c /\
            Compare [1; 2; 4] [1; 2; 3] = Returned (- c) /\
            (c = 0 <-> Equal [1; 2; 3] [1; 2; 4] = Returned true).
Proof. apply (Compare_antisymmetric [1; 2; 3] [1; 2; 4]). Defined.

(** *** [IndexPred], [ContainsPred] *)

Lemma IndexPred_loop_spec {E} (eq : E -> bool) :
  forall (rest pre : list E),
    Forall (fun y => eq y = false) pre ->
    let r := IndexPred_loop eq rest (len pre) in
    (r = -1 /\ Forall (fun y => eq y = false) (pre ++ rest)) \/
    (len pre <= r < len (pre ++ rest) /\
     exists x, index (pre ++ rest) r = Some x /\ eq x = true /\
               forall j y, 0 <= j < r -> index (pre ++ rest) j = Some y -> eq y = false).
Proof.
  induction rest as [|v rest IH]; intros pre Hpre; cbn [IndexPred_loop].
  - left. rewrite app_nil_r. auto.
  - destruct (eq v) eqn:Hv.
    + right. rewrite len_app, len_cons. pose proof (len_nonneg rest).
      split; [lia|]. exists v. split; [apply index_app_len|]. split; [exact Hv|].
      intros j y Hj Hy. apply index_Some in Hy as [_ Hy].
      rewrite lookup_app_l in Hy by (unfold len in Hj; lia).
      rewrite Forall_lookup in Hpre. apply (Hpre _ _ Hy).
    + specialize (IH (pre ++ [v])).
      rewrite <- app_assoc in IH. cbn [app] in IH.
      rewrite len_app in IH. change (len [v]) with 1 in IH.
      destruct IH as [IH|IH].
      * apply Forall_app. split; [exact Hpre | constructor; [exact Hv | constructor]].
      * left. exact IH.
      * right. destruct IH as [Hr Hx]. split; [lia | exact Hx].
Qed.

(** X9.  [IndexPred] returns -1 when no element satisfies the predicate,
    and otherwise the first index whose element does; [ContainsPred]
    tells which of the two it is. *)
Theorem IndexPred_first {E : Type} (eq : E -> bool) (s : list E) :
  (IndexPred eq s = -1 /\ ContainsPred eq s = false /\
   forall j y, index s j = Some y -> eq y = false) \/
  (0 <= IndexPred eq s < len s /\ ContainsPred eq s = true /\
   exists x, index s (IndexPred eq s) = Some x /\ eq x = true /\
             forall j y, 0 <= j < IndexPred eq s -> index s j = Some y -> eq y = false).
Proof.
  unfold ContainsPred.
  destruct (IndexPred_loop_spec eq s [] (Forall_nil_2 _)) as [[Hr Hall]|[Hr Hx]];
    cbn [app] in *; rewrite len_nil in *; fold (IndexPred eq s) in *.
  - left. split; [exact Hr|]. split; [rewrite Hr; reflexivity|].
    intros j y Hy. apply index_Some in Hy as [_ Hy].
    rewrite Forall_lookup in Hall. apply (Hall _ _ Hy).
  - right. split; [exact Hr|]. split; [apply Z.leb_le; lia | exact Hx].
Qed.

(** *** [Filter], [FilterFunc], [Chain] *)

Lemma Filter_from (args out : list bool) :
  fold_left (fun out e => out ++ [e]) args out = out ++ args.
Proof.
  revert out. induction args as [|e args IH]; intros out; cbn [fold_left].
  - rewrite app_nil_r. reflexivity.
  - rewrite IH, <- app_assoc. reflexivity.
Qed.

(** X10.  [Filter] tests no element: it returns a copy of its argument,
    the false elements included. *)
Theorem Filter_keeps_all (args : list bool) : Filter args = args.
Proof. unfold Filter. rewrite Filter_from. reflexivity. Qed.

Lemma FilterFunc_from {E} (f : E -> bool) (args out : list E) :
  fold_left (fun out e => if f e then out ++ [e] else out) args out
  = out ++ List.filter f args.
Proof.
  revert out. induction args as [|e args IH]; intros out; cbn [fold_left List.filter].
  - rewrite app_nil_r. reflexivity.
  - rewrite IH. destruct (f e); [rewrite <- app_assoc|]; reflexivity.
Qed.

Lemma FilterFunc_filter {E} (f : E -> bool) (args : list E) :
  FilterFunc f args = List.filter f args.
Proof. unfold FilterFunc. rewrite FilterFunc_from. reflexivity. Qed.

Lemma Chain_from {E} (args : list (list E)) (out : list E) :
  fold_left (fun out arg => out ++ arg) args out = out ++ concat args.
Proof.
  revert out. induction args as [|arg args IH]; intros out; cbn [fold_left concat].
  - rewrite app_nil_r. reflexivity.
  - rewrite IH, <- app_assoc. reflexivity.
Qed.

Lemma Chain_concat {E} (args : list (list E)) : Chain args = concat args.
Proof. unfold Chain. rewrite Chain_from. reflexivity. Qed.

Lemma Chain_app {E} (a b : list (list E)) : Chain (a ++ b) = Chain a ++ Chain b.
Proof. rewrite !Chain_concat. apply concat_app. Qed.

(** *** [All], [AllFunc], [AnyFunc] *)

Lemma All_cons a args : args <> [] -> All (a :: args) = a && All args.
Proof. destruct args; [congruence | reflexivity]. Qed.

Lemma All_iff (args : list bool) :
  All args = true <-> args <> [] /\ forall b, In b args -> b = true.
Proof.
  induction args as [|a args IH].
  - split; [discriminate | intros [Hne _]; congruence].
  - destruct args as [|a' args].
    + cbn [All]. split.
      * intros ->. split; [discriminate|]. intros b [<-|[]]. reflexivity.
      * intros [_ Hall]. apply Hall. left. reflexivity.
    + rewrite All_cons by discriminate. rewrite andb_true_iff, IH. split.
      * intros [-> [_ Hall]]. split; [discriminate|].
        intros b [<-|Hb]; [reflexivity | apply Hall; exact Hb].
      * intros [_ Hall]. split; [apply Hall; left; reflexivity|].
        split; [discriminate|]. intros b Hb. apply Hall. right. exact Hb.
Qed.

(** X11.  [All] is true exactly when the slice is not empty and holds
    only [true]: on the empty slice it is false. *)
Theorem All_nonempty (args : list bool) :
  (All args = true <-> args <> [] /\ forall b, In b args -> b = true) /\
  All [] = false.
Proof. split; [apply All_iff | reflexivity]. Qed.

Lemma AnyFunc_exists {E} (pred : E -> bool) (slice : list E) :
  AnyFunc pred slice = true <-> exists x, In x slice /\ pred x = true.
Proof.
  induction slice as [|e slice IH]; cbn [AnyFunc].
  - split; [discriminate | intros (x & [] & _)].
  - destruct (pred e) eqn:He.
    + split; [|reflexivity]. intros _. exists e. split; [left; reflexivity | exact He].
    + rewrite IH. split.
      * intros (x & Hx & Hp). exists x. split; [right; exact Hx | exact Hp].
      * intros (x & [<-|Hx] & Hp); [congruence|]. exists x. auto.
Qed.

Lemma AllFunc_forall {E} (pred : E -> bool) (slice : list E) :
  AllFunc pred slice = true <-> slice <> [] /\ forall x, In x slice -> pred x = true.
Proof.
  unfold AllFunc, Cast. rewrite All_iff. split.
  - intros [Hne Hall]. split.
    + intros ->. apply Hne. reflexivity.
    + intros x Hx. apply Hall. apply in_map. exact Hx.
  - intros [Hne Hall]. split.
    + intros Hnil. apply map_eq_nil in Hnil. contradiction.
    + intros b Hb. apply in_map_iff in Hb as (x & <- & Hx). apply Hall. exact Hx.
Qed.

(** X12.  [AnyFunc] is true exactly when some element satisfies the
    predicate, and [AllFunc] exactly when the slice is not empty and
    every element does.  On a slice that is not empty [AllFunc(pred)] is
    therefore the negation of [AnyFunc(!pred)]; on the empty slice both
    are false. *)
Theorem AllFunc_AnyFunc {E : Type} (pred : E -> bool) (slice : list E) :
  (AnyFunc pred slice = true <-> exists x, In x slice /\ pred x = true) /\
  (AllFunc pred slice = true <-> slice <> [] /\ forall x, In x slice -> pred x = true) /\
  AllFunc pred slice =
    (if decide (slice = []) then false
     else negb (AnyFunc (fun x => negb (pred x)) slice)).
Proof.
  split; [apply AnyFunc_exists|]. split; [apply AllFunc_forall|].
  destruct (decide (slice = [])) as [->|Hne]; [reflexivity|].
  destruct (AllFunc pred slice) eqn:Hall, (AnyFunc (fun x => negb (pred x)) slice) eqn:Hany;
    try reflexivity; exfalso.
  - apply AllFunc_forall in Hall as [_ Hall].
    apply AnyFunc_exists in Hany as (x & Hx & Hp).
    rewrite (Hall x Hx) in Hp. discriminate.
  - assert (AllFunc pred slice = true); [|congruence].
    apply AllFunc_forall. split; [exact Hne|]. intros x Hx.
    destruct (pred x) eqn:Hp; [reflexivity|].
    assert (AnyFunc (fun x => negb (pred x)) slice = true); [|congruence].
    apply AnyFunc_exists. exists x. rewrite Hp. auto.
Qed.

(** *** [Max], [Min], [Extremal], [Shortest], [Longest] *)

Lemma flip_swo {E} (less : E -> E -> bool) :
  StrictWeakOrder less -> StrictWeakOrder (fun a b => less b a).
Proof.
  intros [Hirr Htrans Hinc]. split.
  - intros a. apply Hirr.
  - intros a b c Hab Hbc. apply (Htrans c b a); assumption.
  - intros a b c H1 H2 H3 H4.
    destruct (Hinc a b c H2 H1 H4 H3) as [H5 H6]. auto.
Qed.

Lemma index_app_l {E} (pre rest : list E) i x :
  index pre i = Some x -> index (pre ++ rest) i = Some x.
Proof.
  intros Hx. apply index_Some in Hx as [Hi Hx]. apply index_Some.
  rewrite len_app. pose proof (len_nonneg rest). split; [lia|].
  apply lookup_app_l_Some. exact Hx.
Qed.

Lemma index_snoc {E} (pre : list E) (a : E) j y :
  index (pre ++ [a]) j = Some y ->
  (0 <= j < len pre /\ index pre j = Some y) \/ (j = len pre /\ y = a).
Proof.
  intros Hy. apply index_Some in Hy as [Hj Hy].
  rewrite len_app in Hj. change (len [a]) with 1 in Hj.
  destruct (Z.lt_ge_cases j (len pre)) as [Hlt|Hge].
  - left. split; [lia|]. apply index_Some. split; [lia|].
    rewrite lookup_app_l in Hy by (unfold len in Hlt; lia). exact Hy.
  - right. assert (j = len pre) as -> by lia. split; [reflexivity|].
    unfold len in Hy. rewrite Nat2Z.id, lookup_app_r, Nat.sub_diag in Hy by lia.
    simpl in Hy. congruence.
Qed.

Lemma first_extreme_step {E} (less : E -> E -> bool) (pre : list E) (arg : E) out best :
  StrictWeakOrder less ->
  first_extreme less pre out -> index pre out = Some best ->
  first_extreme less (pre ++ [arg]) (if less arg best then len pre else out).
Proof.
  intros Hswo (x & Hx & Hmin & Hfirst) Hbest.
  assert (x = best) as -> by congruence.
  destruct (less arg best) eqn:Hless.
  - exists arg. split; [apply index_app_len|]. split.
    + intros j y Hy. apply index_snoc in Hy as [[_ Hy]|[_ ->]].
      * destruct (less y arg) eqn:Hya; [|reflexivity].
        pose proof (swo_trans less Hswo y arg best Hya Hless) as Hyb.
        rewrite (Hmin j y Hy) in Hyb. discriminate.
      * apply (swo_irrefl less Hswo).
    + intros j y Hj Hy. apply index_snoc in Hy as [[_ Hy]|[Hj' _]]; [|lia].
      apply (less_not_less_trans less Hswo arg best y Hless (Hmin j y Hy)).
  - exists best. split; [apply index_app_l; exact Hbest|]. split.
    + intros j y Hy. apply index_snoc in Hy as [[_ Hy]|[_ ->]]; [eauto | exact Hless].
    + intros j y Hj Hy. apply index_Some in Hbest as [Hout _].
      apply index_snoc in Hy as [[_ Hy]|[Hj' _]]; [eauto | lia].
Qed.

Lemma extremal_loop_spec {E} (less : E -> E -> bool) :
  StrictWeakOrder less ->
  forall (rest pre : list E) out,
    first_extreme less pre out ->
    exists m, extremal_loop less (pre ++ rest) rest (len pre) out = Returned m /\
              first_extreme less (pre ++ rest) m.
Proof.
  intros Hswo. induction rest as [|arg rest IH]; intros pre out Hout; cbn [extremal_loop].
  - exists out. rewrite app_nil_r. auto.
  - destruct Hout as (best & Hbest & Hrest).
    rewrite (index_app_l pre (arg :: rest) out best Hbest).
    specialize (IH (pre ++ [arg]) (if less arg best then len pre else out)).
    rewrite <- app_assoc in IH. cbn [app] in IH.
    rewrite len_app in IH. change (len [arg]) with 1 in IH.
    apply IH. apply first_extreme_step; [exact Hswo | exists best; auto | exact Hbest].
Qed.

Lemma first_extreme_singleton {E} (less : E -> E -> bool) (a : E) :
  StrictWeakOrder less -> first_extreme less [a] 0.
Proof.
  intros Hswo. exists a. split; [reflexivity|]. split.
  - intros j y Hy. apply (index_snoc []) in Hy as [[Hj _]|[_ ->]].
    + unfold len in Hj. simpl in Hj. lia.
    + apply (swo_irrefl less Hswo).
  - intros j y Hj. lia.
Qed.

Lemma Extremal_spec {E} (less : E -> E -> bool) (args : list E) :
  StrictWeakOrder less -> args <> [] ->
  exists m, extremal_loop less args args 0 0 = Returned m /\ first_extreme less args m.
Proof.
  intros Hswo Hne. destruct args as [|a args]; [congruence|].
  cbn [extremal_loop]. change (index (a :: args) 0) with (Some a). cbv beta iota.
  rewrite (swo_irrefl less Hswo).
  apply (extremal_loop_spec less Hswo args [a] 0).
  apply first_extreme_singleton. exact Hswo.
Qed.

(** X13.  On a slice that is not empty, of a type whose operators agree
    with one another, [Min] returns the first index of a least element
    and [Max] the first index of a greatest one; [Extremal] does the same
    for any strict weak ordering.  On the empty slice all three return
    0, which is no index of it. *)
Theorem Min_Max_first {E E' : Type} `{OrderedLaws E}
  (args : list E) (operator : E' -> E' -> bool) (args' : list E') :
  args <> [] -> StrictWeakOrder operator -> args' <> [] ->
  (exists m, Min args = Returned m /\ first_extreme lss args m) /\
  (exists m, Max args = Returned m /\ first_extreme (fun a b => lss b a) args m) /\
  (exists m, Extremal operator args' = Returned m /\ first_extreme operator args' m) /\
  Min (@nil E) = Returned 0 /\ Max (@nil E) = Returned 0 /\
  Extremal operator [] = Returned 0.
Proof.
  intros Hne Hswo Hne'. split; [|split; [|split]].
  - apply Extremal_spec; [apply lss_swo | exact Hne].
  - destruct (Extremal_spec (fun a b => lss b a) args (flip_swo lss lss_swo) Hne)
      as (m & Hm & Hfirst).
    exists m. split; [|exact Hfirst]. rewrite <- Hm. unfold Max.
    clear Hm Hfirst Hne. generalize args at 1 3. generalize 0 at 1 3. generalize 0.
    induction args as [|arg rest IH]; intros out i full; cbn [extremal_loop]; [reflexivity|].
    destruct (index full out) as [best|]; [|reflexivity].
    rewrite gtr_lss. apply IH.
  - apply Extremal_spec; assumption.
  - auto.
Qed.

Lemma Min_Max_first_witness :
  (exists m, Min [3; 1; 2; 1] = Returned m /\ first_extreme lss [3; 1; 2; 1] m) /\
  (exists m, Max [3; 1; 2; 1] = Returned m /\
             first_extreme (fun a b => lss b a) [3; 1; 2; 1] m) /\
  (exists m, Extremal Z.ltb [3; 1; 2; 1] = Returned m /\
             first_extreme Z.ltb [3; 1; 2; 1] m) /\
  Min (@nil Z) = Returned 0 /\ Max (@nil Z) = Returned 0 /\
  Extremal Z.ltb [] = Returned 0.
Proof.
  apply (Min_Max_first [3; 1; 2; 1] Z.ltb [3; 1; 2; 1]).
  - discriminate.
  - exact Z_ltb_swo.
  - discriminate.
Defined.

Lemma length_swo {E} : StrictWeakOrder (fun a b : list E => len a <? len b).
Proof. exact (Key_Lt_swo (O := Z) len). Qed.

Lemma Shortest_spec {E} (args : list (list E)) :
  args <> [] ->
  exists m, Shortest args = Returned m /\
            first_extreme (fun a b => len a <? len b) args m.
Proof.
  intros Hne. destruct args as [|a [|b args]]; [congruence| |].
  - exists 0. split; [reflexivity | apply first_extreme_singleton; exact length_swo].
  - apply (Extremal_spec _ (a :: b :: args) length_swo). discriminate.
Qed.

Lemma Longest_spec {E} (args : list (list E)) :
  args <> [] ->
  exists m, Longest args = Returned m /\
            first_extreme (fun a b => len b <? len a) args m.
Proof.
  intros Hne. pose proof (flip_swo _ (@length_swo E)) as Hflip. cbv beta in Hflip.
  destruct args as [|a [|b args]]; [congruence| |].
  - exists 0. split; [reflexivity | apply first_extreme_singleton; exact Hflip].
  - apply (Extremal_spec _ (a :: b :: args) Hflip). discriminate.
Qed.

(** X14.  [Shortest] and [Longest] return -1 when given no slice, and
    otherwise the first index of a slice of the least, respectively the
    greatest, length. *)
Theorem Shortest_Longest_first {E : Type} (args : list (list E)) :
  args <> [] ->
  (exists m, Shortest args = Returned m /\
             first_extreme (fun a b => len a <? len b) args m) /\
  (exists m, Longest args = Returned m /\
             first_extreme (fun a b => len b <? len a) args m) /\
  Shortest (@nil (list E)) = Returned (-1) /\
  Longest (@nil (list E)) = Returned (-1).
Proof.
  intros Hne. split; [apply Shortest_spec; exact Hne|].
  split; [apply Longest_spec; exact Hne | auto].
Qed.

Lemma Shortest_Longest_first_witness :
  (exists m, Shortest [[1; 2]; [3]; [4]] = Returned m /\
             first_extreme (fun a b => len a <? len b) [[1; 2]; [3]; [4]] m) /\
  (exists m, Longest [[1; 2]; [3]; [4]] = Returned m /\
             first_extreme (fun a b => len b <? len a) [[1; 2]; [3]; [4]] m) /\
  Shortest (@nil (list Z)) = Returned (-1) /\
  Longest (@nil (list Z)) = Returned (-1).
Proof. apply (Shortest_Longest_first [[1; 2]; [3]; [4]]). discriminate. Defined.

(** *** [Zip] *)

Lemma Zip_row_spec {K} (args : list (list K)) (i : Z) :
  (forall arg, In arg args -> 0 <= i < len arg) ->
  exists row, Zip_row args i = Returned row /\
              length row = length args /\
              forall j arg, args !! j = Some arg -> row !! j = arg !! Z.to_nat i.
Proof.
  induction args as [|arg args IH]; intros Hall; cbn [Zip_row].
  - exists []. split; [reflexivity|]. split; [reflexivity|]. intros j arg Hj.
    rewrite lookup_nil in Hj. discriminate.
  - destruct (index_is_Some arg i) as [x Hx]; [apply Hall; left; reflexivity|].
    rewrite Hx. destruct IH as (row & Hrow & Hlen & Hcol).
    { intros a Ha. apply Hall. right. exact Ha. }
    rewrite Hrow. exists (x :: row). split; [reflexivity|]. split; [simpl; lia|].
    intros [|j] a Ha; simpl in Ha |- *.
    + injection Ha as <-. apply index_Some in Hx as [_ Hx]. symmetry. exact Hx.
    + apply Hcol. exact Ha.
Qed.

Lemma Zip_rows_spec {K} (args : list (list K)) :
  forall (todo : nat) (i : nat),
    (forall arg, In arg args -> (i + todo <= length arg)%nat) ->
    exists rows, Zip_rows args (Z.of_nat i) todo = Returned rows /\
                 length rows = todo /\
                 forall k row, rows !! k = Some row ->
                   length row = length args /\
                   forall j arg, args !! j = Some arg -> row !! j = arg !! (i + k)%nat.
Proof.
  induction todo as [|todo IH]; intros i Hall; cbn [Zip_rows].
  - exists []. split; [reflexivity|]. split; [reflexivity|]. intros k row Hk.
    rewrite lookup_nil in Hk. discriminate.
  - destruct (Zip_row_spec args (Z.of_nat i)) as (row & Hrow & Hlen & Hcol).
    { intros arg Harg. specialize (Hall arg Harg). unfold len. lia. }
    rewrite Hrow. destruct (IH (S i)) as (rows & Hrows & Hcount & Hcols).
    { intros arg Harg. specialize (Hall arg Harg). lia. }
    replace (Z.of_nat i + 1) with (Z.of_nat (S i)) by lia.
    rewrite Hrows. exists (row :: rows). split; [reflexivity|]. split; [simpl; lia|].
    intros [|k] r Hr; simpl in Hr.
    + injection Hr as <-. split; [exact Hlen|]. intros j arg Harg.
      rewrite (Hcol j arg Harg), Nat2Z.id, Nat.add_0_r. reflexivity.
    + destruct (Hcols k r Hr) as [Hl Hc]. split; [exact Hl|].
      intros j arg Harg. rewrite (Hc j arg Harg). f_equal. lia.
Qed.

(** X15.  [Zip] panics when it is given no slice.  Given some, it
    returns as many rows as the shortest of them has elements, each
    row as long as the number of slices, with the element [i] of the
    slice [j] at the place [j] of the row [i]. *)
Theorem Zip_transposes {K : Type} (args : list (list K)) :
  args <> [] ->
  Zip (@nil (list K)) = Panicked /\
  exists out, Zip args = Returned out /\
    (forall arg, In arg args -> (length out <= length arg)%nat) /\
    (exists arg, In arg args /\ length out = length arg) /\
    (forall i row, out !! i = Some row ->
       length row = length args /\
       forall j arg, args !! j = Some arg -> row !! j = arg !! i).
Proof.
  intros Hne. split; [reflexivity|].
  destruct (Shortest_spec args Hne) as (m & Hm & x & Hx & Hmin & _).
  unfold Zip. rewrite Hm, Hx.
  assert (0 <= m) as Hm0 by (apply index_Some in Hx; lia).
  destruct (Z.ltb_spec (-1) m) as [_|]; [|lia].
  assert (forall arg, In arg args -> (length x <= length arg)%nat) as Hshort.
  { intros arg Harg. apply list_elem_of_In in Harg.
    apply list_elem_of_lookup in Harg as [j Hj].
    rewrite <- index_of_nat in Hj. specialize (Hmin _ _ Hj). cbv beta in Hmin.
    apply Z.ltb_ge in Hmin. unfold len in Hmin. lia. }
  destruct (Zip_rows_spec args (length x) 0%nat) as (rows & Hrows & Hcount & Hcols).
  { intros arg Harg. specialize (Hshort arg Harg). lia. }
  exists rows. split; [exact Hrows|]. rewrite Hcount. split; [exact Hshort|]. split.
  - exists x. split; [|reflexivity]. apply index_Some in Hx as [_ Hx].
    apply list_elem_of_In. apply list_elem_of_lookup. eauto.
  - exact Hcols.
Qed.

Lemma Zip_transposes_witness :
  Zip (@nil (list Z)) = Panicked /\
  exists out, Zip [[1; 2; 3]; [4; 5]] = Returned out /\
    (forall arg, In arg [[1; 2; 3]; [4; 5]] -> (length out <= length arg)%nat) /\
    (exists arg, In arg [[1; 2; 3]; [4; 5]] /\ length out = length arg) /\
    (forall i row, out !! i = Some row ->
       length row = length [[1; 2; 3]; [4; 5]] /\
       forall j arg, [[1; 2; 3]; [4; 5]] !! j = Some arg -> row !! j = arg !! i).
Proof. apply (Zip_transposes [[1; 2; 3]; [4; 5]]). discriminate. Defined.

(** *** [SplitPred], [SplitAfterPred], [Snap] *)

Lemma append_to_last_snoc {E} (init : list (list E)) (piece : list E) (e : E) :
  append_to_last (init ++ [piece]) e = Returned (init ++ [piece ++ [e]]).
Proof.
  unfold append_to_last. rewrite length_app. cbn [length].
  replace (length init + 1 - 1)%nat with (length init + 0)%nat by lia.
  rewrite lookup_app_r by lia.
  replace (length init + 0 - length init)%nat with 0%nat by lia. cbn [lookup list_lookup].
  rewrite insert_app_r. reflexivity.
Qed.

Lemma nonempty_snoc {A} (l : list A) : l <> [] -> exists init x, l = init ++ [x].
Proof.
  intros Hne. destruct (exists_last Hne) as (init & x & ->). eauto.
Qed.

Lemma SplitAfterPred_loop_spec {E} (function : E -> bool) :
  forall (rest : list E) (out : list (list E)),
    out <> [] ->
    exists res, SplitAfterPred_loop function rest out = Returned res /\
                Chain res = Chain out ++ rest /\
                length res = (length out + length (List.filter function rest))%nat.
Proof.
  induction rest as [|e rest IH]; intros out Hne; cbn [SplitAfterPred_loop].
  - exists out. rewrite app_nil_r. simpl. split; [reflexivity|]. split; [reflexivity | lia].
  - destruct (nonempty_snoc out Hne) as (init & piece & ->).
    rewrite append_to_last_snoc.
    destruct (IH (if function e then (init ++ [piece ++ [e]]) ++ [[]]
                  else init ++ [piece ++ [e]])) as (res & Hres & Hchain & Hlen).
    { destruct (function e); intros Hnil; apply app_eq_nil in Hnil as [_ Hnil]; discriminate. }
    exists res. split; [exact Hres|]. rewrite Hchain, Hlen. cbn [List.filter].
    destruct (function e).
    + rewrite !Chain_app, !Chain_concat. simpl. rewrite !app_nil_r, <- !app_assoc.
      split; [reflexivity|]. rewrite !length_app. simpl. lia.
    + rewrite !Chain_app, !Chain_concat. simpl. rewrite !app_nil_r, <- !app_assoc.
      split; [reflexivity|]. rewrite !length_app. simpl. lia.
Qed.

(** X16.  [SplitAfterPred] never panics; chaining the pieces it returns
    gives back the slice, and there is one piece more than there are
    elements that satisfy the predicate. *)
Theorem SplitAfterPred_Chain {E : Type} (function : E -> bool) (slice : list E) :
  exists pieces, SplitAfterPred function slice = Returned pieces /\
                 Chain pieces = slice /\
                 length pieces = S (length (FilterFunc function slice)).
Proof.
  destruct (SplitAfterPred_loop_spec function slice [[]]) as (res & Hres & Hchain & Hlen);
    [discriminate|].
  exists res. split; [exact Hres|]. split; [exact Hchain|].
  rewrite FilterFunc_filter. exact Hlen.
Qed.

Lemma SplitPred_loop_spec {E} (pred : E -> bool) :
  forall (rest : list E) (out : list (list E)),
    out <> [] ->
    Forall (Forall (fun x => pred x = false)) out ->
    exists res, SplitPred_loop pred rest out = Returned res /\
                Chain res = Chain out ++ List.filter (fun x => negb (pred x)) rest /\
                length res = (length out + length (List.filter pred rest))%nat /\
                Forall (Forall (fun x => pred x = false)) res.
Proof.
  induction rest as [|e rest IH]; intros out Hne Hclean; cbn [SplitPred_loop].
  - exists out. rewrite app_nil_r. simpl. split; [reflexivity|].
    split; [reflexivity|]. split; [lia | exact Hclean].
  - cbn [List.filter]. destruct (pred e) eqn:He; cbn [negb].
    + destruct (IH (out ++ [[]])) as (res & Hres & Hchain & Hlen & Hall).
      { intros Hnil. apply app_eq_nil in Hnil as [_ Hnil]. discriminate. }
      { apply Forall_app. split; [exact Hclean | repeat constructor]. }
      exists res. split; [exact Hres|]. rewrite Hchain, Hlen.
      rewrite Chain_app, (Chain_concat [[]]). simpl. rewrite app_nil_r.
      split; [reflexivity|]. split; [|exact Hall]. rewrite length_app. simpl. lia.
    + destruct (nonempty_snoc out Hne) as (init & piece & ->).
      rewrite append_to_last_snoc.
      apply Forall_app in Hclean as [Hinit Hpiece].
      destruct (IH (init ++ [piece ++ [e]])) as (res & Hres & Hchain & Hlen & Hall).
      { intros Hnil. apply app_eq_nil in Hnil as [_ Hnil]. discriminate. }
      { apply Forall_app. split; [exact Hinit|]. constructor; [|constructor].
        apply Forall_app. split; [inversion Hpiece; assumption | repeat constructor; exact He]. }
      exists res. split; [exact Hres|]. rewrite Hchain, Hlen.
      rewrite !Chain_app, !Chain_concat. simpl. rewrite !app_nil_r, <- !app_assoc.
      split; [reflexivity|]. split; [|exact Hall]. rewrite !length_app. simpl. lia.
Qed.

(** X17.  [SplitPred] never panics; no piece it returns holds an
    element that satisfies the predicate, chaining the pieces gives the
    slice without those elements, and there is one piece more than
    there are such elements. *)
Theorem SplitPred_Chain {E : Type} (pred : E -> bool) (slice : list E) :
  exists pieces, SplitPred pred slice = Returned pieces /\
                 Chain pieces = FilterFunc (fun x => negb (pred x)) slice /\
                 length pieces = S (length (FilterFunc pred slice)) /\
                 forall piece x, In piece pieces -> In x piece -> pred x = false.
Proof.
  destruct (SplitPred_loop_spec pred slice [[]]) as (res & Hres & Hchain & Hlen & Hall);
    [discriminate | repeat constructor |].
  exists res. split; [exact Hres|]. rewrite !FilterFunc_filter.
  split; [exact Hchain|]. split; [exact Hlen|].
  intros piece x Hpiece Hx.
  rewrite List.Forall_forall in Hall. specialize (Hall piece Hpiece).
  rewrite List.Forall_forall in Hall. apply Hall. exact Hx.
Qed.

Lemma mod_succ_cases w i :
  0 < w -> 0 <= i ->
  ((i + 1) mod w = 0 /\ i mod w = w - 1) \/
  ((i + 1) mod w <> 0 /\ (i + 1) mod w = i mod w + 1).
Proof.
  intros Hw Hi.
  pose proof (Z.mod_pos_bound i w Hw) as Hr.
  pose proof (Z.div_mod i w ltac:(lia)) as Hdm.
  destruct (Z.eq_dec (i mod w) (w - 1)) as [Heq|Hne].
  - left. split; [|exact Heq].
    symmetry. apply (Z.mod_unique_pos (i + 1) w (i / w + 1) 0); lia.
  - right.
    assert ((i + 1) mod w = i mod w + 1) as Hs.
    { symmetry. apply (Z.mod_unique_pos (i + 1) w (i / w) (i mod w + 1)); lia. }
    split; [lia | exact Hs].
Qed.

Lemma rem_zero_abs i width :
  0 <= i -> width <> 0 -> (Z.rem i width =? 0) = (i mod Z.abs width =? 0).
Proof.
  intros Hi Hw. rewrite <- (Z.rem_abs_r i width) by exact Hw.
  rewrite Z.rem_mod_nonneg by lia. reflexivity.
Qed.

Lemma Snap_loop_spec {E} (width : Z) :
  width <> 0 ->
  forall (rest pre : list E) (out : list (list E)),
    snapped (Z.abs width) pre out ->
    exists res, Snap_loop width rest (len pre) out = Returned res /\
                snapped (Z.abs width) (pre ++ rest) res.
Proof.
  intros Hw. assert (0 < Z.abs width) as Hpos by lia.
  induction rest as [|e rest IH]; intros pre out Hinv; cbn [Snap_loop].
  - exists out. rewrite app_nil_r. auto.
  - rewrite rem_zero_abs by (try apply len_nonneg; exact Hw).
    specialize (IH (pre ++ [e])).
    rewrite <- app_assoc in IH. cbn [app] in IH.
    rewrite len_app in IH. change (len [e]) with 1 in IH.
    destruct Hinv as (Hchain & Hnil & Hcons).
    assert (len (pre ++ [e]) - 1 = len pre) as Hlen
      by (rewrite len_app; change (len [e]) with 1; lia).
    destruct (Z.eqb_spec (len pre mod Z.abs width) 0) as [Hzero|Hnz].
    + rewrite (append_to_last_snoc out [] e). cbn [app].
      apply IH. split; [|split].
      * rewrite Chain_app, (Chain_concat [[e]]), Hchain. simpl. reflexivity.
      * intros Hp. apply app_eq_nil in Hp as [_ Hp]. discriminate.
      * intros _. exists out, [e]. split; [reflexivity|]. split.
        -- destruct pre as [|p pre']; [rewrite Hnil by reflexivity; constructor|].
           destruct Hcons as (init & last & -> & Hinit & Hlast); [discriminate|].
           apply Forall_app. split; [exact Hinit|]. constructor; [|constructor].
           rewrite Hlast.
           destruct (mod_succ_cases (Z.abs width) (len (p :: pre') - 1) Hpos) as [[_ H1]|[H1 _]].
           { rewrite len_cons. pose proof (len_nonneg pre'). lia. }
           { lia. }
           { replace (len (p :: pre') - 1 + 1) with (len (p :: pre')) in H1 by lia.
             contradiction. }
        -- rewrite Hlen, Hzero. reflexivity.
    + destruct pre as [|p pre'].
      { change (len (@nil E)) with 0 in Hnz. rewrite Z.mod_0_l in Hnz by lia. contradiction. }
      destruct Hcons as (init & last & -> & Hinit & Hlast); [discriminate|].
      rewrite append_to_last_snoc.
      apply IH. split; [|split].
      * rewrite !Chain_app, !Chain_concat in *. simpl in *.
        rewrite app_nil_r in *. rewrite app_assoc, Hchain. reflexivity.
      * intros Hp. discriminate.
      * intros _. exists init, (last ++ [e]). split; [reflexivity|]. split; [exact Hinit|].
        rewrite len_app, Hlast, Hlen. change (len [e]) with 1.
        destruct (mod_succ_cases (Z.abs width) (len (p :: pre') - 1) Hpos) as [[H1 _]|[_ H1]].
        { rewrite len_cons. pose proof (len_nonneg pre'). lia. }
        { replace (len (p :: pre') - 1 + 1) with (len (p :: pre')) in H1 by lia.
          contradiction. }
        { replace (len (p :: pre') - 1 + 1) with (len (p :: pre')) in H1 by lia. lia. }
Qed.

(** X18.  [Snap] never panics and chaining its pieces gives back the
    slice.  With the width 0 the pieces are an empty one and the whole
    slice; with any other width [w] no piece is empty, every piece but
    the last has exactly [|w|] elements and the last has at most
    [|w|]. *)
Theorem Snap_Chain {E : Type} (width : Z) (arg : list E) :
  exists out, Snap width arg = Returned out /\
              Chain out = arg /\
              (width = 0 -> out = [[]; arg]) /\
              (width <> 0 ->
               forall (k : nat) piece, out !! k = Some piece ->
                 0 < len piece <= Z.abs width /\
                 (S k < length out -> len piece = Z.abs width)%nat).
Proof.
  unfold Snap. destruct (Z.eqb_spec width 0) as [->|Hw].
  - exists [take 0 arg; drop 0 arg]. split; [reflexivity|].
    split; [rewrite Chain_concat; simpl; rewrite app_nil_r; reflexivity|].
    split; [intros _; reflexivity | congruence].
  - destruct (Snap_loop_spec width Hw arg [] []) as (res & Hres & Hchain & Hnil & Hcons).
    { split; [reflexivity|]. split; [reflexivity | congruence]. }
    cbn [app] in *. change (len (@nil E)) with 0 in Hres.
    exists res. split; [exact Hres|]. split; [exact Hchain|]. split; [congruence|].
    intros _ k piece Hk.
    destruct arg as [|a arg]; [rewrite Hnil in Hk by reflexivity; rewrite lookup_nil in Hk; discriminate|].
    destruct Hcons as (init & last & -> & Hinit & Hlast); [discriminate|].
    assert (0 < Z.abs width) as Hpos by lia.
    pose proof (Z.mod_pos_bound (len (a :: arg) - 1) (Z.abs width) Hpos) as Hr.
    rewrite length_app. cbn [length].
    destruct (Nat.lt_ge_cases k (length init)) as [Hlt|Hge].
    + rewrite lookup_app_l in Hk by exact Hlt.
      rewrite Forall_lookup in Hinit. rewrite (Hinit k piece Hk). lia.
    + rewrite lookup_app_r in Hk by exact Hge.
      destruct (k - length init)%nat eqn:Hd; simpl in Hk; [|rewrite lookup_nil in Hk; discriminate].
      injection Hk as <-. rewrite Hlast. split; [lia|]. intros Hk'. lia.
Qed.

(** *** [Upto] *)

Lemma Upto_up_spec (stop : Z) :
  stop < 2 ^ 63 ->
  forall (fuel : nat) (i : Z) (out : list Z),
    - 2 ^ 63 <= i -> i <= stop -> stop - i <= Z.of_nat fuel ->
    Upto_up fuel i stop 1 out = Returned (out ++ seqZ i (stop - i)).
Proof.
  intros Hstop. induction fuel as [|fuel IH]; intros i out Hlo Hi Hfuel; cbn [Upto_up].
  - destruct (Z.ltb_spec i stop); [lia|].
    replace (stop - i) with 0 by lia. rewrite app_nil_r. reflexivity.
  - destruct (Z.ltb_spec i stop) as [Hlt|Hge].
    + rewrite to_int_id by (unfold is_int; lia).
      rewrite IH by lia. rewrite <- app_assoc. f_equal. cbn [app].
      rewrite (seqZ_cons i (stop - i)) by lia.
      replace (Z.succ i) with (i + 1) by lia.
      replace (Z.pred (stop - i)) with (stop - (i + 1)) by lia. reflexivity.
    + replace (stop - i) with 0 by lia. rewrite app_nil_r. reflexivity.
Qed.

Lemma Upto_down_spec (stop : Z) :
  - 2 ^ 63 <= stop ->
  forall (fuel : nat) (i : Z) (out : list Z),
    i < 2 ^ 63 -> stop <= i -> i - stop <= Z.of_nat fuel ->
    Upto_down fuel i stop (-1) out
    = Returned (out ++ map (fun k => i - k) (seqZ 0 (i - stop))).
Proof.
  intros Hstop. induction fuel as [|fuel IH]; intros i out Hhi Hi Hfuel; cbn [Upto_down].
  - destruct (Z.ltb_spec stop i); [lia|].
    replace (i - stop) with 0 by lia. rewrite app_nil_r. reflexivity.
  - destruct (Z.ltb_spec stop i) as [Hlt|Hge].
    + rewrite to_int_id by (unfold is_int; lia).
      rewrite IH by lia. rewrite <- app_assoc. f_equal. cbn [app].
      rewrite (seqZ_cons 0 (i - stop)) by lia. cbn [map].
      rewrite Z.sub_0_r. f_equal.
      replace (Z.pred (i - stop)) with (i + -1 - stop) by lia.
      replace (Z.succ 0) with (1 + 0) by lia.
      rewrite <- (fmap_add_seqZ 1 0).
      change (map ?f ?l) with (f <$> l).
      rewrite <- list_fmap_compose. f_equal. apply list_fmap_ext.
      intros _ k _. simpl. lia.
    + replace (i - stop) with 0 by lia. rewrite app_nil_r. reflexivity.
Qed.

Lemma Upto_zero_step_loop (stop : Z) :
  forall (fuel : nat) (i : Z) (out : list Z),
    is_int i -> i < stop -> Upto_up fuel i stop 0 out = OutOfFuel.
Proof.
  induction fuel as [|fuel IH]; intros i out Hint Hi; cbn [Upto_up];
    destruct (Z.ltb_spec i stop); try lia; [reflexivity|].
  rewrite Z.add_0_r, (to_int_id i Hint). apply IH; assumption.
Qed.

(** X19.  At the type [int], with enough fuel for its iterations,
    [Uptonm(start, stop)] returns [start, start+1, ..., stop-1] and
    [Upto(start, stop, -1)] with [stop <= start] returns
    [start, start-1, ..., stop+1]; [Upto] panics when [stop < start] and
    the step is not negative; and with the step 0 and [start < stop] it
    returns for no amount of fuel: the loop never ends. *)
Theorem Upto_counts (fuel : nat) (start stop : Z) :
  is_int start -> is_int stop -> start <= stop -> stop - start <= Z.of_nat fuel ->
  Uptonm fuel start stop = Returned (seqZ start (stop - start)) /\
  (0 <= stop <= Z.of_nat fuel -> Upton fuel stop = Returned (seqZ 0 stop)) /\
  Upto fuel stop start (-1) = Returned (map (fun k => stop - k) (seqZ 0 (stop - start))) /\
  (forall step, start < stop -> 0 <= step -> Upto fuel stop start step = Panicked) /\
  (forall fuel', start < stop -> Upto fuel' start stop 0 = OutOfFuel).
Proof.
  intros [Hlo Hhi] [Hlo' Hhi'] Hle Hfuel. split; [|split; [|split; [|split]]].
  - unfold Uptonm, Upto.
    destruct (Z.ltb_spec stop start); [lia|]. cbn [andb].
    destruct (Z.leb_spec start stop); [|lia].
    rewrite (Upto_up_spec stop Hhi') by lia. reflexivity.
  - intros Hstop. unfold Upton, Upto.
    destruct (Z.ltb_spec stop 0); [lia|]. cbn [andb].
    destruct (Z.leb_spec 0 stop); [|lia].
    rewrite (Upto_up_spec stop Hhi') by lia. rewrite Z.sub_0_r. reflexivity.
  - unfold Upto. change (0 <=? -1) with false. rewrite andb_false_r.
    destruct (Z.leb_spec stop start) as [Hle'|Hgt].
    + assert (stop = start) as -> by lia. rewrite Z.sub_diag.
      destruct fuel; cbn [Upto_up]; rewrite Z.ltb_irrefl; reflexivity.
    + rewrite (Upto_down_spec start Hlo) by lia. reflexivity.
  - intros step Hlt Hstep. unfold Upto.
    destruct (Z.ltb_spec start stop); [|lia].
    destruct (Z.leb_spec 0 step); [reflexivity | lia].
  - intros fuel' Hlt. unfold Upto.
    destruct (Z.ltb_spec stop start); [lia|]. cbn [andb].
    destruct (Z.leb_spec start stop); [|lia].
    apply Upto_zero_step_loop; [split; assumption | exact Hlt].
Qed.

Lemma Upto_counts_witness :
  Uptonm 5 2 5 = Returned (seqZ 2 (5 - 2)) /\
  (0 <= 5 <= Z.of_nat 5 -> Upton 5 5 = Returned (seqZ 0 5)) /\
  Upto 5 5 2 (-1) = Returned (map (fun k => 5 - k) (seqZ 0 (5 - 2))) /\
  (forall step, 2 < 5 -> 0 <= step -> Upto 5 5 2 step = Panicked) /\
  (forall fuel', 2 < 5 -> Upto fuel' 2 5 0 = OutOfFuel).
Proof. apply (Upto_counts 5 2 5); unfold is_int; lia. Defined.

(** *** [Select], [SelectStrict] *)

Lemma Select_spec {E} (slice : list E) (indices : list Z) :
  slice <> [] -> (forall e, In e indices -> 0 <= e) ->
  exists out, Select slice indices = Returned out /\
              length out = length indices /\
              forall i e, indices !! i = Some e ->
                          out !! i = slice !! Z.to_nat (e mod len slice).
Proof.
  intros Hne. assert (0 < len slice) as Hlen.
  { destruct slice as [|a sl]; [congruence|]. rewrite len_cons. pose proof (len_nonneg sl). lia. }
  induction indices as [|e rest IH]; intros Hpos; cbn [Select].
  - exists []. split; [reflexivity|]. split; [reflexivity|]. intros i e Hi.
    rewrite lookup_nil in Hi. discriminate.
  - destruct (Z.eqb_spec (len slice) 0); [lia|].
    assert (0 <= e) as He by (apply Hpos; left; reflexivity).
    rewrite Z.rem_mod_nonneg by lia.
    pose proof (Z.mod_pos_bound e (len slice) Hlen) as Hr.
    destruct (index_is_Some slice (e mod len slice) Hr) as [x Hx]. rewrite Hx.
    destruct IH as (out & Hout & Hl & Hsel).
    { intros e' He'. apply Hpos. right. exact He'. }
    rewrite Hout. exists (x :: out). split; [reflexivity|]. split; [simpl; lia|].
    intros [|i] e' Hi; simpl in Hi |- *.
    + injection Hi as <-. apply index_Some in Hx as [_ Hx]. symmetry. exact Hx.
    + apply Hsel. exact Hi.
Qed.

Lemma Select_negative {E} (slice : list E) (indices : list Z) e :
  In e indices -> Z.rem e (len slice) < 0 -> Select slice indices = Panicked.
Proof.
  induction indices as [|e' rest IH]; intros Hin Hrem; [destruct Hin|].
  cbn [Select]. destruct (len slice =? 0); [reflexivity|].
  destruct Hin as [->|Hin].
  - rewrite index_outside by (left; exact Hrem). reflexivity.
  - destruct (index slice (Z.rem e' (len slice))); [|reflexivity].
    rewrite (IH Hin Hrem). reflexivity.
Qed.

Lemma SelectStrict_loop_spec {E} (slice : list E) :
  forall (indices : list Z) (out : list E),
    (forall e, In e indices -> 0 <= e < len slice) ->
    exists picked, SelectStrict_loop slice indices out = Returned (out ++ picked) /\
                   length picked = length indices /\
                   forall i e, indices !! i = Some e -> picked !! i = slice !! Z.to_nat e.
Proof.
  induction indices as [|e rest IH]; intros out Hin; cbn [SelectStrict_loop].
  - exists []. rewrite app_nil_r. split; [reflexivity|]. split; [reflexivity|].
    intros i e Hi. rewrite lookup_nil in Hi. discriminate.
  - destruct (index_is_Some slice e) as [x Hx]; [apply Hin; left; reflexivity|].
    rewrite Hx. destruct (IH (out ++ [x])) as (picked & Hres & Hl & Hsel).
    { intros e' He'. apply Hin. right. exact He'. }
    exists (x :: picked). rewrite Hres, <- app_assoc. split; [reflexivity|].
    split; [simpl; lia|].
    intros [|i] e' Hi; simpl in Hi |- *.
    + injection Hi as <-. apply index_Some in Hx as [_ Hx]. symmetry. exact Hx.
    + apply Hsel. exact Hi.
Qed.

(** X20.  On a slice that is not empty [Select] takes every index that
    is not negative modulo the length of the slice and returns one
    element for each; it panics on an index whose remainder is negative.
    [SelectStrict], given indices of the slice, returns twice as many
    elements as there are indices: first that many zero values, then the
    elements at the indices. *)
Theorem Select_wraps {E : Type} (zero : E) (slice : list E) (indices strict : list Z) :
  slice <> [] -> (forall e, In e indices -> 0 <= e) ->
  (forall e, In e strict -> 0 <= e < len slice) ->
  (exists out, Select slice indices = Returned out /\
               length out = length indices /\
               forall i e, indices !! i = Some e ->
                           out !! i = slice !! Z.to_nat (e mod len slice)) /\
  (forall others e, In e others -> Z.rem e (len slice) < 0 ->
                    Select slice others = Panicked) /\
  (exists picked, SelectStrict zero slice strict
                  = Returned (replicate (length strict) zero ++ picked) /\
                  length picked = length strict /\
                  forall i e, strict !! i = Some e -> picked !! i = slice !! Z.to_nat e).
Proof.
  intros Hne Hpos Hin. split; [apply Select_spec; assumption|].
  split; [intros others e; apply Select_negative|].
  apply SelectStrict_loop_spec. exact Hin.
Qed.

Lemma Select_wraps_witness :
  (exists out, Select [10; 20; 30] [4; 0; 5] = Returned out /\
               length out = length [4; 0; 5] /\
               forall i e, [4; 0; 5] !! i = Some e ->
                           out !! i = [10; 20; 30] !! Z.to_nat (e mod len [10; 20; 30])) /\
  (forall others e, In e others -> Z.rem e (len [10; 20; 30]) < 0 ->
                    Select [10; 20; 30] others = Panicked) /\
  (exists picked, SelectStrict 0 [10; 20; 30] [2; 0]
                  = Returned (replicate (length [2; 0]) 0 ++ picked) /\
                  length picked = length [2; 0] /\
                  forall i e, [2; 0] !! i = Some e -> picked !! i = [10; 20; 30] !! Z.to_nat e).
Proof.
  apply (Select_wraps 0 [10; 20; 30] [4; 0; 5] [2; 0]).
  - discriminate.
  - intros e [<-|[<-|[<-|[]]]]; lia.
  - intros e [<-|[<-|[]]]; vm_compute; split; congruence.
Defined.

(** *** [Skip] *)

Lemma Skip_loop_spec {T} (index : Z) :
  forall (rest : list T) (i : Z) (out : list T),
    Skip_loop index rest i out =
    out ++ (if (i <=? index) && (index <? i + len rest)
            then take (Z.to_nat (index - i)) rest ++ drop (S (Z.to_nat (index - i))) rest
            else rest).
Proof.
  induction rest as [|e rest IH]; intros i out; cbn [Skip_loop].
  - rewrite len_nil. destruct ((i <=? index) && (index <? i + 0)) eqn:Hc.
    + apply andb_true_iff in Hc as [H1 H2]. apply Z.leb_le in H1. apply Z.ltb_lt in H2. lia.
    + rewrite app_nil_r. reflexivity.
  - rewrite IH, len_cons. pose proof (len_nonneg rest) as Hl.
    destruct (Z.eqb_spec i index) as [->|Hne]; cbn [negb].
    + destruct (Z.leb_spec (index + 1) index); [lia|]. cbn [andb].
      destruct (Z.leb_spec index index); [|lia].
      destruct (Z.ltb_spec index (index + (len rest + 1))); [|lia]. cbn [andb].
      rewrite Z.sub_diag. reflexivity.
    + rewrite <- app_assoc. f_equal. cbn [app].
      replace (i + 1 + len rest) with (i + (len rest + 1)) by lia.
      destruct (Z.ltb_spec index (i + (len rest + 1))) as [Hin|Hout].
      * rewrite !andb_true_r.
        destruct (Z.leb_spec (i + 1) index), (Z.leb_spec i index); try lia; [|reflexivity].
        replace (Z.to_nat (index - i)) with (S (Z.to_nat (index - (i + 1)))) by lia.
        reflexivity.
      * rewrite !andb_false_r. reflexivity.
Qed.

(** X21.  At the type [int], [Skip] with an index of the slice returns
    the slice without the element at that index; with any other index,
    negative ones included, it returns an empty slice, not the
    argument. *)
Theorem Skip_removes {T : Type} (index : Z) (arg : list T) :
  is_int index -> len arg < 2 ^ 63 ->
  (0 <= index < len arg ->
   Skip index arg = take (Z.to_nat index) arg ++ drop (S (Z.to_nat index)) arg) /\
  (index < 0 \/ len arg <= index -> arg <> [] -> Skip index arg = []) /\
  Skip index (@nil T) = [].
Proof.
  intros [Hlo Hhi] Hlen. pose proof (len_nonneg arg) as Hnn. unfold Skip.
  split; [|split].
  - intros Hi. unfold to_uint.
    rewrite (Z.mod_small (len arg - 1)) by lia. rewrite (Z.mod_small index) by lia.
    destruct (Z.ltb_spec (len arg - 1) index); [lia|].
    rewrite Skip_loop_spec. cbn [app].
    destruct (Z.leb_spec 0 index); [|lia].
    destruct (Z.ltb_spec index (0 + len arg)); [|lia]. cbn [andb].
    rewrite Z.sub_0_r. reflexivity.
  - intros Hout Hne.
    assert (0 < len arg).
    { destruct arg as [|t arg']; [congruence|].
      rewrite len_cons. pose proof (len_nonneg arg'). lia. }
    unfold to_uint. rewrite (Z.mod_small (len arg - 1)) by lia.
    destruct Hout as [Hneg|Hbig].
    + replace index with (index + 2 ^ 64 + (-1) * 2 ^ 64) by lia.
      rewrite Z.mod_add by lia. rewrite Z.mod_small by lia.
      destruct (Z.ltb_spec (len arg - 1) (index + 2 ^ 64)); [reflexivity | lia].
    + rewrite (Z.mod_small index) by lia.
      destruct (Z.ltb_spec (len arg - 1) index); [reflexivity | lia].
  - destruct (to_uint (len (@nil T) - 1) <? to_uint index); reflexivity.
Qed.

Lemma Skip_removes_witness :
  (0 <= 1 < len [7; 8; 9] ->
   Skip 1 [7; 8; 9] = take (Z.to_nat 1) [7; 8; 9] ++ drop (S (Z.to_nat 1)) [7; 8; 9]) /\
  (1 < 0 \/ len [7; 8; 9] <= 1 -> [7; 8; 9] <> [] -> Skip 1 [7; 8; 9] = []) /\
  Skip 1 (@nil Z) = [].
Proof. apply (Skip_removes 1 [7; 8; 9]); [unfold is_int; lia | reflexivity]. Defined.

(** *** [Rotated] *)

Lemma Rotated_steps k n :
  0 < n < 2 ^ 63 ->
  (if Z.rem k n <? 0 then to_int (Z.rem k n + n) else Z.rem k n) = k mod n.
Proof.
  intros Hn. pose proof (Z.quot_rem' k n) as Hqr.
  destruct (Z.le_gt_cases 0 k) as [Hk|Hk].
  - pose proof (Z.rem_bound_pos k n Hk ltac:(lia)) as Hr.
    destruct (Z.ltb_spec (Z.rem k n) 0); [lia|].
    apply (Z.mod_unique_pos k n (Z.quot k n)); [exact Hr | exact Hqr].
  - pose proof (Z.rem_bound_pos_neg k n ltac:(lia) ltac:(lia)) as Hr.
    destruct (Z.ltb_spec (Z.rem k n) 0) as [Hneg|Hzero].
    + rewrite to_int_id by (unfold is_int; lia).
      apply (Z.mod_unique_pos k n (Z.quot k n - 1)); lia.
    + apply (Z.mod_unique_pos k n (Z.quot k n)); lia.
Qed.

Lemma Rotated_rotate {T} (s : list T) (k : Z) :
  len s < 2 ^ 63 -> Rotated s k = rotate (Z.to_nat (k mod len s)) s.
Proof.
  intros Hlen. unfold Rotated. destruct (Z.eqb_spec (len s) 0) as [Hz|Hnz].
  - destruct s; [unfold rotate; rewrite drop_nil, take_nil; reflexivity|].
    rewrite len_cons in Hz. pose proof (len_nonneg s). lia.
  - pose proof (len_nonneg s) as Hnn. cbv zeta.
    rewrite Rotated_steps by lia.
    pose proof (Z.mod_pos_bound k (len s) ltac:(lia)) as Hr.
    unfold rotate. rewrite Nat.mod_small by (unfold len in *; lia). reflexivity.
Qed.

Lemma rotate_rotate {T} (l : list T) (a b : nat) :
  rotate b (rotate a l) = rotate (a + b) l.
Proof.
  destruct l as [|x l'].
  { unfold rotate. rewrite !drop_nil, !take_nil. cbn [app].
    rewrite !drop_nil, !take_nil. reflexivity. }
  set (l := x :: l').
  assert (0 < length l)%nat as Hpos by (simpl; lia).
  apply list_eq. intros i.
  destruct (Nat.lt_ge_cases i (length l)) as [Hi|Hi].
  - rewrite lookup_rotate_r by (rewrite length_rotate; exact Hi).
    rewrite length_rotate.
    rewrite lookup_rotate_r by (apply rotate_nat_add_lt; exact Hpos).
    rewrite lookup_rotate_r by exact Hi.
    f_equal. unfold rotate_nat_add.
    rewrite Z2Nat.id by (apply Z.mod_pos_bound; lia).
    rewrite Zplus_mod_idemp_r. f_equal. f_equal. lia.
  - rewrite !(proj2 (lookup_ge_None _ _)); [reflexivity | |];
      rewrite ?length_rotate; exact Hi.
Qed.

Lemma rotate_sum_mod (x y : Z) (m : nat) :
  (0 < m)%nat ->
  ((Z.to_nat (x mod Z.of_nat m) + Z.to_nat (y mod Z.of_nat m)) mod m
   = Z.to_nat ((x + y) mod Z.of_nat m) mod m)%nat.
Proof.
  intros Hm.
  pose proof (Z.mod_pos_bound x (Z.of_nat m) ltac:(lia)) as Hx.
  pose proof (Z.mod_pos_bound y (Z.of_nat m) ltac:(lia)) as Hy.
  pose proof (Z.mod_pos_bound (x + y) (Z.of_nat m) ltac:(lia)) as Hxy.
  apply Nat2Z.inj. rewrite !Nat2Z.inj_mod, Nat2Z.inj_add, !Z2Nat.id by lia.
  rewrite <- Zplus_mod, Zmod_mod. reflexivity.
Qed.

Lemma rotate_0 {T} (l : list T) : rotate 0 l = l.
Proof.
  unfold rotate. destruct l as [|x l']; [reflexivity|].
  rewrite Nat.Div0.mod_0_l. cbn [drop take]. apply app_nil_r.
Qed.

Lemma Rotated_length {T} (s : list T) k : len s < 2 ^ 63 -> len (Rotated s k) = len s.
Proof. intros Hlen. rewrite Rotated_rotate by exact Hlen. unfold len. rewrite length_rotate. reflexivity. Qed.



(** *** [Remove] *)

Lemma Remove_loop_panics {T} (indices : list Z) :
  indices <> [] ->
  forall (fuel : nat) (s : list T) (ctr : Z),
    (length s < fuel)%nat -> Remove_loop fuel s indices ctr = Panicked.
Proof.
  intros Hne. destruct indices as [|first rest]; [congruence|].
  induction fuel as [|fuel IH]; intros s ctr Hfuel; [lia|].
  cbn [Remove_loop]. rewrite len_cons. pose proof (len_nonneg rest) as Hrest.
  destruct (Z.ltb_spec 0 (len rest + 1)); [|lia].
  change (index (first :: rest) 0) with (Some first). cbv beta iota zeta.
  destruct (Z.leb_spec 0 (to_int (first + ctr))) as [Hlo|]; [|reflexivity].
  destruct (Z.leb_spec (to_int (first + ctr) + 1) (len s)) as [Hhi|]; [|reflexivity].
  cbn [andb]. apply IH.
  rewrite length_app, length_take, length_drop. unfold len in Hhi. lia.
Qed.

Lemma Remove_loop_no_return {T} (indices : list Z) :
  indices <> [] ->
  forall (fuel : nat) (s : list T) (ctr : Z) r,
    Remove_loop fuel s indices ctr <> Returned r.
Proof.
  intros Hne. destruct indices as [|first rest]; [congruence|].
  induction fuel as [|fuel IH]; intros s ctr r; cbn [Remove_loop];
    rewrite len_cons; pose proof (len_nonneg rest) as Hrest;
    destruct (Z.ltb_spec 0 (len rest + 1)); try lia; [discriminate|].
  change (index (first :: rest) 0) with (Some first). cbv beta iota zeta.
  destruct ((0 <=? to_int (first + ctr)) && (to_int (first + ctr) + 1 <=? len s));
    [apply IH | discriminate].
Qed.

(** X23.  At the type [int], [Remove] given at least one index never
    returns: every iteration takes one element out of the slice and the
    loop has no end, so it panics after at most as many iterations as
    the slice has elements.  Given no index it returns at once and
    leaves the slice as it is. *)
Theorem Remove_never_returns {T : Type} (fuel : nat) (s : list T) (indices : list Z) :
  indices <> [] -> (length s < fuel)%nat ->
  Remove fuel s indices = Panicked /\
  (forall fuel' r, Remove fuel' s indices <> Returned r) /\
  (forall fuel', Remove fuel' s [] = Returned s).
Proof.
  intros Hne Hfuel. split; [apply Remove_loop_panics; assumption|].
  split; [intros fuel' r; apply Remove_loop_no_return; exact Hne|].
  intros [|fuel']; reflexivity.
Qed.

Lemma Remove_never_returns_witness :
  Remove 4 [10; 20; 30] [1] = Panicked /\
  (forall fuel' r, Remove fuel' [10; 20; 30] [1] <> Returned r) /\
  (forall fuel', Remove fuel' [10; 20; 30] [] = Returned [10; 20; 30]).
Proof. apply (Remove_never_returns 4 [10; 20; 30] [1]); [discriminate | simpl; lia]. Defined.

(** *** [Movers], [MoversFunc], [Standers], [StandersFunc] *)

(** X24.  [Movers], [MoversFunc], [Standers] and [StandersFunc] return,
    and then return nothing, on a slice of exactly one element: on the
    empty slice [s[1:]] panics, and on a longer one the first iteration
    reads [s[-1]]. *)
Theorem Movers_panic {E : Type} `{Comparable E} (eq : E -> E -> bool) (s : list E) :
  (length s = 1%nat ->
   Movers s = Returned [] /\ MoversFunc eq s = Returned [] /\
   Standers s = Returned [] /\ StandersFunc eq s = Returned []) /\
  (length s <> 1%nat ->
   Movers s = Panicked /\ MoversFunc eq s = Panicked /\
   Standers s = Panicked /\ StandersFunc eq s = Panicked).
Proof.
  split.
  - intros Hlen. destruct s as [|x [|y s]]; try discriminate. auto.
  - intros Hlen. destruct s as [|x [|y s]]; [auto | exfalso; apply Hlen; reflexivity |].
    unfold Movers, MoversFunc, Standers, StandersFunc, from_1.
    rewrite !len_cons. pose proof (len_nonneg s).
    destruct (Z.leb_spec 1 (len s + 1 + 1)); [|lia].
    cbn [drop Movers_loop Standers_loop].
    rewrite (index_outside (x :: y :: s) (0 - 1)) by lia. auto.
Qed.

(** * Properties of the functions that write to their argument *)

(** *** [Reverse], [Reversed] *)

Lemma flipped_step_low n k : (k < n - 1)%nat -> flipped n k (n - 1 - k) = flipped n (S k) k.
Proof.
  intros Hk. unfold flipped.
  replace (n - 1 - (n - 1 - k))%nat with k by lia.
  destruct (Nat.ltb_spec (n - 1 - k) k), (Nat.ltb_spec k k), (Nat.ltb_spec k (S k)),
    (Nat.ltb_spec (n - 1 - k) (S k)); cbn [xorb]; lia.
Qed.

Lemma flipped_step_high n k : (k < n - 1)%nat -> flipped n k k = flipped n (S k) (n - 1 - k).
Proof.
  intros Hk. unfold flipped.
  replace (n - 1 - (n - 1 - k))%nat with k by lia.
  destruct (Nat.ltb_spec (n - 1 - k) k), (Nat.ltb_spec k k), (Nat.ltb_spec k (S k)),
    (Nat.ltb_spec (n - 1 - k) (S k)); cbn [xorb]; lia.
Qed.

Lemma flipped_step_other n k p :
  (p < n)%nat -> p <> k -> p <> (n - 1 - k)%nat -> flipped n k p = flipped n (S k) p.
Proof.
  intros Hp H1 H2. unfold flipped.
  destruct (Nat.ltb_spec p k), (Nat.ltb_spec p (S k)), (Nat.ltb_spec (n - 1 - p) k),
    (Nat.ltb_spec (n - 1 - p) (S k)); cbn [xorb]; lia.
Qed.

Lemma flipped_bound n k p : (p < n)%nat -> (flipped n k p < n)%nat.
Proof. intros Hp. unfold flipped. destruct (xorb _ _); lia. Qed.

Lemma Reverse_loop_spec {E} (w0 : list E) :
  forall (fuel k : nat) (w : list E),
    (k <= length w0 - 1)%nat -> (length w0 - 1 - k <= fuel)%nat ->
    length w = length w0 ->
    (forall p, (p < length w0)%nat -> w !! p = w0 !! flipped (length w0) k p) ->
    exists w', Reverse_loop fuel w (Z.of_nat k) (Z.of_nat (length w0 - 1 - k)) = Returned w' /\
               length w' = length w0 /\
               forall p, (p < length w0)%nat ->
                         w' !! p = w0 !! flipped (length w0) (length w0 - 1) p.
Proof.
  set (n := length w0).
  induction fuel as [|fuel IH]; intros k w Hk Hfuel Hlen Hinv.
  - assert (k = n - 1)%nat as -> by lia. cbn [Reverse_loop].
    destruct (Z.ltb_spec 0 (Z.of_nat (n - 1 - (n - 1)))); [lia|]. eauto.
  - cbn [Reverse_loop].
    destruct (Z.ltb_spec 0 (Z.of_nat (n - 1 - k))) as [Hj|Hj].
    2:{ assert (k = n - 1)%nat as -> by lia. eauto. }
    rewrite !index_of_nat.
    destruct (lookup_lt_is_Some_2 w (n - 1 - k)%nat) as [b Hb]; [lia|].
    destruct (lookup_lt_is_Some_2 w k) as [a Ha]; [lia|].
    rewrite Hb, Ha, !Nat2Z.id.
    replace (Z.of_nat k + 1) with (Z.of_nat (S k)) by lia.
    replace (Z.of_nat (n - 1 - k) - 1) with (Z.of_nat (n - 1 - S k)) by lia.
    apply IH; [lia | lia | rewrite !length_insert; exact Hlen |].
    intros p Hp.
    destruct (Nat.eq_dec p (n - 1 - k)%nat) as [->|Hne1].
    + rewrite list_lookup_insert_eq by (rewrite length_insert; lia).
      rewrite <- flipped_step_high by lia. rewrite <- Ha. apply Hinv. lia.
    + rewrite list_lookup_insert_ne by congruence.
      destruct (Nat.eq_dec p k) as [->|Hne2].
      * rewrite list_lookup_insert_eq by lia.
        rewrite <- flipped_step_low by lia. rewrite <- Hb. apply Hinv. lia.
      * rewrite list_lookup_insert_ne by congruence.
        rewrite <- flipped_step_other by assumption. apply Hinv. exact Hp.
Qed.

Lemma flipped_last n p :
  (2 <= n)%nat -> (p < n)%nat ->
  flipped n (n - 1) p =
  if Nat.eqb p 0 then (n - 1)%nat else if Nat.eqb p (n - 1) then 0%nat else p.
Proof.
  intros Hn Hp. unfold flipped.
  destruct (Nat.eqb_spec p 0), (Nat.eqb_spec p (n - 1)),
    (Nat.ltb_spec p (n - 1)), (Nat.ltb_spec (n - 1 - p) (n - 1)); cbn [xorb]; lia.
Qed.

Lemma Reverse_elements_ends {E} (a z : E) (mid : list E) :
  Reverse_elements (a :: mid ++ [z]) = Returned (z :: mid ++ [a]).
Proof.
  unfold Reverse_elements. set (w0 := a :: mid ++ [z]).
  assert (length w0 = S (S (length mid))) as Hn
    by (unfold w0; simpl; rewrite length_app; simpl; lia).
  unfold len.
  destruct (Z.ltb_spec 1 (Z.of_nat (length w0))); [|lia].
  destruct (Reverse_loop_spec w0 (length w0) 0 w0) as (w' & Hw' & Hlen & Hres);
    [lia | lia | reflexivity | |].
  { intros p Hp. unfold flipped. simpl. reflexivity. }
  replace (Z.of_nat (length w0) - 1) with (Z.of_nat (length w0 - 1 - 0)) by lia.
  change (Z.of_nat 0) with 0 in Hw'. rewrite Hw'. f_equal.
  apply list_eq. intros p.
  destruct (Nat.lt_ge_cases p (length w0)) as [Hp|Hp].
  - rewrite (Hres p Hp), flipped_last by lia. rewrite Hn.
    replace (S (S (length mid)) - 1)%nat with (S (length mid)) by lia.
    destruct (Nat.eqb_spec p 0) as [->|Hp0].
    + change (w0 !! S (length mid)) with ((mid ++ [z]) !! length mid).
      change ((z :: mid ++ [a]) !! 0%nat) with (Some z).
      apply list_lookup_middle. reflexivity.
    + destruct (Nat.eqb_spec p (S (length mid))) as [->|Hpn].
      * change ((z :: mid ++ [a]) !! S (length mid)) with ((mid ++ [a]) !! length mid).
        change (w0 !! 0%nat) with (Some a).
        symmetry. apply list_lookup_middle. reflexivity.
      * destruct p as [|p]; [congruence|].
        change (w0 !! S p) with ((mid ++ [z]) !! p).
        change ((z :: mid ++ [a]) !! S p) with ((mid ++ [a]) !! p).
        rewrite !lookup_app_l by lia. reflexivity.
  - rewrite (proj2 (lookup_ge_None _ _)) by lia.
    symmetry. apply lookup_ge_None. simpl. rewrite length_app. simpl. rewrite Hn in Hp. lia.
Qed.

Lemma Reverse_elements_short {E} (w : list E) :
  (length w <= 1)%nat -> Reverse_elements w = Returned w.
Proof.
  intros Hw. unfold Reverse_elements, len.
  destruct (Z.ltb_spec 1 (Z.of_nat (length w))); [lia | reflexivity].
Qed.

Lemma ends_decompose {E} (w : list E) :
  (2 <= length w)%nat -> exists a mid z, w = a :: mid ++ [z].
Proof.
  intros Hw. destruct w as [|a w]; [simpl in Hw; lia|].
  destruct (nonempty_snoc w) as (mid & z & ->); [destruct w; [simpl in Hw; lia | discriminate]|].
  eauto.
Qed.

Lemma Reverse_elements_total {E} (w : list E) :
  exists w', Reverse_elements w = Returned w' /\ length w' = length w.
Proof.
  destruct (Nat.le_gt_cases (length w) 1) as [Hs|Hl].
  - exists w. split; [apply Reverse_elements_short; exact Hs | reflexivity].
  - destruct (ends_decompose w Hl) as (a & mid & z & ->).
    exists (z :: mid ++ [a]). split; [apply Reverse_elements_ends|].
    simpl. rewrite !length_app. reflexivity.
Qed.

(** *** The store under writes *)

Lemma assign_assign {E} (st : gmap loc (list E)) (s : slice) (d d' : list E) :
  valid st s -> length d = length (contents st s) -> length d' = length d ->
  assign (assign st s d) s d' = assign st s d'.
Proof.
  intros Hv Hd Hd'. rewrite (contents_length st s Hv) in Hd.
  destruct s as [|base off n]; [reflexivity|].
  destruct Hv as (arr & Harr & Hbound). simpl. rewrite Harr.
  rewrite lookup_insert_eq, insert_insert_eq. f_equal.
  rewrite take_app_length' by (rewrite length_take; lia).
  rewrite (app_assoc (take off arr) (take n d) (drop (off + n) arr)).
  rewrite drop_app_length'; [reflexivity|].
  rewrite length_app, !length_take. lia.
Qed.

(** A slice in another array is not touched by an assignment. *)
Lemma contents_assign_other {E} (st : gmap loc (list E)) (s t : slice) (d : list E) :
  match s, t with
  | Slice base _ _, Slice base' _ _ => base <> base'
  | _, _ => True
  end ->
  contents (assign st s d) t = contents st t.
Proof.
  intros Hne. destruct t as [|base' off' n']; [reflexivity|].
  simpl. rewrite assign_other; [reflexivity|].
  destruct s; [exact I | congruence].
Qed.

(** Cloning and then writing to the clone. *)
Lemma clone_then_write {E} (st : gmap loc (list E)) (s : slice) (d : list E) :
  valid st s -> length d = length (contents st s) ->
  let y := (Clone s st).1 in
  let after := assign (Clone s st).2 y d in
  valid after y /\ valid after s /\
  contents after y = d /\
  contents after s = contents st s /\
  (forall b arr, st !! b = Some arr -> after !! b = Some arr) /\
  match y with
  | Nil => s = Nil
  | Slice base _ _ => s <> Nil /\ st !! base = None
  end.
Proof.
  intros Hv Hd. cbv zeta.
  pose proof (Clone_spec st s Hv) as Hclone.
  destruct (Clone s st) as [y st1]. cbn [fst snd].
  destruct Hclone as (Hvy & Hcy & Hframe & Hfresh).
  assert (forall b arr, st !! b = Some arr -> assign st1 y d !! b = Some arr) as Hkept.
  { intros b arr Hb. rewrite assign_other; [apply Hframe; exact Hb|].
    destruct y as [|base off n]; [exact I|].
    destruct Hfresh as [_ Hnone]. congruence. }
  split; [apply valid_assign; [exact Hvy | congruence]|].
  split; [|split; [apply contents_assign; [exact Hvy | congruence]|split; [|split]]].
  - destruct s as [|base off n]; [exact I|].
    destruct Hv as (arr & Harr & Hbound). exists arr. split; [|exact Hbound].
    apply Hkept. exact Harr.
  - destruct s as [|base off n]; [reflexivity|].
    destruct Hv as (arr & Harr & Hbound). simpl.
    rewrite (Hkept base arr Harr), Harr. reflexivity.
  - exact Hkept.
  - destruct y; tauto.
Qed.

(** X25.  [Reverse] exchanges the first and the last element of the
    slice and leaves every element between them where it was, because
    its loop runs until [j] reaches 0 and so exchanges every other pair
    twice; arrays other than that of the slice are not touched.  The
    result is the reverse of the slice exactly when the elements
    between the ends read the same in both directions, as they do in
    every slice of at most three elements. *)
Theorem Reverse_swaps_ends {E : Type} (s : slice) (st : gmap loc (list E))
  (a z : E) (mid : list E) :
  valid st s -> contents st s = a :: mid ++ [z] ->
  exists st', Reverse s st = Returned st' /\
              contents st' s = z :: mid ++ [a] /\
              (forall b, match s with Nil => True | Slice base _ _ => b <> base end ->
                         st' !! b = st !! b) /\
              (contents st' s = rev (contents st s) <-> mid = rev mid).
Proof.
  intros Hv Hc. unfold Reverse. rewrite Hc, Reverse_elements_ends.
  eexists. split; [reflexivity|].
  assert (contents (assign st s (z :: mid ++ [a])) s = z :: mid ++ [a]) as Hafter.
  { apply contents_assign; [exact Hv|]. rewrite Hc. simpl. rewrite !length_app. reflexivity. }
  split; [exact Hafter|]. split; [intros b Hb; apply assign_other; exact Hb|].
  rewrite Hafter. cbn [rev]. rewrite rev_app_distr. cbn [rev app].
  split.
  - intros Heq. injection Heq as Heq. apply app_inv_tail in Heq. exact Heq.
  - intros <-. reflexivity.
Qed.

Lemma Reverse_swaps_ends_witness :
  exists st', Reverse (Slice 1 1 4) {[1%positive := [0; 1; 2; 3; 4; 5]]} = Returned st' /\
              contents st' (Slice 1 1 4) = 4 :: [2; 3] ++ [1] /\
              (forall b, b <> 1%positive ->
                         st' !! b = ({[1%positive := [0; 1; 2; 3; 4; 5]]} : gmap loc (list Z)) !! b) /\
              (contents st' (Slice 1 1 4)
               = rev (contents {[1%positive := [0; 1; 2; 3; 4; 5]]} (Slice 1 1 4))
               <-> [2; 3] = rev [2; 3]).
Proof.
  apply (Reverse_swaps_ends (Slice 1 1 4) {[1%positive := [0; 1; 2; 3; 4; 5]]} 1 4 [2; 3]).
  - exists [0; 1; 2; 3; 4; 5]. split; [reflexivity | simpl; lia].
  - reflexivity.
Defined.

Lemma Reverse_elements_involutive {E} (w w' : list E) :
  Reverse_elements w = Returned w' -> Reverse_elements w' = Returned w.
Proof.
  destruct (Nat.le_gt_cases (length w) 1) as [Hs|Hl].
  - rewrite Reverse_elements_short by exact Hs. intros [= <-].
    apply Reverse_elements_short. exact Hs.
  - destruct (ends_decompose w Hl) as (a & mid & z & ->).
    rewrite Reverse_elements_ends. intros [= <-]. apply Reverse_elements_ends.
Qed.

Lemma Reversed_spec {E} (s : slice) (st : gmap loc (list E)) :
  valid st s ->
  exists w out st1,
    Reverse_elements (contents st s) = Returned w /\
    Reversed s st = Returned (out, st1) /\
    valid st1 out /\ valid st1 s /\
    contents st1 out = w /\
    contents st1 s = contents st s /\
    (forall b arr, st !! b = Some arr -> st1 !! b = Some arr) /\
    match out with
    | Nil => s = Nil
    | Slice base _ _ => s <> Nil /\ st !! base = None
    end.
Proof.
  intros Hv. destruct (Reverse_elements_total (contents st s)) as (w & Hw & Hlen).
  pose proof (clone_then_write st s w Hv Hlen) as Hcw. cbv zeta in Hcw.
  pose proof (Clone_spec st s Hv) as Hclone.
  unfold Reversed, Reverse. destruct (Clone s st) as [y st1]. cbn [fst snd] in Hcw.
  destruct Hclone as (_ & Hcy & _). rewrite Hcy, Hw.
  exists w, y, (assign st1 y w). split; [reflexivity|]. split; [reflexivity|].
  exact Hcw.
Qed.

(** X26.  [Reversed] leaves its argument and every array allocated
    before the call as they were and returns a slice of the same length
    that is [nil] when the argument is and otherwise lies in a new
    array; applied to its own result it returns the elements of the
    argument in their first order. *)
Theorem Reversed_twice {E : Type} (s : slice) (st : gmap loc (list E)) :
  valid st s ->
  exists out st1 back st2,
    Reversed s st = Returned (out, st1) /\
    Reversed out st1 = Returned (back, st2) /\
    contents st1 s = contents st s /\
    (forall b arr, st !! b = Some arr -> st1 !! b = Some arr) /\
    match out with
    | Nil => s = Nil
    | Slice base _ _ => s <> Nil /\ st !! base = None
    end /\
    length (contents st1 out) = length (contents st s) /\
    contents st2 back = contents st s /\
    contents st2 s = contents st s.
Proof.
  intros Hv.
  destruct (Reversed_spec s st Hv)
    as (w & out & st1 & Hw & Hfirst & Hvout & Hvs & Hout & Hs & Hframe & Hfresh).
  destruct (Reversed_spec out st1 Hvout)
    as (w2 & back & st2 & Hw2 & Hsecond & _ & _ & Hback & _ & Hframe2 & _).
  exists out, st1, back, st2.
  split; [exact Hfirst|]. split; [exact Hsecond|]. split; [exact Hs|].
  split; [exact Hframe|]. split; [exact Hfresh|].
  destruct (Reverse_elements_total (contents st s)) as (w' & Hw' & Hlen).
  assert (w' = w) as -> by congruence.
  split; [rewrite Hout; exact Hlen|]. split.
  - rewrite Hback. rewrite Hout in Hw2.
    pose proof (Reverse_elements_involutive _ _ Hw) as Hinv. congruence.
  - rewrite <- Hs. destruct s as [|base off n]; [reflexivity|].
    destruct Hvs as (arr & Harr & _). simpl. rewrite (Hframe2 base arr Harr), Harr.
    reflexivity.
Qed.

Lemma Reversed_twice_witness :
  exists out st1 back st2,
    Reversed (Slice 1 1 4) {[1%positive := [0; 1; 2; 3; 4; 5]]} = Returned (out, st1) /\
    Reversed out st1 = Returned (back, st2) /\
    contents st1 (Slice 1 1 4) = contents {[1%positive := [0; 1; 2; 3; 4; 5]]} (Slice 1 1 4) /\
    (forall b arr, ({[1%positive := [0; 1; 2; 3; 4; 5]]} : gmap loc (list Z)) !! b = Some arr ->
                   st1 !! b = Some arr) /\
    match out with
    | Nil => Slice 1 1 4 = Nil
    | Slice base _ _ =>
        Slice 1 1 4 <> Nil /\
        ({[1%positive := [0; 1; 2; 3; 4; 5]]} : gmap loc (list Z)) !! base = None
    end /\
    length (contents st1 out)
    = length (contents ({[1%positive := [0; 1; 2; 3; 4; 5]]} : gmap loc (list Z)) (Slice 1 1 4)) /\
    contents st2 back = contents {[1%positive := [0; 1; 2; 3; 4; 5]]} (Slice 1 1 4) /\
    contents st2 (Slice 1 1 4) = contents {[1%positive := [0; 1; 2; 3; 4; 5]]} (Slice 1 1 4).
Proof.
  apply (Reversed_twice (Slice 1 1 4) {[1%positive := [0; 1; 2; 3; 4; 5]]}).
  exists [0; 1; 2; 3; 4; 5]. split; [reflexivity | simpl; lia].
Defined.

(** *** [Swap], [Swapped] *)

Lemma exchange_spec {E} (w : list E) (i j : Z) (a b : E) :
  index w i = Some a -> index w j = Some b ->
  exists w', exchange w w i j = Returned w' /\
             length w' = length w /\
             index w' i = Some b /\ index w' j = Some a /\
             (forall k, k <> i -> k <> j -> index w' k = index w k) /\
             exchange w' w' i j = Returned w.
Proof.
  intros Ha Hb. unfold exchange. rewrite Ha, Hb.
  apply index_Some in Ha as [Hi Ha]. apply index_Some in Hb as [Hj Hb].
  destruct (Z.leb_spec 0 i); [|lia]. destruct (Z.ltb_spec i (len w)); [|lia].
  destruct (Z.leb_spec 0 j); [|lia]. destruct (Z.ltb_spec j (len w)); [|lia].
  cbn [andb]. set (w' := <[Z.to_nat j := a]> (<[Z.to_nat i := b]> w)).
  assert (length w' = length w) as Hlen by (unfold w'; rewrite !length_insert; reflexivity).
  assert (index w' j = Some a) as Hj'.
  { apply index_Some. unfold len. rewrite Hlen. split; [exact Hj|].
    unfold w'. apply list_lookup_insert_eq. rewrite length_insert. unfold len in Hj. lia. }
  assert (index w' i = Some b) as Hi'.
  { apply index_Some. unfold len. rewrite Hlen. split; [exact Hi|]. unfold w'.
    destruct (Z.eq_dec i j) as [->|Hne].
    - rewrite list_lookup_insert_eq by (rewrite length_insert; unfold len in Hj; lia).
      congruence.
    - rewrite list_lookup_insert_ne by lia.
      apply list_lookup_insert_eq. unfold len in Hi. lia. }
  exists w'. split; [reflexivity|]. split; [exact Hlen|].
  split; [exact Hi'|]. split; [exact Hj'|]. split.
  - intros k Hki Hkj. unfold index, len. rewrite Hlen.
    destruct ((0 <=? k) && (k <? Z.of_nat (length w))) eqn:Hk; [|reflexivity].
    apply andb_true_iff in Hk as [Hk0 Hk1]. apply Z.leb_le in Hk0.
    unfold w'. rewrite !list_lookup_insert_ne by lia. reflexivity.
  - rewrite Hj', Hi'. unfold len. rewrite Hlen. fold (len w).
    destruct (Z.leb_spec 0 i); [|lia]. destruct (Z.ltb_spec i (len w)); [|lia].
    destruct (Z.leb_spec 0 j); [|lia]. destruct (Z.ltb_spec j (len w)); [|lia].
    cbn [andb]. f_equal. apply list_eq. intros p.
    unfold len in *.
    destruct (Nat.eq_dec p (Z.to_nat j)) as [->|Hpj].
    + rewrite list_lookup_insert_eq by (rewrite length_insert, Hlen; lia). congruence.
    + rewrite list_lookup_insert_ne by congruence.
      destruct (Nat.eq_dec p (Z.to_nat i)) as [->|Hpi].
      * rewrite list_lookup_insert_eq by (rewrite Hlen; lia). congruence.
      * rewrite list_lookup_insert_ne by congruence.
        unfold w'. rewrite !list_lookup_insert_ne by congruence. reflexivity.
Qed.

Lemma exchange_outside {E} (w v : list E) (i j : Z) :
  index v i = None \/ index v j = None -> exchange w v i j = Panicked.
Proof.
  intros [Hi|Hj]; unfold exchange.
  - rewrite Hi. destruct (index v j); reflexivity.
  - rewrite Hj. reflexivity.
Qed.

(** X27.  With both indices inside the slice, [Swap] exchanges the two
    elements in place and changes no other; a second [Swap] at the same
    indices restores the store as it was.  [Swapped] writes the same
    result to a new array and leaves its argument as it was.  With an
    index outside the slice both panic. *)
Theorem Swap_exchanges {E : Type} (s : slice) (i j : Z) (st : gmap loc (list E)) (a b : E) :
  valid st s ->
  index (contents st s) i = Some a -> index (contents st s) j = Some b ->
  (exists st1,
     Swap s i j st = Returned (s, st1) /\
     index (contents st1 s) i = Some b /\
     index (contents st1 s) j = Some a /\
     (forall k, k <> i -> k <> j -> index (contents st1 s) k = index (contents st s) k) /\
     Swap s i j st1 = Returned (s, st) /\
     exists out st2,
       Swapped s i j st = Returned (out, st2) /\
       contents st2 out = contents st1 s /\
       contents st2 s = contents st s /\
       (forall base arr, st !! base = Some arr -> st2 !! base = Some arr) /\
       match out with Nil => False | Slice base _ _ => st !! base = None end) /\
  (forall k, index (contents st s) k = None ->
     Swap s k j st = Panicked /\ Swap s i k st = Panicked /\
     Swapped s k j st = Panicked /\ Swapped s i k st = Panicked).
Proof.
  intros Hv Ha Hb.
  pose proof (is_fresh (dom st)) as Hfresh. apply not_elem_of_dom in Hfresh.
  set (base' := fresh (dom st)) in *.
  set (st0 := <[base' := contents st s]> st).
  assert (contents st0 (Slice base' 0 (length (contents st s))) = contents st s) as Hout.
  { unfold st0. simpl. rewrite lookup_insert_eq, drop_0. apply firstn_all. }
  assert (contents st0 s = contents st s) as Hsame.
  { destruct s as [|base off n]; [reflexivity|].
    destruct Hv as (arr & Harr & _). unfold st0. simpl.
    rewrite lookup_insert_ne by congruence. reflexivity. }
  split.
  - destruct (exchange_spec (contents st s) i j a b Ha Hb)
      as (w' & Hw' & Hlen & Hi' & Hj' & Hrest & Hback).
    assert (contents (assign st s w') s = w') as Hafter
      by (apply contents_assign; [exact Hv | exact Hlen]).
    exists (assign st s w'). unfold Swap. rewrite Hw'. split; [reflexivity|].
    rewrite Hafter. split; [exact Hi'|]. split; [exact Hj'|]. split; [exact Hrest|].
    split.
    + rewrite Hback. rewrite assign_assign by (auto; congruence).
      rewrite assign_contents. reflexivity.
    + unfold Swapped. fold base'. fold st0. rewrite Hout, Hsame, Hw'.
      eexists _, _. split; [reflexivity|].
      assert (valid st0 (Slice base' 0 (length (contents st s)))) as Hvout.
      { exists (contents st s). unfold st0. rewrite lookup_insert_eq.
        split; [reflexivity | simpl; lia]. }
      split; [apply contents_assign; [exact Hvout | rewrite Hout; exact Hlen]|].
      split.
      * rewrite contents_assign_other; [exact Hsame|].
        destruct s as [|base off n]; [exact I|].
        destruct Hv as (arr & Harr & _). congruence.
      * split; [|exact Hfresh].
        intros base arr Harr. rewrite assign_other by congruence.
        unfold st0. rewrite lookup_insert_ne by congruence. exact Harr.
  - intros k Hk. unfold Swap, Swapped. fold base'. fold st0. rewrite Hout, Hsame.
    rewrite !exchange_outside; auto.
Qed.

Lemma Swap_exchanges_witness :
  (exists st1,
     Swap (Slice 1 1 3) 0 2 {[1%positive := [0; 1; 2; 3; 4]]} = Returned (Slice 1 1 3, st1) /\
     index (contents st1 (Slice 1 1 3)) 0 = Some 3 /\
     index (contents st1 (Slice 1 1 3)) 2 = Some 1 /\
     (forall k, k <> 0 -> k <> 2 ->
        index (contents st1 (Slice 1 1 3)) k
        = index (contents {[1%positive := [0; 1; 2; 3; 4]]} (Slice 1 1 3)) k) /\
     Swap (Slice 1 1 3) 0 2 st1 = Returned (Slice 1 1 3, {[1%positive := [0; 1; 2; 3; 4]]}) /\
     exists out st2,
       Swapped (Slice 1 1 3) 0 2 {[1%positive := [0; 1; 2; 3; 4]]} = Returned (out, st2) /\
       contents st2 out = contents st1 (Slice 1 1 3) /\
       contents st2 (Slice 1 1 3) = contents {[1%positive := [0; 1; 2; 3; 4]]} (Slice 1 1 3) /\
       (forall base arr, ({[1%positive := [0; 1; 2; 3; 4]]} : gmap loc (list Z)) !! base = Some arr ->
                         st2 !! base = Some arr) /\
       match out with
       | Nil => False
       | Slice base _ _ => ({[1%positive := [0; 1; 2; 3; 4]]} : gmap loc (list Z)) !! base = None
       end) /\
  (forall k, index (contents {[1%positive := [0; 1; 2; 3; 4]]} (Slice 1 1 3)) k = None ->
     Swap (Slice 1 1 3) k 2 {[1%positive := [0; 1; 2; 3; 4]]} = Panicked /\
     Swap (Slice 1 1 3) 0 k {[1%positive := [0; 1; 2; 3; 4]]} = Panicked /\
     Swapped (Slice 1 1 3) k 2 {[1%positive := [0; 1; 2; 3; 4]]} = Panicked /\
     Swapped (Slice 1 1 3) 0 k {[1%positive := [0; 1; 2; 3; 4]]} = Panicked).
Proof.
  apply (Swap_exchanges (Slice 1 1 3) 0 2 {[1%positive := [0; 1; 2; 3; 4]]} 1 3).
  - exists [0; 1; 2; 3; 4]. split; [reflexivity | simpl; lia].
  - reflexivity.
  - reflexivity.
Defined.

(** *** [Compact], [CompactFunc], [Compacted] *)

Lemma uniq_length {E} (eq : E -> E -> bool) (last : E) (rest : list E) :
  (length (uniq eq last rest) <= length rest)%nat.
Proof.
  revert last. induction rest as [|v rest IH]; intros last; cbn [uniq]; [lia|].
  destruct (negb (eq v last)); cbn [length].
  - specialize (IH v). lia.
  - specialize (IH last). lia.
Qed.

Lemma compacted_length {E} (eq : E -> E -> bool) (w : list E) :
  (length (compacted eq w) <= length w)%nat.
Proof.
  destruct w as [|a rest]; [reflexivity|]. cbn [compacted length].
  pose proof (uniq_length eq a rest). lia.
Qed.

Lemma CompactFunc_loop_spec {E} (eq : E -> E -> bool) (w0 : list E) :
  forall (todo k : nat) (out : list E) (last : E),
    (k + todo = length w0)%nat -> (length out <= k)%nat ->
    CompactFunc_loop eq (out ++ drop (length out) w0) k todo (length out) last
    = Returned (out ++ uniq eq last (drop k w0)
                    ++ drop (length out + length (uniq eq last (drop k w0))) w0,
                (length out + length (uniq eq last (drop k w0)))%nat).
Proof.
  induction todo as [|todo IH]; intros k out last Hk Hout; cbn [CompactFunc_loop].
  - rewrite (drop_ge w0 k) by lia. cbn [uniq length app]. rewrite Nat.add_0_r. reflexivity.
  - destruct (lookup_lt_is_Some_2 w0 k) as [v Hv]; [lia|].
    rewrite lookup_app_r by lia. rewrite lookup_drop.
    replace (length out + (k - length out))%nat with k by lia. rewrite Hv.
    rewrite (drop_S w0 v k Hv). cbn [uniq].
    destruct (negb (eq v last)).
    + rewrite length_app, length_drop.
      destruct (Nat.ltb_spec (length out) (length out + (length w0 - length out))); [|lia].
      destruct (lookup_lt_is_Some_2 w0 (length out)) as [u Hu]; [lia|].
      rewrite (drop_S w0 u (length out) Hu).
      rewrite insert_app_r_alt by lia. rewrite Nat.sub_diag. cbn [insert list_insert].
      specialize (IH (S k) (out ++ [v]) v).
      rewrite length_app in IH. cbn [length] in IH.
      replace (length out + 1)%nat with (S (length out)) in IH by lia.
      rewrite <- app_assoc in IH. cbn [app] in IH.
      rewrite IH by lia. cbn [length]. rewrite <- !app_assoc. cbn [app].
      rewrite !Nat.add_succ_r. reflexivity.
    + apply IH; lia.
Qed.

Lemma CompactFunc_elements_spec {E} (eq : E -> E -> bool) (w : list E) :
  CompactFunc_elements eq w
  = Returned (compacted eq w ++ drop (length (compacted eq w)) w, length (compacted eq w)).
Proof.
  destruct w as [|a rest]; [reflexivity|]. unfold CompactFunc_elements.
  pose proof (CompactFunc_loop_spec eq (a :: rest) (length (a :: rest) - 1) 1 [a] a) as Hloop.
  apply Hloop; simpl; lia.
Qed.

(** No element of [a :: uniq eq a rest] equals the one before it. *)
Lemma uniq_adjacent {E} (eq : E -> E -> bool) (rest : list E) :
  forall (a : E) (k : nat) x y,
    (a :: uniq eq a rest) !! k = Some x -> (a :: uniq eq a rest) !! S k = Some y ->
    eq y x = false.
Proof.
  induction rest as [|v rest IH]; intros a k x y Hx Hy; cbn [uniq] in *.
  - destruct k; simpl in Hy; rewrite ?lookup_nil in Hy; discriminate.
  - destruct (eq v a) eqn:Hva; cbn [negb] in *.
    + apply (IH a k x y Hx Hy).
    + destruct k as [|k].
      * simpl in Hx, Hy. injection Hx as <-. injection Hy as <-. exact Hva.
      * apply (IH v k x y); assumption.
Qed.

Lemma contents_prefix {E} (st : gmap loc (list E)) (base : loc) (off n i : nat) :
  (i <= n)%nat ->
  contents st (Slice base off i) = take i (contents st (Slice base off n)).
Proof.
  intros Hi. simpl. destruct (st !! base); [|rewrite take_nil; reflexivity].
  rewrite take_take. f_equal. lia.
Qed.

Lemma CompactFunc_spec {E} (eq : E -> E -> bool) (s : slice) (st : gmap loc (list E)) :
  valid st s ->
  exists s' st',
    CompactFunc eq s st = Returned (s', st') /\
    valid st' s' /\
    contents st' s' = compacted eq (contents st s) /\
    contents st' s
    = compacted eq (contents st s)
      ++ drop (length (compacted eq (contents st s))) (contents st s) /\
    (forall b, match s with Nil => True | Slice base _ _ => b <> base end ->
               st' !! b = st !! b) /\
    match s, s' with
    | Nil, Nil => True
    | Slice base off _, Slice base' off' _ => base' = base /\ off' = off
    | _, _ => False
    end.
Proof.
  intros Hv. unfold CompactFunc.
  pose proof (contents_length st s Hv) as Hlen.
  destruct (Z.eqb_spec (len (contents st s)) 0) as [Hz|Hnz].
  - exists s, st. split; [reflexivity|]. split; [exact Hv|].
    assert (contents st s = []) as -> by (destruct (contents st s); [reflexivity | discriminate]).
    repeat split; try reflexivity. destruct s; auto.
  - destruct s as [|base off n]; [exfalso; apply Hnz; reflexivity|].
    set (c := contents st (Slice base off n)) in *.
    pose proof (compacted_length eq c) as Hcl.
    pose proof (CompactFunc_elements_spec eq c) as Hel.
    set (w := compacted eq c ++ drop (length (compacted eq c)) c) in *.
    assert (length w = length c) as Hw
      by (unfold w; rewrite length_app, length_drop; lia).
    exists (Slice base off (length (compacted eq c))), (assign st (Slice base off n) w).
    split; [rewrite Hel; reflexivity|].
    pose proof (valid_assign st (Slice base off n) w Hv Hw) as Hv'.
    pose proof (contents_assign st (Slice base off n) w Hv Hw) as Hc'.
    split; [|split; [|split; [exact Hc'|split; [|auto]]]].
    + destruct Hv' as (arr & Harr & Hbound). exists arr. split; [exact Harr | lia].
    + rewrite (contents_prefix _ base off n) by lia. rewrite Hc'. unfold w.
      rewrite take_app_length. reflexivity.
    + intros b Hb. apply assign_other. exact Hb.
Qed.

(** X28.  [CompactFunc], and [Compact] with [==], keep the first
    element of every run of elements that [eq] relates to the first of
    the run: in the slice they return no element is related to the one
    before it.  They write in place: the slice returned begins where
    the argument does, and the argument afterwards holds the kept
    elements followed by what it held before at the other positions.
    [Compacted] returns the same elements in a new array and leaves its
    argument as it was. *)
Theorem Compact_in_place {E : Type} `{Comparable E} (eq : E -> E -> bool)
  (s : slice) (st : gmap loc (list E)) :
  valid st s ->
  (exists s' st',
     CompactFunc eq s st = Returned (s', st') /\
     contents st' s' = compacted eq (contents st s) /\
     (forall k x y, contents st' s' !! k = Some x -> contents st' s' !! S k = Some y ->
                    eq y x = false) /\
     contents st' s
     = compacted eq (contents st s)
       ++ drop (length (compacted eq (contents st s))) (contents st s) /\
     (forall b, match s with Nil => True | Slice base _ _ => b <> base end ->
                st' !! b = st !! b) /\
     match s, s' with
     | Nil, Nil => True
     | Slice base off _, Slice base' off' _ => base' = base /\ off' = off
     | _, _ => False
     end) /\
  (exists c st2,
     Compacted s st = Returned (c, st2) /\
     contents st2 c = compacted same (contents st s) /\
     contents st2 s = contents st s /\
     (forall b arr, st !! b = Some arr -> st2 !! b = Some arr)).
Proof.
  intros Hv. split.
  - destruct (CompactFunc_spec eq s st Hv) as (s' & st' & Hrun & _ & Hc & Hs & Hframe & Hsame).
    exists s', st'. split; [exact Hrun|]. split; [exact Hc|].
    split; [|split; [exact Hs | split; [exact Hframe | exact Hsame]]].
    rewrite Hc. intros k x y. destruct (contents st s) as [|a rest]; cbn [compacted].
    + rewrite lookup_nil. discriminate.
    + apply uniq_adjacent.
  - pose proof (Clone_spec st s Hv) as Hclone. unfold Compacted, Compact.
    destruct (Clone s st) as [c st1].
    destruct Hclone as (Hvc & Hcc & Hframe & Hfresh).
    destruct (CompactFunc_spec same c st1 Hvc) as (c' & st2 & Hrun & _ & Hc & _ & Hframe2 & _).
    exists c', st2. split; [exact Hrun|]. rewrite Hc, Hcc. split; [reflexivity|].
    assert (forall b arr, st !! b = Some arr -> st2 !! b = Some arr) as Hkept.
    { intros b arr Hb. rewrite Hframe2; [apply Hframe; exact Hb|].
      destruct c as [|base off n]; [exact I|].
      destruct Hfresh as [_ Hnone]. congruence. }
    split; [|exact Hkept].
    destruct s as [|base off n]; [reflexivity|].
    destruct Hv as (arr & Harr & _). simpl. rewrite (Hkept base arr Harr), Harr. reflexivity.
Qed.

Lemma Compact_in_place_witness :
  (exists s' st',
     CompactFunc Z.eqb (Slice 1 1 5) {[1%positive := [9; 1; 1; 2; 2; 1; 7]]}
       = Returned (s', st') /\
     contents st' s'
     = compacted Z.eqb (contents {[1%positive := [9; 1; 1; 2; 2; 1; 7]]} (Slice 1 1 5)) /\
     (forall k x y, contents st' s' !! k = Some x -> contents st' s' !! S k = Some y ->
                    Z.eqb y x = false) /\
     contents st' (Slice 1 1 5)
     = compacted Z.eqb (contents {[1%positive := [9; 1; 1; 2; 2; 1; 7]]} (Slice 1 1 5))
       ++ drop (length (compacted Z.eqb
                          (contents {[1%positive := [9; 1; 1; 2; 2; 1; 7]]} (Slice 1 1 5))))
               (contents {[1%positive := [9; 1; 1; 2; 2; 1; 7]]} (Slice 1 1 5)) /\
     (forall b, b <> 1%positive ->
                st' !! b = ({[1%positive := [9; 1; 1; 2; 2; 1; 7]]} : gmap loc (list Z)) !! b) /\
     match s' with
     | Nil => False
     | Slice base' off' _ => base' = 1%positive /\ off' = 1%nat
     end) /\
  (exists c st2,
     Compacted (Slice 1 1 5) {[1%positive := [9; 1; 1; 2; 2; 1; 7]]} = Returned (c, st2) /\
     contents st2 c
     = compacted same (contents {[1%positive := [9; 1; 1; 2; 2; 1; 7]]} (Slice 1 1 5)) /\
     contents st2 (Slice 1 1 5)
     = contents {[1%positive := [9; 1; 1; 2; 2; 1; 7]]} (Slice 1 1 5) /\
     (forall b arr, ({[1%positive := [9; 1; 1; 2; 2; 1; 7]]} : gmap loc (list Z)) !! b = Some arr ->
                    st2 !! b = Some arr)).
Proof.
  apply (Compact_in_place Z.eqb (Slice 1 1 5) {[1%positive := [9; 1; 1; 2; 2; 1; 7]]}).
  exists [9; 1; 1; 2; 2; 1; 7]. split; [reflexivity | simpl; lia].
Defined.

(** *** Windows of an array and writes to it *)

Section Windows.
Context {E : Type}.
Implicit Types (arr d : list E) (off n o : nat).

Local Open Scope nat_scope.

Lemma length_window arr off n : off + n <= length arr -> length (window arr off n) = n.
Proof. intros H. unfold window. rewrite length_take, length_drop. lia. Qed.

Lemma length_write arr o d : o + length d <= length arr -> length (write arr o d) = length arr.
Proof.
  intros H. unfold write. rewrite !length_app, length_take, length_drop. lia.
Qed.

Lemma lookup_window arr off n k :
  window arr off n !! k = if decide (k < n) then arr !! (off + k) else None.
Proof. unfold window. rewrite lookup_take, lookup_drop. reflexivity. Qed.

Lemma lookup_write arr o d p :
  o + length d <= length arr ->
  write arr o d !! p =
  if decide (p < o) then arr !! p
  else if decide (p < o + length d) then d !! (p - o) else arr !! p.
Proof.
  intros H. unfold write. case_decide as Hp.
  - rewrite lookup_app_l by (rewrite length_take; lia). apply lookup_take_lt. exact Hp.
  - rewrite lookup_app_r by (rewrite length_take; lia).
    rewrite length_take. replace (o `min` length arr) with o by lia.
    case_decide as Hd.
    + apply lookup_app_l. lia.
    + rewrite lookup_app_r by lia. rewrite lookup_drop. f_equal. lia.
Qed.

Lemma lookup_app_decide (l1 l2 : list E) p :
  (l1 ++ l2) !! p = if decide (p < length l1) then l1 !! p else l2 !! (p - length l1).
Proof.
  case_decide; [apply lookup_app_l | apply lookup_app_r]; lia.
Qed.

Lemma window_take arr off n i : i <= n -> take i (window arr off n) = window arr off i.
Proof. intros H. unfold window. rewrite take_take. f_equal. lia. Qed.

Lemma window_drop arr off n j :
  j <= n -> drop j (window arr off n) = window arr (off + j) (n - j).
Proof.
  intros H. unfold window. rewrite skipn_firstn_comm, drop_drop. reflexivity.
Qed.

Lemma window_app arr off a b :
  window arr off a ++ window arr (off + a) b = window arr off (a + b).
Proof.
  unfold window. rewrite <- drop_drop. apply take_take_drop.
Qed.

Lemma window_write_before arr o d off n :
  o + length d <= length arr -> off + n <= o ->
  window (write arr o d) off n = window arr off n.
Proof.
  intros Hb Hd. apply list_eq. intros k. rewrite !lookup_window.
  case_decide; [|reflexivity]. rewrite lookup_write by exact Hb.
  case_decide; [reflexivity | lia].
Qed.

Lemma window_write_same arr o d :
  o + length d <= length arr -> window (write arr o d) o (length d) = d.
Proof.
  intros Hb. apply list_eq. intros k. rewrite lookup_window.
  case_decide as Hk.
  - rewrite lookup_write by exact Hb.
    case_decide; [lia|]. case_decide; [|lia]. f_equal. lia.
  - symmetry. apply lookup_ge_None. lia.
Qed.

Lemma window_write_after arr o d off n :
  o + length d <= length arr -> o + length d <= off ->
  window (write arr o d) off n = window arr off n.
Proof.
  intros Hb Hd. apply list_eq. intros k. rewrite !lookup_window.
  case_decide; [|reflexivity]. rewrite lookup_write by exact Hb.
  case_decide; [lia|]. case_decide; [lia | reflexivity].
Qed.

End Windows.

(** *** [Delete] *)

Lemma contents_window {E} (st : gmap loc (list E)) base off n arr :
  st !! base = Some arr -> contents st (Slice base off n) = window arr off n.
Proof. intros H. simpl. rewrite H. reflexivity. Qed.

Lemma Delete_spec {E} (base : loc) (off n : nat) (i j : nat) (st : gmap loc (list E)) arr :
  st !! base = Some arr -> (off + n <= length arr)%nat -> (i <= n)%nat -> (j <= n)%nat ->
  let c := window arr off n in
  exists s' st',
    Delete (Slice base off n) (Z.of_nat i) (Z.of_nat j) st = Returned (s', st') /\
    contents st' s' = take i c ++ drop j c /\
    (forall b, b <> base -> forall arr', st !! b = Some arr' -> st' !! b = Some arr') /\
    ((i <= j)%nat ->
     s' = Slice base off (n - (j - i)) /\
     contents st' (Slice base off n) = take i c ++ drop j c ++ drop (n - (j - i)) c /\
     dom st' = dom st).
Proof.
  intros Harr Hbound Hi Hj c. unfold Delete. rewrite Harr. cbn [cap]. rewrite Harr.
  rewrite !Nat2Z.id.
  destruct (Z.leb_spec 0 (Z.of_nat i)); [|lia].
  destruct (Z.leb_spec (Z.of_nat i) (Z.of_nat (length arr - off))); [|lia].
  destruct (Z.leb_spec 0 (Z.of_nat j)); [|lia].
  destruct (Z.leb_spec (Z.of_nat j) (Z.of_nat n)); [|lia].
  cbn [andb]. cbv zeta.
  set (tail := window arr (off + j) (n - j)).
  assert (length tail = (n - j)%nat) as Htail by (apply length_window; lia).
  assert (take i c = window arr off i) as Htake by (apply window_take; exact Hi).
  assert (drop j c = tail) as Hdrop by (apply window_drop; exact Hj).
  rewrite Htake, Hdrop, Htail.
  destruct (Nat.leb_spec (i + (n - j)) (length arr - off)) as [Hfit|Hgrow].
  - set (arr' := write arr (off + i) tail).
    assert (off + i + length tail <= length arr)%nat as Hw by lia.
    exists (Slice base off (i + (n - j))), (<[base := arr']> st).
    split; [reflexivity|].
    assert (window arr' off (i + (n - j)) = window arr off i ++ tail) as Hres.
    { rewrite <- window_app. f_equal.
      - apply window_write_before; [exact Hw | lia].
      - rewrite <- Htail. apply window_write_same. exact Hw. }
    split; [|split].
    + rewrite (contents_window _ base off _ arr') by apply lookup_insert_eq. exact Hres.
    + intros b Hb arr0 Harr0. rewrite lookup_insert_ne by congruence. exact Harr0.
    + intros Hij. split; [f_equal; lia|]. split.
      * rewrite (contents_window _ base off _ arr') by apply lookup_insert_eq.
        replace n with ((i + (n - j)) + (j - i))%nat at 1 by lia.
        rewrite <- window_app, Hres, <- app_assoc. f_equal. f_equal.
        unfold arr'. rewrite window_write_after by lia.
        unfold c. rewrite window_drop by lia. f_equal; lia.
      * apply dom_insert_lookup_L. rewrite Harr. eauto.
  - exists (Slice (fresh (dom st)) 0 (i + (n - j))),
           (<[fresh (dom st) := window arr off i ++ tail]> st).
    pose proof (is_fresh (dom st)) as Hfresh. apply not_elem_of_dom in Hfresh.
    split; [reflexivity|]. split; [|split].
    + rewrite (contents_window _ _ 0 _ (window arr off i ++ tail)) by apply lookup_insert_eq.
      unfold window at 1. rewrite drop_0. apply take_ge.
      rewrite length_app, Htail, length_window by lia. lia.
    + intros b Hb arr0 Harr0. rewrite lookup_insert_ne by congruence. exact Harr0.
    + intros Hij. lia.
Qed.

(** X29.  [Delete(s, i, j)] with [0 <= i, j <= len(s)] returns the
    elements before [i] followed by those from [j] on, whether or not
    [i <= j]: with [j < i] it does not panic and returns a slice longer
    than [s].  With [i <= j] it allocates nothing: the slice returned
    begins where [s] does, and [s] afterwards holds those elements
    followed by what it held before at its last [j - i] positions.
    Other arrays are not touched.  A [j] outside [0..len(s)] and a
    negative [i] panic. *)
Theorem Delete_shifts {E : Type} (s : slice) (i j : Z) (st : gmap loc (list E)) :
  valid st s ->
  0 <= i <= len (contents st s) -> 0 <= j <= len (contents st s) ->
  (exists s' st',
     Delete s i j st = Returned (s', st') /\
     contents st' s'
     = take (Z.to_nat i) (contents st s) ++ drop (Z.to_nat j) (contents st s) /\
     (forall b arr, match s with Nil => True | Slice base _ _ => b <> base end ->
                    st !! b = Some arr -> st' !! b = Some arr) /\
     (i <= j ->
      match s, s' with
      | Nil, Nil => True
      | Slice base off _, Slice base' off' _ => base' = base /\ off' = off
      | _, _ => False
      end /\
      dom st' = dom st /\
      contents st' s
      = take (Z.to_nat i) (contents st s) ++ drop (Z.to_nat j) (contents st s)
        ++ drop (length (contents st s) - Z.to_nat (j - i)) (contents st s))) /\
  (forall k, k < 0 \/ len (contents st s) < k ->
             Delete s i k st = Panicked /\ (k < 0 -> Delete s k j st = Panicked)).
Proof.
  intros Hv Hi Hj. destruct s as [|base off n].
  - change (contents st Nil) with (@nil E) in *. change (len (@nil E)) with 0 in *.
    assert (i = 0) as -> by lia. assert (j = 0) as -> by lia. split.
    + exists Nil, st. split; [reflexivity|]. split; [reflexivity|].
      split; [auto|]. intros _. auto.
    + intros k Hk. unfold Delete. split.
      * destruct (Z.eqb_spec k 0); [lia | reflexivity].
      * intros Hneg. destruct (Z.eqb_spec k 0); [lia | reflexivity].
  - destruct Hv as (arr & Harr & Hbound).
    pose proof (contents_window st base off n arr Harr) as Hc.
    assert (length (window arr off n) = n) as Hn by (apply length_window; exact Hbound).
    rewrite Hc in *. unfold len in Hi, Hj. rewrite Hn in Hi, Hj. split.
    + destruct (Delete_spec base off n (Z.to_nat i) (Z.to_nat j) st arr Harr Hbound)
        as (s' & st' & Hrun & Hres & Hframe & Hplace); [lia | lia |].
      rewrite !Z2Nat.id in Hrun by lia.
      exists s', st'. split; [exact Hrun|]. split; [exact Hres|].
      split; [intros b arr' Hb; apply Hframe; exact Hb|].
      intros Hij. destruct Hplace as (-> & Hs & Hdom); [lia|].
      split; [auto|]. split; [exact Hdom|].
      rewrite Hs, Hn. repeat f_equal. lia.
    + intros k Hk. unfold Delete. rewrite Harr. unfold len in Hk. rewrite Hn in Hk. split.
      * destruct (Z.leb_spec 0 k), (Z.leb_spec k (Z.of_nat n)); try lia;
          rewrite ?andb_false_r; reflexivity.
      * intros Hneg. destruct (Z.leb_spec 0 k); [lia | reflexivity].
Qed.

Lemma Delete_shifts_witness :
  (exists s' st',
     Delete (Slice 1 1 4) 1 3 {[1%positive := [0; 1; 2; 3; 4; 5]]} = Returned (s', st') /\
     contents st' s'
     = take (Z.to_nat 1) (contents {[1%positive := [0; 1; 2; 3; 4; 5]]} (Slice 1 1 4))
       ++ drop (Z.to_nat 3) (contents {[1%positive := [0; 1; 2; 3; 4; 5]]} (Slice 1 1 4)) /\
     (forall b arr, b <> 1%positive ->
                    ({[1%positive := [0; 1; 2; 3; 4; 5]]} : gmap loc (list Z)) !! b = Some arr ->
                    st' !! b = Some arr) /\
     (1 <= 3 ->
      match s' with
      | Nil => False
      | Slice base' off' _ => base' = 1%positive /\ off' = 1%nat
      end /\
      dom st' = dom ({[1%positive := [0; 1; 2; 3; 4; 5]]} : gmap loc (list Z)) /\
      contents st' (Slice 1 1 4)
      = take (Z.to_nat 1) (contents {[1%positive := [0; 1; 2; 3; 4; 5]]} (Slice 1 1 4))
        ++ drop (Z.to_nat 3) (contents {[1%positive := [0; 1; 2; 3; 4; 5]]} (Slice 1 1 4))
        ++ drop (length (contents ({[1%positive := [0; 1; 2; 3; 4; 5]]} : gmap loc (list Z))
                           (Slice 1 1 4)) - Z.to_nat (3 - 1))
                (contents {[1%positive := [0; 1; 2; 3; 4; 5]]} (Slice 1 1 4)))) /\
  (forall k, k < 0 \/ len (contents ({[1%positive := [0; 1; 2; 3; 4; 5]]} : gmap loc (list Z))
                             (Slice 1 1 4)) < k ->
             Delete (Slice 1 1 4) 1 k {[1%positive := [0; 1; 2; 3; 4; 5]]} = Panicked /\
             (k < 0 -> Delete (Slice 1 1 4) k 3 {[1%positive := [0; 1; 2; 3; 4; 5]]} = Panicked)).
Proof.
  apply (Delete_shifts (Slice 1 1 4) 1 3 {[1%positive := [0; 1; 2; 3; 4; 5]]}).
  - exists [0; 1; 2; 3; 4; 5]. split; [reflexivity | simpl; lia].
  - vm_compute. split; congruence.
  - vm_compute. split; congruence.
Defined.

(** *** [Insert] *)

Lemma Insert_in_place {E} (base : loc) (off n i : nat) (args : list E)
  (st : gmap loc (list E)) arr :
  st !! base = Some arr -> (off + n + length args <= length arr)%nat -> (i <= n)%nat ->
  let c := window arr off n in
  let moved := window arr (off + i) (n - i) in
  let arr2 := write (write arr (off + i + length args) moved) (off + i) args in
  window arr2 off (n + length args) = take i c ++ args ++ drop i c /\
  window arr2 off n = take n (take i c ++ args ++ drop i c).
Proof.
  intros Harr Hbound Hi c moved arr2.
  assert (length moved = (n - i)%nat) as Hmoved by (apply length_window; lia).
  set (arr1 := write arr (off + i + length args) moved) in *.
  assert (off + i + length args + length moved <= length arr)%nat as Hw1 by lia.
  assert (length arr1 = length arr) as Hlen1 by (apply length_write; exact Hw1).
  assert (off + i + length args <= length arr1)%nat as Hw2 by lia.
  assert (window arr2 off (n + length args) = take i c ++ args ++ drop i c) as Hres.
  { replace (n + length args)%nat with (i + (length args + (n - i)))%nat by lia.
    rewrite <- !window_app. f_equal; [|f_equal].
    - unfold arr2. rewrite window_write_before by (try exact Hw2; lia).
      unfold arr1. rewrite window_write_before by (try exact Hw1; lia).
      symmetry. apply window_take. exact Hi.
    - apply window_write_same. exact Hw2.
    - unfold arr2. rewrite window_write_after by (try exact Hw2; lia).
      unfold c. rewrite window_drop by exact Hi. fold moved. rewrite <- Hmoved.
      apply window_write_same. exact Hw1. }
  split; [exact Hres|].
  rewrite <- Hres. symmetry. apply window_take. lia.
Qed.


